(** * Arbitrary-precision integers and rationals (Integer.cpp, Rational.cpp)

    A shallow embedding of the two classes of the repository and the
    properties of their operations.

    - [Integer] keeps a sign flag and a [std::vector<unsigned char>] of
      base-100 digits, least significant first.
    - [Rational] keeps two [Integer]s, numerator and denominator.

    Loops over a vector are written as recursive functions over the loop
    counter; vectors are lists read with [!!!] and written with
    [<[i:=x]>].  Results of operations that can throw, leave the process or
    index out of bounds live in [outcome].

    The [int] and [long long] locals of the arithmetic loops are kept in
    [Z] with the truncating [Z.rem] and [Z.quot] of C++; on base-100
    digits they stay below [BASE * BASE] ([add_loop_spec],
    [mul_inner_spec], [carry_loop_spec]), far from any wrap-around.  The
    narrowing casts to [DigitType] are written out as [to_DigitType].

    Two loops count down in an [int] taken from a vector size by
    [static_cast<int>], in [compareMagnitude] and in [operator<<]; their
    number of rounds is [int_rounds], the 32-bit value of the size being
    [to_int].  Up to [INT_MAX] digits ([int_sized]) they visit every
    digit; past that they do not, which the properties of comparison,
    addition and printing below account for. *)

From Stdlib Require Import ZArith QArith Lia String Ascii.
From Stdlib Require Import DecimalString DecimalPos DecimalFacts.
From stdpp Require Import base tactics decidable option list numbers strings.

Local Open Scope Z_scope.

(** ** Outcomes of a call *)

Inductive exception : Type :=
  | invalid_argument (what : string).

(** [Ok a]: the call returns [a].  [Throw e]: a C++ exception leaves the
    call.  [Exit msg status]: [msg] was written to [std::cerr] and
    [exit(status)] ended the process.  [Undefined]: a vector or array was
    indexed outside its bounds. *)
Inductive outcome (A : Type) : Type :=
  | Ok (a : A)
  | Throw (e : exception)
  | Exit (msg : string) (status : Z)
  | Undefined.
Arguments Ok {A} a.
Arguments Throw {A} e.
Arguments Exit {A} msg status.
Arguments Undefined {A}.

#[global] Instance outcome_ret : MRet outcome := fun A a => Ok a.
#[global] Instance outcome_bind : MBind outcome := fun A B f m =>
  match m with
  | Ok a => f a
  | Throw e => Throw e
  | Exit msg st => Exit msg st
  | Undefined => Undefined
  end.

#[global] Instance outcome_fmap : FMap outcome := fun A B f m =>
  m ≫= fun a => mret (f a).

Definition EXIT_FAILURE : Z := 1.

(** ** Integer: data *)

(** [const int BASE = 100;] and [using DigitType = unsigned char;] *)
Definition BASE : Z := 100.
Definition to_DigitType (x : Z) : Z := x mod 256.

Record Integer : Type := mkInteger { sign : bool; digits : list Z }.

#[global] Instance Integer_eq_dec : EqDecision Integer.
Proof. solve_decision. Defined.

(** [Integer() = default]: [sign = false], no digits. *)
Definition Integer_default : Integer := mkInteger false [].

Definition isZero (x : Integer) : bool := bool_decide (digits x = []).
Definition isNegative (x : Integer) : bool := sign x && negb (isZero x).
Definition signum (x : Integer) : Z :=
  if isZero x then 0 else if sign x then -1 else 1.

(** ** Integer::normalize *)

(** [while (digits.size() > 1 && digits.back() == 0) digits.pop_back();]
    Every round removes one element, so [length ds] rounds are enough. *)
Fixpoint pop_zeros (fuel : nat) (ds : list Z) : list Z :=
  match fuel with
  | O => ds
  | S fuel' =>
      if decide ((1 < length ds)%nat ∧ list.last ds = Some 0)
      then pop_zeros fuel' (removelast ds)
      else ds
  end.

Definition Integer_normalize (x : Integer) : Integer :=
  let ds := pop_zeros (length (digits x)) (digits x) in
  let x1 :=
    if decide (ds = [] ∨ (length ds = 1%nat ∧ ds !!! 0%nat = 0))
    then mkInteger false []
    else mkInteger (sign x) ds in
  if decide (digits x1 = []) then mkInteger false (digits x1) else x1.

(** ** The [int] loop counters *)

(** Two loops count down in an [int] obtained from a vector size:
    [static_cast<int>(digits.size()) - 1] in [compareMagnitude] and
    [static_cast<int>(digits.size()) - 2] in [operator<<].  [to_int] is
    the 32-bit two's-complement value of a number, used for the cast and
    for the subtraction.  (For a size of exactly [2^31], and [2^31 + 1] in
    [operator<<], the subtraction overflows, which C++ leaves undefined;
    the wrapped value is taken here.  No property below rests on it.) *)
Definition INT_MAX : Z := 2 ^ 31 - 1.
Definition INT_MIN : Z := - 2 ^ 31.
Definition to_int (x : Z) : Z := (x + 2 ^ 31) mod 2 ^ 32 - 2 ^ 31.

(** The number of rounds of [for (int i = i0; i >= 0; --i)] where [i0] is
    [static_cast<int>(size) - back]: [i0 + 1], or none when [i0] is
    negative. *)
Definition int_rounds (size : nat) (back : Z) : nat :=
  Z.to_nat (to_int (to_int (Z.of_nat size) - back) + 1).

(** ** Integer::compareMagnitude *)

(** [for (int i = static_cast<int>(size) - 1; i >= 0; --i)]; [k] is
    [i + 1]. *)
Fixpoint cmp_loop (d1 d2 : list Z) (k : nat) : Z :=
  match k with
  | O => 0
  | S i =>
      if d1 !!! i <? d2 !!! i then -1
      else if d2 !!! i <? d1 !!! i then 1
      else cmp_loop d1 d2 i
  end.

Definition compareMagnitude (a b : Integer) : Z :=
  if (length (digits a) <? length (digits b))%nat then -1
  else if (length (digits b) <? length (digits a))%nat then 1
  else if decide (digits a = []) then 0
  else cmp_loop (digits a) (digits b) (int_rounds (length (digits a)) 1).

(** ** Integer(bool, std::vector<DigitType>) *)

Definition Integer_from_vector (s : bool) (d_vec : list Z) : outcome Integer :=
  if decide (Exists (fun dig => BASE <= dig) d_vec)
  then Throw (invalid_argument "Invalid digit in vector constructor")
  else Ok (Integer_normalize (mkInteger s d_vec)).

(** ** Integer::addMagnitude *)

(** [for (size_t i = 0; i < m; ++i)]; [k] counts the rounds left.  The
    result is the vector [res] and the carry after the last round. *)
Fixpoint add_loop (d1 d2 : list Z) (k i : nat) (res : list Z) (carry : Z)
  : list Z * Z :=
  match k with
  | O => (res, carry)
  | S k' =>
      let sum := carry in
      let sum := if (i <? length d1)%nat then sum + d1 !!! i else sum in
      let sum := if (i <? length d2)%nat then sum + d2 !!! i else sum in
      add_loop d1 d2 k' (S i)
        (res ++ [to_DigitType (Z.rem sum BASE)]) (Z.quot sum BASE)
  end.

Definition addMagnitude (a b : Integer) : outcome Integer :=
  let d1 := digits a in
  let d2 := digits b in
  let m := Nat.max (length d1) (length d2) in
  let '(res, carry) := add_loop d1 d2 m 0 [] 0 in
  let res := if 0 <? carry then res ++ [to_DigitType carry] else res in
  result ← Integer_from_vector false res;
  mret (Integer_normalize result).

(** ** Integer::subtractMagnitude *)

(** [for (size_t i = 0; i < n1; ++i)]; the result is [res] and the borrow
    left after the last digit. *)
Fixpoint sub_loop (d1 d2 : list Z) (k i : nat) (res : list Z) (borrow : Z)
  : list Z * Z :=
  match k with
  | O => (res, borrow)
  | S k' =>
      let diff := d1 !!! i - borrow in
      let diff := if (i <? length d2)%nat then diff - d2 !!! i else diff in
      let '(diff, borrow) :=
        if diff <? 0 then (diff + BASE, 1) else (diff, 0) in
      sub_loop d1 d2 k' (S i) (res ++ [to_DigitType diff]) borrow
  end.

Definition subtract_digits (a b : Integer) : list Z * Z :=
  sub_loop (digits a) (digits b) (length (digits a)) 0 [] 0.

Definition subtractMagnitude (a b : Integer) : outcome Integer :=
  result ← Integer_from_vector false (subtract_digits a b).1;
  mret (Integer_normalize result).

(** ** Integer(long long) *)

Definition LLONG_MAX : Z := 2 ^ 63 - 1.
Definition LLONG_MIN : Z := - 2 ^ 63.
Definition ULLONG_WRAP : Z := 2 ^ 64.

(** [while (v > 0) { digits.push_back(v % BASE); v /= BASE; }] on an
    [unsigned long long]: [v] is below [2^64] and shrinks by a factor of
    100 a round, so 64 rounds are more than the loop can take.  The result
    is the value of [v] when the loop is left and the digits pushed. *)
Fixpoint ll_loop (fuel : nat) (v : Z) (ds : list Z) : Z * list Z :=
  match fuel with
  | O => (v, ds)
  | S fuel' =>
      if 0 <? v
      then ll_loop fuel' (v / BASE) (ds ++ [to_DigitType (v mod BASE)])
      else (v, ds)
  end.

Definition ll_fuel : nat := 64.

Definition Integer_from_ll (i : Z) : Integer :=
  let s := i <? 0 in
  if i =? 0 then mkInteger s []
  else
    let v := if i =? LLONG_MIN
             then (LLONG_MAX + 1) mod ULLONG_WRAP
             else Z.abs i in
    mkInteger s (ll_loop ll_fuel v []).2.

(** ** Integer(bool, int, const char* ) *)

(** The array behind [const char *d] is a list of raw bytes, [None] is
    [nullptr].  Whether plain [char] is signed is left to the platform;
    [char_negative] is [d[i] < 0] on the byte [c]. *)
Definition arr_get (d : list Z) (i : nat) : outcome Z :=
  match d !! i with
  | Some c => Ok c
  | None => Undefined
  end.

Definition char_negative (char_is_signed : bool) (c : Z) : bool :=
  char_is_signed && (128 <=? c).

Definition char_value (char_is_signed : bool) (c : Z) : Z :=
  if char_negative char_is_signed c then c - 256 else c.

(** [while (m > 1 && d[m-1] == 0) --m;] *)
Fixpoint strip_loop (d : list Z) (m : nat) : outcome nat :=
  match m with
  | O => Ok O
  | S m' =>
      if (1 <? m)%nat
      then c ← arr_get d m';
           if c =? 0 then strip_loop d m' else Ok m
      else Ok m
  end.

(** [for (int i = 0; i < m; ++i)]; [k] counts the rounds left. *)
Fixpoint copy_loop (char_is_signed : bool) (d : list Z) (k i : nat)
    (ds : list Z) : outcome (list Z) :=
  match k with
  | O => Ok ds
  | S k' =>
      c ← arr_get d i;
      if (BASE <=? c) || char_negative char_is_signed c
      then Throw (invalid_argument "Invalid digit in char* constructor")
      else copy_loop char_is_signed d k' (S i) (ds ++ [to_DigitType c])
  end.

Definition Integer_from_array (char_is_signed : bool) (s : bool) (n : Z)
    (d : option (list Z)) : outcome Integer :=
  match n <=? 0, d with
  | false, Some d =>
      m ← strip_loop d (Z.to_nat n);
      zero ← (if (m =? 1)%nat
              then c ← arr_get d 0; mret (c =? 0)
              else mret false);
      if (zero : bool) then Ok (mkInteger false [])
      else
        ds ← copy_loop char_is_signed d m 0 [];
        mret (Integer_normalize (mkInteger s ds))
  | _, _ => Ok (mkInteger false [])
  end.

(** ** Unary minus, addition, subtraction *)

Definition operator_neg (x : Integer) : Integer :=
  if isZero x then x else mkInteger (negb (sign x)) (digits x).

(** [r.sign = s; r.normalize();] *)
Definition with_sign (s : bool) (r : Integer) : Integer :=
  Integer_normalize (mkInteger s (digits r)).

Definition operator_plus (a b : Integer) : outcome Integer :=
  if eqb (sign a) (sign b)
  then r ← addMagnitude a b; mret (with_sign (sign a) r)
  else
    let cmp := compareMagnitude a b in
    if cmp =? 0 then Ok Integer_default
    else if 0 <? cmp
    then r ← subtractMagnitude a b; mret (with_sign (sign a) r)
    else r ← subtractMagnitude b a; mret (with_sign (sign b) r).

Definition operator_minus (a b : Integer) : outcome Integer :=
  operator_plus a (operator_neg b).

Definition Integer_abs (x : Integer) : Integer :=
  if sign x then operator_neg x else x.

(** ** Multiplication *)

(** Inner loop of row [i]: [for (size_t j = 0; j < n2; ++j)]; [k] counts
    the rounds left.  [i + j < n1 + n2] is the size of [tmp]. *)
Fixpoint mul_inner (di : Z) (d2 : list Z) (i : nat) (k j : nat)
    (tmp : list Z) (carry : Z) : list Z * Z :=
  match k with
  | O => (tmp, carry)
  | S k' =>
      let v := tmp !!! (i + j)%nat + di * d2 !!! j + carry in
      mul_inner di d2 i k' (S j)
        (<[(i + j)%nat := Z.rem v BASE]> tmp) (Z.quot v BASE)
  end.

(** [while (carry) { ... tmp[pos] ...; ++pos; }]; [room] is
    [tmp.size() - pos], the number of slots left from [pos] on: the loop
    has no bound of its own and indexes past the end when it is 0. *)
Fixpoint carry_loop (room : nat) (pos : nat) (tmp : list Z) (carry : Z)
  : outcome (list Z) :=
  if carry =? 0 then Ok tmp
  else
    match room with
    | O => Undefined
    | S room' =>
        let v := tmp !!! pos + carry in
        carry_loop room' (S pos) (<[pos := Z.rem v BASE]> tmp) (Z.quot v BASE)
    end.

(** Outer loop: [for (size_t i = 0; i < n1; ++i)]. *)
Fixpoint mul_rows (d1 d2 : list Z) (k i : nat) (tmp : list Z)
  : outcome (list Z) :=
  match k with
  | O => Ok tmp
  | S k' =>
      let '(tmp1, carry) := mul_inner (d1 !!! i) d2 i (length d2) 0 tmp 0 in
      let pos := (i + length d2)%nat in
      tmp2 ← carry_loop (length tmp1 - pos) pos tmp1 carry;
      mul_rows d1 d2 k' (S i) tmp2
  end.

(** [while (m > 1 && tmp[m-1] == 0) --m;] *)
Fixpoint trim_loop (tmp : list Z) (m : nat) : nat :=
  match m with
  | O => O
  | S m' =>
      if (1 <? m)%nat && (tmp !!! m' =? 0) then trim_loop tmp m' else m
  end.

Definition operator_mul (a b : Integer) : outcome Integer :=
  if isZero a || isZero b then Ok Integer_default
  else
    let rs := negb (eqb (sign a) (sign b)) in
    let n1 := length (digits a) in
    let n2 := length (digits b) in
    tmp ← mul_rows (digits a) (digits b) n1 0 (replicate (n1 + n2) 0);
    let m := trim_loop tmp (length tmp) in
    let fd := if (0 <? m)%nat then to_DigitType <$> take m tmp else [] in
    Integer_from_vector rs fd.

(** ** Comparisons *)

Definition operator_eq (a b : Integer) : bool :=
  if isZero a && isZero b then true
  else if negb (eqb (sign a) (sign b)) then false
  else bool_decide (digits a = digits b).

Definition operator_ne (a b : Integer) : bool := negb (operator_eq a b).

Definition operator_lt (a b : Integer) : bool :=
  if sign a && negb (sign b) then true
  else if negb (sign a) && sign b then false
  else if isZero a && isZero b then false
  else
    let cmp := compareMagnitude a b in
    if sign a then 0 <? cmp else cmp <? 0.

Definition operator_gt (a b : Integer) : bool := operator_lt b a.
Definition operator_le (a b : Integer) : bool := negb (operator_gt a b).
Definition operator_ge (a b : Integer) : bool := negb (operator_lt a b).

(** ** Text output *)

(** [os << n] for a native integer [n]: the decimal digits, most
    significant first, after a ['-'] when [n] is negative.  The digits are
    produced last to first, a division by ten each; [S (log2 v)] rounds are
    enough. *)
Definition digit_char (d : Z) : ascii := ascii_of_nat (48 + Z.to_nat d).

Fixpoint dec_loop (fuel : nat) (v : Z) (acc : string) : string :=
  match fuel with
  | O => acc
  | S fuel' =>
      let acc' := String (digit_char (v mod 10)) acc in
      if v <? 10 then acc' else dec_loop fuel' (v / 10) acc'
  end.

Definition show_nat (v : Z) : string :=
  dec_loop (S (Z.to_nat (Z.log2 v))) v "".

Definition show_int (n : Z) : string :=
  if n <? 0 then "-" +:+ show_nat (- n) else show_nat n.

(** [os << std::setw(2) << std::setfill('0') << n] *)
Definition show_int_w2 (n : Z) : string :=
  let s := show_int n in
  String.concat "" (replicate (2 - String.length s) "0"%string) +:+ s.

(** [for (int j = static_cast<int>(size) - 2; j >= 0; --j)]; [k] is
    [j + 1]. *)
Fixpoint print_loop (ds : list Z) (k : nat) : string :=
  match k with
  | O => ""
  | S j => show_int_w2 (ds !!! j) +:+ print_loop ds j
  end.

(** [operator<<(std::ostream&, const Integer&)]: the text written to a
    stream with default formatting. *)
Definition Integer_print (i : Integer) : string :=
  if isZero i then "0"
  else
    (if sign i then "-" else "")
    +:+ show_int (digits i !!! (length (digits i) - 1)%nat)
    +:+ print_loop (digits i) (int_rounds (length (digits i)) 2).

(** ** Rational *)

Record Rational : Type := mkRational { num : Integer; den : Integer }.

Definition Rational_normalize (r : Rational) : Rational :=
  let r1 :=
    if isNegative (den r)
    then mkRational (operator_neg (num r)) (operator_neg (den r))
    else r in
  if isZero (num r1) then mkRational (num r1) (Integer_from_ll 1) else r1.

(** [Rational(Integer, Integer)] *)
Definition Rational_from_Integers (n_param d_param : Integer)
  : outcome Rational :=
  if isZero d_param
  then Exit "Error: Rational denominator cannot be zero." EXIT_FAILURE
  else Ok (Rational_normalize (mkRational n_param d_param)).

(** [Rational(Integer)], [Rational(long long)] and the default
    constructor. *)
Definition Rational_from_Integer (n_param : Integer) : Rational :=
  Rational_normalize (mkRational n_param (Integer_from_ll 1)).

Definition Rational_from_ll (n : Z) : Rational :=
  Rational_normalize (mkRational (Integer_from_ll n) (Integer_from_ll 1)).

Definition Rational_default : Rational :=
  mkRational (Integer_from_ll 0) (Integer_from_ll 1).

Definition Rational_print (r : Rational) : string :=
  Integer_print (num r)
  +:+ (if operator_ne (den r) (Integer_from_ll 1)
       then "/" +:+ Integer_print (den r)
       else "").

Definition Rational_neg (r : Rational) : Rational :=
  Rational_normalize (mkRational (operator_neg (num r)) (den r)).

Definition Rational_plus (a b : Rational) : outcome Rational :=
  x ← operator_mul (num a) (den b);
  y ← operator_mul (den a) (num b);
  new_num ← operator_plus x y;
  new_den ← operator_mul (den a) (den b);
  Rational_from_Integers new_num new_den.

Definition Rational_minus (a b : Rational) : outcome Rational :=
  x ← operator_mul (num a) (den b);
  y ← operator_mul (den a) (num b);
  new_num ← operator_minus x y;
  new_den ← operator_mul (den a) (den b);
  Rational_from_Integers new_num new_den.

Definition Rational_mul (a b : Rational) : outcome Rational :=
  new_num ← operator_mul (num a) (num b);
  new_den ← operator_mul (den a) (den b);
  Rational_from_Integers new_num new_den.

Definition Rational_div (a b : Rational) : outcome Rational :=
  if isZero (num b)
  then Exit "Error: Division by zero rational number." EXIT_FAILURE
  else
    new_num ← operator_mul (num a) (den b);
    new_den ← operator_mul (den a) (num b);
    Rational_from_Integers new_num new_den.

Definition Rational_eq (a b : Rational) : outcome bool :=
  x ← operator_mul (num a) (den b);
  y ← operator_mul (den a) (num b);
  mret (operator_eq x y).

Definition Rational_ne (a b : Rational) : outcome bool :=
  e ← Rational_eq a b; mret (negb e).

(** * Properties *)

(** ** Magnitudes *)

(** The number a digit vector stands for, least significant digit first. *)
Definition mag (ds : list Z) : Z := foldr (fun d acc => d + BASE * acc) 0 ds.

(** The value of an [Integer]. *)
Definition to_Z (x : Integer) : Z :=
  if sign x then - mag (digits x) else mag (digits x).

Definition digits_ok (ds : list Z) : Prop := Forall (fun d => 0 <= d < BASE) ds.

(** Canonical form: base-100 digits, no most-significant zero digit, and
    no negative zero. *)
Definition canonical (x : Integer) : Prop :=
  digits_ok (digits x)
  ∧ list.last (digits x) ≠ Some 0
  ∧ (digits x = [] → sign x = false).

(** At most [INT_MAX] digits: the sizes at which the [int] loop counters
    hold the vector size unchanged. *)
Definition int_sized (x : Integer) : Prop :=
  Z.of_nat (length (digits x)) <= INT_MAX.

(** Operands past the range of [int], on which the [int] loop counters
    are observed: [repdigit s n d] has [n] digits [d]; [two_ended s n lo
    hi] has [n + 2] digits, [lo] the lowest, [hi] the highest and zero
    between.  The sizes used are [2^31 + 1] digits for the first and
    [2^32 + 1] digits for the second. *)
Definition two_pow_31_plus_1 : nat := Z.to_nat (2 ^ 31 + 1).
Definition two_pow_32_minus_1 : nat := Z.to_nat (2 ^ 32 - 1).
Definition repdigit (s : bool) (n : nat) (d : Z) : Integer :=
  mkInteger s (replicate n d).
Definition two_ended (s : bool) (n : nat) (lo hi : Z) : Integer :=
  mkInteger s (lo :: replicate n 0 ++ [hi]).

(** The digit at [i], zero past the end: what the guarded reads
    [if (i < n) ... d[i]] contribute. *)
Definition digit_at (ds : list Z) (i : nat) : Z :=
  if (i <? length ds)%nat then ds !!! i else 0.


(** A raw byte of a [char] array or an element of a
    [std::vector<unsigned char>]. *)
Definition byte_ok (c : Z) : Prop := 0 <= c < 256.

(** The [Integer] values a caller can get hold of: the results of the
    constructors and of the public operations on such values. *)
Inductive exposed : Integer → Prop :=
  | exposed_default : exposed Integer_default
  | exposed_from_ll i :
      LLONG_MIN <= i <= LLONG_MAX → exposed (Integer_from_ll i)
  | exposed_from_array cs s n d r :
      (∀ l, d = Some l → Forall byte_ok l) →
      Integer_from_array cs s n d = Ok r → exposed r
  | exposed_from_vector s v r :
      Forall byte_ok v → Integer_from_vector s v = Ok r → exposed r
  | exposed_neg a : exposed a → exposed (operator_neg a)
  | exposed_plus a b r :
      exposed a → exposed b → operator_plus a b = Ok r → exposed r
  | exposed_minus a b r :
      exposed a → exposed b → operator_minus a b = Ok r → exposed r
  | exposed_mul a b r :
      exposed a → exposed b → operator_mul a b = Ok r → exposed r
  | exposed_abs a : exposed a → exposed (Integer_abs a).

(** The schoolbook product in words: every product [d1[i] * d2[j]] counted
    at position [i + j], that is with weight [BASE ^ (i + j)].  [row_sum]
    is one row, [pos] the position of its first product. *)
Fixpoint row_sum (x : Z) (d2 : list Z) (pos : nat) : Z :=
  match d2 with
  | [] => 0
  | y :: d2' => x * y * BASE ^ Z.of_nat pos + row_sum x d2' (S pos)
  end.

Fixpoint schoolbook (d1 d2 : list Z) (i : nat) : Z :=
  match d1 with
  | [] => 0
  | x :: d1' => row_sum x d2 i + schoolbook d1' d2 (S i)
  end.

(** The arguments of the call of [subtractMagnitude] that [operator+]
    makes on [a] and [b], if it makes one (the three branches of its
    body). *)
Definition plus_subtract_call (a b : Integer) : option (Integer * Integer) :=
  if eqb (sign a) (sign b) then None
  else
    let cmp := compareMagnitude a b in
    if cmp =? 0 then None
    else if 0 <? cmp then Some (a, b)
    else Some (b, a).

(** The test of the array constructor on one byte:
    [static_cast<unsigned char>(d[i]) >= BASE || d[i] < 0]. *)
Definition digit_rejected (cs : bool) (c : Z) : Prop :=
  BASE <= c ∨ char_negative cs c = true.

(** [canonical] of an explicit value, by evaluation. *)
Ltac canonical_by_eval :=
  split_and!;
  [ repeat constructor; unfold BASE; lia
  | vm_compute; discriminate
  | vm_compute; first [reflexivity | discriminate] ].


(** The invariant [Rational::normalize] does establish: both parts
    canonical, the denominator positive, and zero kept as [0/1]. *)
Definition Rational_ok (r : Rational) : Prop :=
  canonical (num r) ∧ canonical (den r) ∧ 0 < to_Z (den r)
  ∧ (to_Z (num r) = 0 → den r = Integer_from_ll 1).

(** The fraction a [Rational] with a positive denominator stands for. *)
Definition to_Q (r : Rational) : Q :=
  Qmake (to_Z (num r)) (Z.to_pos (to_Z (den r))).

(** The [Rational] values a caller can get hold of. *)
Inductive exposed_rational : Rational → Prop :=
  | exposed_rational_default : exposed_rational Rational_default
  | exposed_rational_from_Integers n d r :
      exposed n → exposed d → Rational_from_Integers n d = Ok r →
      exposed_rational r
  | exposed_rational_from_Integer n :
      exposed n → exposed_rational (Rational_from_Integer n)
  | exposed_rational_from_ll n :
      LLONG_MIN <= n <= LLONG_MAX → exposed_rational (Rational_from_ll n)
  | exposed_rational_neg a :
      exposed_rational a → exposed_rational (Rational_neg a)
  | exposed_rational_plus a b r :
      exposed_rational a → exposed_rational b → Rational_plus a b = Ok r →
      exposed_rational r
  | exposed_rational_minus a b r :
      exposed_rational a → exposed_rational b → Rational_minus a b = Ok r →
      exposed_rational r
  | exposed_rational_mul a b r :
      exposed_rational a → exposed_rational b → Rational_mul a b = Ok r →
      exposed_rational r
  | exposed_rational_div a b r :
      exposed_rational a → exposed_rational b → Rational_div a b = Ok r →
      exposed_rational r.

(** The digits of [dec_loop] as a [Decimal.uint] of the Standard Library:
    [digit_cons k d] puts the digit [k] in front of [d]; [dec_uint_loop]
    follows [dec_loop]; [little_digits] lists the digits least significant
    first. *)
Definition digit_cons (k : Z) (d : Decimal.uint) : Decimal.uint :=
  match k with
  | 0 => Decimal.D0 d | 1 => Decimal.D1 d | 2 => Decimal.D2 d
  | 3 => Decimal.D3 d | 4 => Decimal.D4 d | 5 => Decimal.D5 d
  | 6 => Decimal.D6 d | 7 => Decimal.D7 d | 8 => Decimal.D8 d
  | _ => Decimal.D9 d
  end.

Fixpoint dec_uint_loop (fuel : nat) (v : Z) (acc : Decimal.uint)
  : Decimal.uint :=
  match fuel with
  | O => acc
  | S fuel' =>
      let acc' := digit_cons (v mod 10) acc in
      if v <? 10 then acc' else dec_uint_loop fuel' (v / 10) acc'
  end.

Fixpoint little_digits (fuel : nat) (v : Z) : Decimal.uint :=
  match fuel with
  | O => Decimal.Nil
  | S fuel' =>
      digit_cons (v mod 10)
        (if v <? 10 then Decimal.Nil else little_digits fuel' (v / 10))
  end.

(** [Rational_ok] of an explicit value with a non-zero numerator, by
    evaluation. *)
Ltac int_sized_by_eval := unfold int_sized, INT_MAX; simpl; lia.

Ltac rational_ok_by_eval :=
  split_and!;
  [ canonical_by_eval
  | canonical_by_eval
  | vm_compute; reflexivity
  | let H := fresh in intros H; vm_compute in H; discriminate H ].
(** ** Arithmetic of digit vectors *)

#[global] Arguments mag : simpl never.

Lemma BASE_pos : 0 < BASE.
Proof. reflexivity. Qed.

Lemma mag_nil : mag [] = 0.
Proof. reflexivity. Qed.

Lemma mag_cons d ds : mag (d :: ds) = d + BASE * mag ds.
Proof. reflexivity. Qed.

Lemma mag_app ds1 ds2 :
  mag (ds1 ++ ds2) = mag ds1 + BASE ^ Z.of_nat (length ds1) * mag ds2.
Proof.
  induction ds1 as [|d ds1 IH]; simpl app; simpl length.
  - rewrite mag_nil. simpl. lia.
  - rewrite !mag_cons, IH, Nat2Z.inj_succ, Z.pow_succ_r by lia. ring.
Qed.

Lemma mag_snoc ds d : mag (ds ++ [d]) = mag ds + BASE ^ Z.of_nat (length ds) * d.
Proof. rewrite mag_app, mag_cons, mag_nil. f_equal. ring. Qed.

Lemma digits_ok_nil : digits_ok [].
Proof. constructor. Qed.

Lemma digits_ok_app ds1 ds2 :
  digits_ok (ds1 ++ ds2) ↔ digits_ok ds1 ∧ digits_ok ds2.
Proof. apply Forall_app. Qed.

Lemma digits_ok_snoc ds d :
  digits_ok ds → 0 <= d < BASE → digits_ok (ds ++ [d]).
Proof. intros H Hd. apply digits_ok_app. split; [done|]. by constructor. Qed.

Lemma digits_ok_lookup ds i :
  digits_ok ds → (i < length ds)%nat → 0 <= ds !!! i < BASE.
Proof.
  intros H Hi. apply (Forall_lookup_total_1 _ _ i H Hi).
Qed.

Lemma mag_bounds ds : digits_ok ds → 0 <= mag ds < BASE ^ Z.of_nat (length ds).
Proof.
  induction 1 as [|d ds Hd _ IH]; [rewrite mag_nil; simpl; lia|].
  rewrite mag_cons. simpl length.
  rewrite Nat2Z.inj_succ, Z.pow_succ_r by lia.
  unfold BASE in *. lia.
Qed.

Lemma mag_nonneg ds : Forall (fun d => 0 <= d) ds → 0 <= mag ds.
Proof.
  induction 1 as [|d ds Hd _ IH]; [rewrite mag_nil; lia|].
  rewrite mag_cons. unfold BASE. lia.
Qed.

Lemma mag_take_S ds i :
  (i < length ds)%nat →
  mag (take (S i) ds) = mag (take i ds) + BASE ^ Z.of_nat i * ds !!! i.
Proof.
  intros Hi.
  rewrite (take_S_r ds i (ds !!! i)) by by apply list_lookup_lookup_total_lt.
  rewrite mag_snoc, length_take_le by lia. done.
Qed.

Lemma mag_insert ds i x :
  (i < length ds)%nat →
  mag (<[i:=x]> ds) = mag ds + BASE ^ Z.of_nat i * (x - ds !!! i).
Proof.
  revert i. induction ds as [|d ds IH]; intros [|i] Hi; simpl in Hi; try lia.
  - simpl. rewrite !mag_cons. change (_ !!! _) with d. lia.
  - simpl. rewrite !mag_cons, IH by lia.
    rewrite Nat2Z.inj_succ, Z.pow_succ_r by lia.
    change ((d :: ds) !!! S i) with (ds !!! i). ring.
Qed.

Lemma mag_replicate_0 n : mag (replicate n 0) = 0.
Proof. induction n as [|n IH]; [done|]. simpl. rewrite mag_cons, IH. done. Qed.

Lemma digits_ok_insert ds i x :
  digits_ok ds → 0 <= x < BASE → digits_ok (<[i:=x]> ds).
Proof. intros H Hx. by apply Forall_insert. Qed.

(** A vector without a most-significant zero stands for a number of
    exactly its length. *)
Lemma mag_lower ds :
  digits_ok ds → ds ≠ [] → list.last ds ≠ Some 0 →
  BASE ^ Z.of_nat (length ds - 1) <= mag ds.
Proof.
  intros Hok Hne Hlast.
  destruct (decide (ds = [])) as [|_]; [done|].
  destruct ds as [|d ds _] using rev_ind; [done|].
  rewrite last_snoc in Hlast.
  apply digits_ok_app in Hok as [Hok Hd]. inversion_clear Hd as [|?? Hd' _].
  rewrite mag_snoc, length_app. simpl length.
  replace (length ds + 1 - 1)%nat with (length ds) by lia.
  pose proof (mag_bounds ds Hok).
  assert (1 <= d) by (assert (d ≠ 0) by congruence; lia).
  nia.
Qed.

(** ** normalize *)

Lemma last_zero_snoc (ds : list Z) x :
  list.last ds = Some x → ds = removelast ds ++ [x].
Proof.
  intros [ds' ->]%last_Some. by rewrite removelast_last.
Qed.

Lemma pop_zeros_mag fuel ds : mag (pop_zeros fuel ds) = mag ds.
Proof.
  revert ds. induction fuel as [|fuel IH]; intros ds; simpl; [done|].
  case_decide as H; [|done].
  destruct H as [_ H]. rewrite IH.
  rewrite (last_zero_snoc ds 0 H) at 2. rewrite mag_snoc. lia.
Qed.

Lemma pop_zeros_ok fuel ds : digits_ok ds → digits_ok (pop_zeros fuel ds).
Proof.
  revert ds. induction fuel as [|fuel IH]; intros ds Hok; simpl; [done|].
  case_decide as H; [|done].
  destruct H as [_ H]. apply IH.
  rewrite (last_zero_snoc ds 0 H) in Hok. by apply digits_ok_app in Hok as [? _].
Qed.

(** With [length ds] rounds the loop is left by its own test. *)
Lemma pop_zeros_done fuel ds :
  (length ds <= fuel)%nat →
  ¬ ((1 < length (pop_zeros fuel ds))%nat
     ∧ list.last (pop_zeros fuel ds) = Some 0).
Proof.
  revert ds. induction fuel as [|fuel IH]; intros ds Hlen; simpl.
  - intros [? _]. lia.
  - case_decide as H; [|done].
    apply IH. destruct H as [_ H].
    rewrite (last_zero_snoc ds 0 H), length_app in Hlen. simpl in Hlen. lia.
Qed.

Lemma pop_zeros_id fuel ds :
  ¬ ((1 < length ds)%nat ∧ list.last ds = Some 0) → pop_zeros fuel ds = ds.
Proof. intros H. destruct fuel; simpl; [done|]. by rewrite decide_False. Qed.

Lemma pop_zeros_nil_inv fuel ds : pop_zeros fuel ds = [] → ds = [].
Proof.
  revert ds. induction fuel as [|fuel IH]; intros ds; simpl; [done|].
  case_decide as H; [|done].
  intros Hnil%IH. destruct H as [Hlen H].
  rewrite (last_zero_snoc ds 0 H), Hnil, length_app in Hlen. simpl in Hlen. lia.
Qed.

Lemma canonical_default : canonical Integer_default.
Proof. split_and!; [constructor|done|done]. Qed.

Lemma normalize_unfold x :
  Integer_normalize x =
    let ds := pop_zeros (length (digits x)) (digits x) in
    if decide (ds = [] ∨ (length ds = 1%nat ∧ ds !!! 0%nat = 0))
    then Integer_default
    else mkInteger (sign x) ds.
Proof.
  unfold Integer_normalize. simpl.
  set (ds := pop_zeros _ _).
  destruct (decide (ds = [] ∨ _)) as [H1|H1]; simpl.
  - done.
  - rewrite decide_False; [done|]. intros He. apply H1. by left.
Qed.

Lemma normalize_canonical x :
  digits_ok (digits x) → canonical (Integer_normalize x).
Proof.
  intros Hok. rewrite normalize_unfold.
  pose proof (pop_zeros_ok (length (digits x)) _ Hok) as Hok'.
  pose proof (pop_zeros_done (length (digits x)) (digits x) (Nat.le_refl _)) as Hd.
  simpl. set (ds := pop_zeros _ _) in *.
  case_decide as H1; [apply canonical_default|].
  split_and!; simpl; [done| |].
  - intros Hl. apply H1. right.
    destruct ds as [|d [|d' ds']]; [done| |].
    + split; [done|]. simpl in Hl. by injection Hl.
    + exfalso. apply Hd. split; [simpl; lia|done].
  - intros ->. exfalso. apply H1. by left.
Qed.

Lemma normalize_mag x : mag (digits (Integer_normalize x)) = mag (digits x).
Proof.
  rewrite normalize_unfold. simpl.
  rewrite <- (pop_zeros_mag (length (digits x)) (digits x)).
  set (ds := pop_zeros _ _).
  case_decide as H1; simpl; [|done].
  destruct H1 as [->|[Hl H0]]; [done|].
  destruct ds as [|d [|??]]; try done.
  change ((d :: []) !!! 0%nat) with d in H0. by subst.
Qed.

Lemma normalize_sign x :
  digits (Integer_normalize x) ≠ [] → sign (Integer_normalize x) = sign x.
Proof.
  rewrite normalize_unfold. simpl. by case_decide.
Qed.

Lemma normalize_id x : canonical x → Integer_normalize x = x.
Proof.
  intros (Hok & Hlast & Hs). rewrite normalize_unfold. simpl.
  rewrite pop_zeros_id by (intros [_ ?]; done).
  destruct x as [s ds]; simpl in *.
  case_decide as H1; [|done].
  destruct H1 as [->|[Hl H0]]; [by rewrite Hs|].
  destruct ds as [|d [|??]]; try done.
  change ((d :: []) !!! 0%nat) with d in H0. by subst.
Qed.

(** In canonical form the value is zero exactly when there is no digit. *)
Lemma canonical_mag_pos x : canonical x → digits x ≠ [] → 0 < mag (digits x).
Proof.
  intros (Hok & Hlast & _) Hne.
  pose proof (mag_lower _ Hok Hne Hlast).
  assert (0 < BASE ^ Z.of_nat (length (digits x) - 1)) by (apply Z.pow_pos_nonneg; unfold BASE; lia).
  lia.
Qed.

Lemma canonical_mag_zero x : canonical x → mag (digits x) = 0 ↔ digits x = [].
Proof.
  intros Hc. split; [|by intros ->].
  intros H0. destruct (decide (digits x = [])) as [|Hne]; [done|].
  pose proof (canonical_mag_pos x Hc Hne). lia.
Qed.

Lemma canonical_to_Z_zero x : canonical x → to_Z x = 0 ↔ digits x = [].
Proof.
  intros Hc. rewrite <- (canonical_mag_zero x Hc). unfold to_Z.
  destruct (sign x); lia.
Qed.

Lemma normalize_zero x :
  digits_ok (digits x) → mag (digits x) = 0 → Integer_normalize x = Integer_default.
Proof.
  intros Hok H0. pose proof (normalize_canonical x Hok) as Hc.
  pose proof (normalize_mag x) as Hm. rewrite H0 in Hm.
  apply canonical_mag_zero in Hm; [|done].
  destruct Hc as (_ & _ & Hs). specialize (Hs Hm).
  destruct (Integer_normalize x); simpl in *. by subst.
Qed.

Lemma normalize_to_Z x :
  digits_ok (digits x) → to_Z (Integer_normalize x) = to_Z x.
Proof.
  intros Hok. unfold to_Z at 1.
  destruct (decide (digits (Integer_normalize x) = [])) as [He|Hne].
  - pose proof (normalize_mag x) as Hm. rewrite He, mag_nil in Hm.
    unfold to_Z. rewrite <- Hm, He, mag_nil. by destruct (sign _), (sign _).
  - rewrite normalize_sign, normalize_mag by done. done.
Qed.

(** ** The vector constructor *)

Lemma from_vector_ok s ds :
  digits_ok ds → Integer_from_vector s ds = Ok (Integer_normalize (mkInteger s ds)).
Proof.
  intros Hok. unfold Integer_from_vector. rewrite decide_False; [done|].
  intros (d & Hd & Hge)%Exists_exists.
  apply (proj1 (Forall_forall _ _) Hok) in Hd. lia.
Qed.

Lemma from_vector_throw s ds :
  (∃ e, Integer_from_vector s ds = Throw e) ↔ Exists (fun d => BASE <= d) ds.
Proof.
  unfold Integer_from_vector. case_decide as H; split.
  - done.
  - eauto.
  - intros [? ?]. done.
  - done.
Qed.

Lemma to_DigitType_small d : 0 <= d < BASE → to_DigitType d = d.
Proof. intros H. unfold to_DigitType, BASE in *. apply Z.mod_small. lia. Qed.

(** ** addMagnitude and subtractMagnitude *)

Lemma digit_at_bounds ds i : digits_ok ds → 0 <= digit_at ds i < BASE.
Proof.
  intros Hok. unfold digit_at. case_match eqn:Hi; [|unfold BASE; lia].
  apply Nat.ltb_lt in Hi. by apply digits_ok_lookup.
Qed.

Lemma mag_take_digit_at ds i :
  mag (take (S i) ds) = mag (take i ds) + BASE ^ Z.of_nat i * digit_at ds i.
Proof.
  unfold digit_at. case_match eqn:Hi.
  - apply Nat.ltb_lt in Hi. by apply mag_take_S.
  - apply Nat.ltb_ge in Hi. rewrite !take_ge by lia. lia.
Qed.

Lemma add_loop_spec d1 d2 k : ∀ i res carry,
  digits_ok d1 → digits_ok d2 → digits_ok res →
  length res = i → 0 <= carry <= 1 →
  mag res + BASE ^ Z.of_nat i * carry = mag (take i d1) + mag (take i d2) →
  ∃ res' carry',
    add_loop d1 d2 k i res carry = (res', carry')
    ∧ digits_ok res' ∧ length res' = (i + k)%nat ∧ 0 <= carry' <= 1
    ∧ mag res' + BASE ^ Z.of_nat (i + k) * carry'
      = mag (take (i + k) d1) + mag (take (i + k) d2).
Proof.
  induction k as [|k IH]; intros i res carry H1 H2 Hres Hlen Hc Hinv.
  - exists res, carry. rewrite Nat.add_0_r. done.
  - cbn [add_loop].
    pose proof (digit_at_bounds d1 i H1) as Hb1.
    pose proof (digit_at_bounds d2 i H2) as Hb2.
    set (sum := (if (i <? length d2)%nat then _ else _)).
    assert (sum = carry + digit_at d1 i + digit_at d2 i) as Hsum.
    { unfold sum, digit_at. repeat case_match; lia. }
    clearbody sum. unfold BASE in Hb1, Hb2.
    assert (0 <= sum < 200) as Hs by lia.
    rewrite Z.rem_mod_nonneg, Z.quot_div_nonneg by (unfold BASE; lia).
    assert (0 <= sum mod BASE < BASE) as Hm by (apply Z.mod_pos_bound; done).
    rewrite to_DigitType_small by done.
    destruct (IH (S i) (res ++ [sum mod BASE]) (sum / BASE)) as (res' & carry' & Heq & ?);
      try done.
    + by apply digits_ok_snoc.
    + rewrite length_app. simpl. lia.
    + unfold BASE. split; [apply Z.div_pos; lia|].
      assert (sum / 100 < 2) by (apply Z.div_lt_upper_bound; lia). lia.
    + rewrite mag_snoc, Hlen, !mag_take_digit_at, Nat2Z.inj_succ, Z.pow_succ_r by lia.
      pose proof (Z.div_mod sum BASE ltac:(done)). nia.
    + exists res', carry'. replace (i + S k)%nat with (S i + k)%nat by lia. done.
Qed.

Lemma addMagnitude_spec a b :
  digits_ok (digits a) → digits_ok (digits b) →
  ∃ r, addMagnitude a b = Ok r ∧ canonical r ∧ sign r = false
       ∧ mag (digits r) = mag (digits a) + mag (digits b).
Proof.
  intros H1 H2. unfold addMagnitude.
  destruct (add_loop_spec (digits a) (digits b)
              (Nat.max (length (digits a)) (length (digits b))) 0 [] 0)
    as (res & carry & -> & Hok & Hlen & Hc & Hinv); try done.
  { apply digits_ok_nil. }
  simpl in Hinv. rewrite !take_ge in Hinv by lia.
  set (res' := if 0 <? carry then _ else _).
  assert (digits_ok res' ∧ mag res' = mag (digits a) + mag (digits b)) as [Hok' Hmag].
  { unfold res'. case_match eqn:Hlt.
    - apply Z.ltb_lt in Hlt. rewrite to_DigitType_small by (unfold BASE; lia).
      split; [apply digits_ok_snoc; [done|unfold BASE; lia]|].
      rewrite mag_snoc, Hlen. done.
    - apply Z.ltb_ge in Hlt. assert (carry = 0) as -> by lia.
      split; [done|]. lia. }
  rewrite from_vector_ok by done. simpl.
  eexists. split; [done|].
  assert (canonical (Integer_normalize {| sign := false; digits := res' |})) as Hcan
    by by apply normalize_canonical.
  rewrite (normalize_id _ Hcan). split; [done|].
  rewrite normalize_mag. simpl. split; [|done].
  rewrite normalize_unfold. simpl. by case_decide.
Qed.

Lemma sub_loop_spec d1 d2 k : ∀ i res borrow,
  digits_ok d1 → digits_ok d2 → digits_ok res →
  length res = i → (i + k <= length d1)%nat → 0 <= borrow <= 1 →
  mag res - BASE ^ Z.of_nat i * borrow = mag (take i d1) - mag (take i d2) →
  ∃ res' borrow',
    sub_loop d1 d2 k i res borrow = (res', borrow')
    ∧ digits_ok res' ∧ length res' = (i + k)%nat ∧ 0 <= borrow' <= 1
    ∧ mag res' - BASE ^ Z.of_nat (i + k) * borrow'
      = mag (take (i + k) d1) - mag (take (i + k) d2).
Proof.
  induction k as [|k IH]; intros i res borrow H1 H2 Hres Hlen Hik Hb Hinv.
  - exists res, borrow. rewrite Nat.add_0_r. done.
  - cbn [sub_loop].
    pose proof (digits_ok_lookup d1 i H1 ltac:(lia)) as Hb1.
    pose proof (digit_at_bounds d2 i H2) as Hb2.
    set (diff := (if (i <? length d2)%nat then _ else _)).
    assert (diff = d1 !!! i - borrow - digit_at d2 i) as Hdiff.
    { unfold diff, digit_at. repeat case_match; lia. }
    clearbody diff. unfold BASE in Hb1, Hb2.
    set (p := if diff <? 0 then _ else _).
    assert (∃ dg bw, p = (dg, bw) ∧ 0 <= dg < BASE ∧ 0 <= bw <= 1
                     ∧ dg - BASE * bw = diff) as (dg & bw & -> & Hdg & Hbw & Hst).
    { unfold p, BASE. case_match eqn:Hlt;
        [apply Z.ltb_lt in Hlt|apply Z.ltb_ge in Hlt]; eexists _, _;
        (split; [done|]); lia. }
    rewrite to_DigitType_small by done.
    destruct (IH (S i) (res ++ [dg]) bw) as (res' & borrow' & Heq & ?); try done.
    + by apply digits_ok_snoc.
    + rewrite length_app. simpl. lia.
    + lia.
    + rewrite mag_snoc, Hlen, mag_take_S, mag_take_digit_at, Nat2Z.inj_succ,
        Z.pow_succ_r by lia. nia.
    + exists res', borrow'. replace (i + S k)%nat with (S i + k)%nat by lia. done.
Qed.

(** When [|a| >= |b|] no borrow is left after the last digit and the
    digits are those of [|a| - |b|]. *)
Lemma subtract_digits_spec a b :
  digits_ok (digits a) → digits_ok (digits b) →
  (length (digits b) <= length (digits a))%nat →
  mag (digits b) <= mag (digits a) →
  (subtract_digits a b).2 = 0
  ∧ digits_ok (subtract_digits a b).1
  ∧ mag (subtract_digits a b).1 = mag (digits a) - mag (digits b).
Proof.
  intros H1 H2 Hlen Hle. unfold subtract_digits.
  destruct (sub_loop_spec (digits a) (digits b) (length (digits a)) 0 [] 0)
    as (res & borrow & -> & Hok & Hl & Hb & Hinv); try done.
  { apply digits_ok_nil. }
  simpl in *. rewrite !take_ge in Hinv by lia.
  pose proof (mag_bounds res Hok) as Hbd. rewrite Hl in Hbd.
  assert (borrow = 0) as -> by nia.
  split_and!; [done..|lia].
Qed.

Lemma subtractMagnitude_spec a b :
  digits_ok (digits a) → digits_ok (digits b) →
  (length (digits b) <= length (digits a))%nat →
  mag (digits b) <= mag (digits a) →
  ∃ r, subtractMagnitude a b = Ok r ∧ canonical r ∧ sign r = false
       ∧ mag (digits r) = mag (digits a) - mag (digits b).
Proof.
  intros H1 H2 Hlen Hle. unfold subtractMagnitude.
  destruct (subtract_digits_spec a b) as (_ & Hok & Hmag); try done.
  rewrite from_vector_ok by done. simpl.
  eexists. split; [done|].
  assert (canonical (Integer_normalize {| sign := false; digits := (subtract_digits a b).1 |}))
    as Hcan by by apply normalize_canonical.
  rewrite (normalize_id _ Hcan). split; [done|].
  rewrite normalize_mag. simpl. split; [|done].
  rewrite normalize_unfold. simpl. by case_decide.
Qed.

(** ** compareMagnitude *)

Lemma cmp_loop_spec d1 d2 k :
  digits_ok d1 → digits_ok d2 →
  (k <= length d1)%nat → (k <= length d2)%nat →
  (cmp_loop d1 d2 k = -1 ∧ mag (take k d1) < mag (take k d2))
  ∨ (cmp_loop d1 d2 k = 0 ∧ take k d1 = take k d2)
  ∨ (cmp_loop d1 d2 k = 1 ∧ mag (take k d2) < mag (take k d1)).
Proof.
  intros H1 H2. induction k as [|k IH]; intros Hk1 Hk2.
  - right; left. by rewrite !take_0.
  - cbn [cmp_loop]. rewrite !mag_take_S by lia.
    pose proof (mag_bounds (take k d1) (Forall_take _ _ _ H1)) as Hb1.
    pose proof (mag_bounds (take k d2) (Forall_take _ _ _ H2)) as Hb2.
    rewrite length_take_le in Hb1, Hb2 by lia.
    destruct (Z.ltb_spec (d1 !!! k) (d2 !!! k)); [left; split; [done|nia]|].
    destruct (Z.ltb_spec (d2 !!! k) (d1 !!! k)); [right; right; split; [done|nia]|].
    assert (d1 !!! k = d2 !!! k) as Heq by lia.
    destruct IH as [[-> ?]|[[-> Ht]|[-> ?]]]; [lia..| | |].
    + left. split; [done|]. rewrite Heq. lia.
    + right; left. split; [done|].
      rewrite (take_S_r d1 k (d1 !!! k)), (take_S_r d2 k (d2 !!! k))
        by (apply list_lookup_lookup_total_lt; lia).
      by rewrite Ht, Heq.
    + right; right. split; [done|]. rewrite Heq. lia.
Qed.

Lemma canonical_length_lt a b :
  canonical a → canonical b →
  (length (digits a) < length (digits b))%nat → mag (digits a) < mag (digits b).
Proof.
  intros (Ha & _ & _) (Hb & Hlb & _) Hlt.
  pose proof (mag_bounds _ Ha) as Hba.
  assert (digits b ≠ []) as Hne by (intros E; rewrite E in Hlt; simpl in Hlt; lia).
  pose proof (mag_lower _ Hb Hne Hlb) as Hlow.
  assert (BASE ^ Z.of_nat (length (digits a)) <= BASE ^ Z.of_nat (length (digits b) - 1)).
  { apply Z.pow_le_mono_r; [done|lia]. }
  lia.
Qed.

Lemma to_int_small x : INT_MIN <= x <= INT_MAX → to_int x = x.
Proof.
  unfold INT_MIN, INT_MAX, to_int. intros Hx.
  rewrite Z.mod_small by lia. lia.
Qed.

(** Up to [INT_MAX] elements the counter starts where it is meant to. *)
Lemma int_rounds_small n back :
  Z.of_nat n <= INT_MAX → 0 <= back <= 2 →
  int_rounds n back = Z.to_nat (Z.of_nat n - back + 1).
Proof.
  intros Hn Hb. unfold int_rounds.
  rewrite (to_int_small (Z.of_nat n)) by (unfold INT_MIN, INT_MAX in *; lia).
  rewrite to_int_small by (unfold INT_MIN, INT_MAX in *; lia). done.
Qed.

Lemma int_rounds_1 n : Z.of_nat n <= INT_MAX → int_rounds n 1 = n.
Proof. intros Hn. rewrite int_rounds_small by (done || lia). lia. Qed.

Lemma int_rounds_2 n : Z.of_nat n <= INT_MAX → int_rounds n 2 = (n - 1)%nat.
Proof. intros Hn. rewrite int_rounds_small by (done || lia). lia. Qed.

Lemma cmp_loop_refl d k : cmp_loop d d k = 0.
Proof.
  induction k as [|k IH]; [done|]. cbn [cmp_loop].
  by rewrite Z.ltb_irrefl.
Qed.

Lemma cmp_loop_antisym d1 d2 k : cmp_loop d2 d1 k = - cmp_loop d1 d2 k.
Proof.
  induction k as [|k IH]; [done|]. cbn [cmp_loop].
  destruct (Z.ltb_spec (d1 !!! k) (d2 !!! k)), (Z.ltb_spec (d2 !!! k) (d1 !!! k));
    try done; lia.
Qed.

Lemma cmp_loop_range d1 d2 k : -1 <= cmp_loop d1 d2 k <= 1.
Proof.
  induction k as [|k IH]; cbn [cmp_loop]; [lia|].
  repeat case_match; lia.
Qed.

(** At every size: the answer is -1, 0 or 1, swapping the operands negates
    it, and identical digits compare equal. *)
Lemma compareMagnitude_range a b : -1 <= compareMagnitude a b <= 1.
Proof.
  unfold compareMagnitude. repeat case_match; try lia. apply cmp_loop_range.
Qed.

Lemma compareMagnitude_antisym a b :
  compareMagnitude b a = - compareMagnitude a b.
Proof.
  unfold compareMagnitude.
  destruct (Nat.ltb_spec (length (digits a)) (length (digits b))) as [Hl|Hl1];
    destruct (Nat.ltb_spec (length (digits b)) (length (digits a))) as [Hl'|Hl2];
    try done; try lia.
  assert (length (digits a) = length (digits b)) as Hlen by lia.
  destruct (decide (digits a = [])) as [Ha|Ha], (decide (digits b = [])) as [Hb|Hb].
  - done.
  - rewrite Ha in Hlen. symmetry in Hlen. by apply nil_length_inv in Hlen.
  - rewrite Hb in Hlen. by apply nil_length_inv in Hlen.
  - rewrite Hlen. apply cmp_loop_antisym.
Qed.

Lemma compareMagnitude_same_digits a b :
  digits a = digits b → compareMagnitude a b = 0.
Proof.
  intros He. unfold compareMagnitude. rewrite He, Nat.ltb_irrefl.
  case_decide; [done|]. apply cmp_loop_refl.
Qed.

Lemma compareMagnitude_length a b :
  0 <= compareMagnitude a b → (length (digits b) <= length (digits a))%nat.
Proof.
  unfold compareMagnitude.
  destruct (Nat.ltb_spec (length (digits a)) (length (digits b))); lia.
Qed.

(** [compareMagnitude] compares the magnitudes, provided the operands
    have at most [INT_MAX] digits when they have equally many, which is
    when the loop is reached. *)
Lemma compareMagnitude_spec a b :
  canonical a → canonical b →
  (length (digits a) = length (digits b) → int_sized a) →
  (compareMagnitude a b = -1 ∧ mag (digits a) < mag (digits b))
  ∨ (compareMagnitude a b = 0 ∧ digits a = digits b)
  ∨ (compareMagnitude a b = 1 ∧ mag (digits b) < mag (digits a)).
Proof.
  intros Ha Hb Hsz. unfold compareMagnitude.
  destruct (Nat.ltb_spec (length (digits a)) (length (digits b))) as [Hl|Hl1].
  { left. split; [done|]. by apply canonical_length_lt. }
  destruct (Nat.ltb_spec (length (digits b)) (length (digits a))) as [Hl|Hl2].
  { right; right. split; [done|]. by apply canonical_length_lt. }
  assert (length (digits a) = length (digits b)) as Hlen by lia.
  case_decide as He.
  { right; left. split; [done|]. rewrite He in Hlen. rewrite He.
    symmetry. by apply nil_length_inv. }
  rewrite (int_rounds_1 _ (Hsz Hlen)).
  pose proof (cmp_loop_spec (digits a) (digits b) (length (digits a))) as H.
  assert (take (length (digits a)) (digits b) = digits b) as Htb
    by (rewrite Hlen; apply firstn_all).
  rewrite firstn_all, Htb in H.
  apply H; [apply Ha|apply Hb|lia|lia].
Qed.

(** ** Unary minus and addition *)

Lemma operator_neg_canonical x : canonical x → canonical (operator_neg x).
Proof.
  intros Hc. unfold operator_neg, isZero. case_bool_decide as Hz; [done|].
  destruct Hc as (? & ? & ?). split_and!; simpl; done.
Qed.

Lemma operator_neg_to_Z x : to_Z (operator_neg x) = - to_Z x.
Proof.
  unfold operator_neg, isZero, to_Z. case_bool_decide as Hz.
  - rewrite Hz, mag_nil. by destruct (sign x).
  - simpl. destruct (sign x); simpl; lia.
Qed.

Lemma operator_neg_digits x : digits (operator_neg x) = digits x.
Proof. unfold operator_neg. by case_match. Qed.

Lemma with_sign_spec s r :
  canonical r →
  canonical (with_sign s r)
  ∧ mag (digits (with_sign s r)) = mag (digits r)
  ∧ (digits r ≠ [] → sign (with_sign s r) = s)
  ∧ (digits r = [] → with_sign s r = Integer_default).
Proof.
  intros Hc. unfold with_sign.
  assert (digits_ok (digits (mkInteger s (digits r)))) as Hok by apply Hc.
  split_and!.
  - by apply normalize_canonical.
  - by rewrite normalize_mag.
  - intros Hne. rewrite normalize_sign; [done|].
    intros He. apply Hne. apply (canonical_mag_zero r Hc).
    pose proof (normalize_mag (mkInteger s (digits r))) as Hm.
    rewrite He in Hm. simpl in Hm. by rewrite <- Hm.
  - intros He. apply normalize_zero; [done|]. simpl. by rewrite He.
Qed.

Lemma canonical_sign_false x : canonical x → mag (digits x) = 0 → sign x = false.
Proof.
  intros Hc H0. destruct Hc as (Hok & Hl & Hs). apply Hs.
  by apply (canonical_mag_zero x).
Qed.

(** What [r.sign = s; r.normalize(); return r;] hands back for a canonical
    magnitude [r] whose owner of sign [s] is canonical when [r] is zero. *)
Lemma with_sign_result s r :
  canonical r → (mag (digits r) = 0 → s = false) →
  canonical (with_sign s r) ∧ sign (with_sign s r) = s
  ∧ mag (digits (with_sign s r)) = mag (digits r).
Proof.
  intros Hc Hs. destruct (with_sign_spec s r Hc) as (Hcan & Hm & Hne & He).
  split_and!; [done| |done].
  destruct (decide (digits r = [])) as [Hz|Hnz].
  - rewrite (He Hz). simpl. symmetry. apply Hs. by rewrite Hz.
  - by apply Hne.
Qed.

Lemma subtractMagnitude_canonical a b :
  digits_ok (digits a) → digits_ok (digits b) →
  ∃ r, subtractMagnitude a b = Ok r ∧ canonical r.
Proof.
  intros H1 H2. unfold subtractMagnitude, subtract_digits.
  destruct (sub_loop_spec (digits a) (digits b) (length (digits a)) 0 [] 0)
    as (res & borrow & -> & Hok & _); try done.
  { apply digits_ok_nil. }
  cbn [fst]. rewrite from_vector_ok by done. simpl.
  eexists. split; [done|].
  apply normalize_canonical. by apply normalize_canonical.
Qed.

(** At every size the sum is returned and is canonical. *)
Lemma operator_plus_canonical a b :
  canonical a → canonical b →
  ∃ r, operator_plus a b = Ok r ∧ canonical r.
Proof.
  intros Ha Hb. unfold operator_plus.
  destruct (eqb (sign a) (sign b)).
  - destruct (addMagnitude_spec a b) as (r0 & -> & Hc0 & _);
      [apply Ha|apply Hb|].
    simpl. eexists. split; [done|]. by apply with_sign_spec.
  - destruct (compareMagnitude a b =? 0).
    { eexists. split; [done|]. apply canonical_default. }
    destruct (0 <? compareMagnitude a b).
    + destruct (subtractMagnitude_canonical a b) as (r0 & -> & Hc0);
        [apply Ha|apply Hb|].
      simpl. eexists. split; [done|]. by apply with_sign_spec.
    + destruct (subtractMagnitude_canonical b a) as (r0 & -> & Hc0);
        [apply Hb|apply Ha|].
      simpl. eexists. split; [done|]. by apply with_sign_spec.
Qed.

Lemma operator_minus_canonical a b :
  canonical a → canonical b →
  ∃ r, operator_minus a b = Ok r ∧ canonical r.
Proof.
  intros Ha Hb. apply operator_plus_canonical; [done|].
  by apply operator_neg_canonical.
Qed.

Lemma operator_plus_spec a b :
  canonical a → canonical b →
  (length (digits a) = length (digits b) → int_sized a) →
  ∃ r, operator_plus a b = Ok r ∧ canonical r
    ∧ (sign a = sign b →
       sign r = sign a ∧ mag (digits r) = mag (digits a) + mag (digits b))
    ∧ (sign a ≠ sign b → mag (digits b) < mag (digits a) →
       sign r = sign a ∧ mag (digits r) = mag (digits a) - mag (digits b))
    ∧ (sign a ≠ sign b → mag (digits a) < mag (digits b) →
       sign r = sign b ∧ mag (digits r) = mag (digits b) - mag (digits a))
    ∧ (sign a ≠ sign b → mag (digits a) = mag (digits b) →
       r = Integer_default).
Proof.
  intros Ha Hb Hsz. unfold operator_plus.
  pose proof (mag_bounds _ (proj1 Ha)) as Hma.
  pose proof (mag_bounds _ (proj1 Hb)) as Hmb.
  destruct (eqb (sign a) (sign b)) eqn:Hs.
  - apply eqb_prop in Hs.
    destruct (addMagnitude_spec a b) as (r0 & -> & Hc0 & _ & Hm0);
      [apply Ha|apply Hb|].
    simpl.
    destruct (with_sign_result (sign a) r0 Hc0) as (Hc & Hsg & Hm).
    { intros H0. apply (canonical_sign_false a Ha). lia. }
    eexists. split; [done|]. split; [done|].
    split_and!; try done. intros _. split; [done|]. lia.
  - apply eqb_false_iff in Hs.
    destruct (compareMagnitude_spec a b Ha Hb Hsz)
      as [[Hcmp Hlt]|[[Hcmp He]|[Hcmp Hlt]]].
    + assert (0 <= compareMagnitude b a) as Hge
        by (rewrite compareMagnitude_antisym, Hcmp; lia).
      rewrite Hcmp. simpl.
      destruct (subtractMagnitude_spec b a) as (r0 & -> & Hc0 & _ & Hm0);
        [apply Hb|apply Ha|by apply compareMagnitude_length|lia|].
      simpl.
      destruct (with_sign_result (sign b) r0 Hc0) as (Hc & Hsg & Hm); [lia|].
      eexists. split; [done|]. split; [done|].
      split_and!; try done; try lia. intros _ _. split; [done|]. lia.
    + rewrite Hcmp. simpl. eexists. split; [done|].
      split; [apply canonical_default|]. rewrite He.
      split_and!; try done; lia.
    + assert (0 <= compareMagnitude a b) as Hge by (rewrite Hcmp; lia).
      rewrite Hcmp. simpl.
      destruct (subtractMagnitude_spec a b) as (r0 & -> & Hc0 & _ & Hm0);
        [apply Ha|apply Hb|by apply compareMagnitude_length|lia|].
      simpl.
      destruct (with_sign_result (sign a) r0 Hc0) as (Hc & Hsg & Hm); [lia|].
      eexists. split; [done|]. split; [done|].
      split_and!; try done; try lia. intros _ _. split; [done|]. lia.
Qed.

Lemma to_Z_default : to_Z Integer_default = 0.
Proof. reflexivity. Qed.

Lemma operator_plus_to_Z a b :
  canonical a → canonical b →
  (length (digits a) = length (digits b) → int_sized a) →
  ∃ r, operator_plus a b = Ok r ∧ canonical r ∧ to_Z r = to_Z a + to_Z b.
Proof.
  intros Ha Hb Hsz.
  destruct (operator_plus_spec a b Ha Hb Hsz)
    as (r & Hr & Hc & Heq & Hgt & Hlt & Hz).
  exists r. split; [done|]. split; [done|].
  destruct (decide (sign a = sign b)) as [Hs|Hs].
  - destruct (Heq Hs) as [Hsr Hm]. unfold to_Z. rewrite Hsr, Hm, <- Hs.
    destruct (sign a); lia.
  - destruct (Z.lt_trichotomy (mag (digits a)) (mag (digits b))) as [H|[H|H]].
    + destruct (Hlt Hs H) as [Hsr Hm]. unfold to_Z. rewrite Hsr, Hm.
      destruct (sign a), (sign b); try done; lia.
    + rewrite (Hz Hs H), to_Z_default. unfold to_Z.
      destruct (sign a), (sign b); try done; lia.
    + destruct (Hgt Hs H) as [Hsr Hm]. unfold to_Z. rewrite Hsr, Hm.
      destruct (sign a), (sign b); try done; lia.
Qed.

Lemma operator_minus_to_Z a b :
  canonical a → canonical b →
  (length (digits a) = length (digits b) → int_sized a) →
  ∃ r, operator_minus a b = Ok r ∧ canonical r ∧ to_Z r = to_Z a - to_Z b.
Proof.
  intros Ha Hb Hsz. unfold operator_minus.
  destruct (operator_plus_to_Z a (operator_neg b) Ha
              (operator_neg_canonical b Hb)) as (r & Hr & Hc & Hv).
  { by rewrite operator_neg_digits. }
  exists r. rewrite operator_neg_to_Z in Hv. split_and!; [done..|lia].
Qed.

Lemma Integer_abs_canonical x : canonical x → canonical (Integer_abs x).
Proof.
  intros Hc. unfold Integer_abs. case_match; [|done].
  by apply operator_neg_canonical.
Qed.

(** ** Multiplication *)

Lemma pow_BASE_pos n : 0 < BASE ^ Z.of_nat n.
Proof. apply Z.pow_pos_nonneg; [done|lia]. Qed.

Lemma pow_BASE_add n m :
  BASE ^ Z.of_nat (n + m) = BASE ^ Z.of_nat n * BASE ^ Z.of_nat m.
Proof. rewrite Nat2Z.inj_add, Z.pow_add_r by lia. done. Qed.

Lemma pow_BASE_S n : BASE ^ Z.of_nat (S n) = BASE * BASE ^ Z.of_nat n.
Proof. rewrite Nat2Z.inj_succ, Z.pow_succ_r by lia. done. Qed.

Lemma mul_inner_spec di d2 i k : ∀ j tmp carry,
  0 <= di < BASE → digits_ok d2 → digits_ok tmp →
  (j + k <= length d2)%nat → (i + j + k <= length tmp)%nat →
  0 <= carry < BASE →
  ∃ tmp' carry',
    mul_inner di d2 i k j tmp carry = (tmp', carry')
    ∧ digits_ok tmp' ∧ length tmp' = length tmp ∧ 0 <= carry' < BASE
    ∧ mag tmp' + BASE ^ Z.of_nat (i + (j + k)) * carry'
      = mag tmp + BASE ^ Z.of_nat (i + j) * carry
        + BASE ^ Z.of_nat i * di * (mag (take (j + k) d2) - mag (take j d2)).
Proof.
  induction k as [|k IH]; intros j tmp carry Hdi H2 Htmp Hjk Hlen Hc.
  - exists tmp, carry. rewrite Nat.add_0_r. split_and!; try done; lia.
  - cbn [mul_inner].
    pose proof (digits_ok_lookup tmp (i + j) Htmp ltac:(lia)) as Ht.
    pose proof (digits_ok_lookup d2 j H2 ltac:(lia)) as Hd.
    set (v := tmp !!! (i + j)%nat + di * d2 !!! j + carry).
    assert (0 <= v < BASE * BASE) as Hv by (unfold v, BASE in *; nia).
    rewrite Z.rem_mod_nonneg, Z.quot_div_nonneg by (unfold BASE; lia).
    assert (0 <= v mod BASE < BASE) as Hm by (apply Z.mod_pos_bound; done).
    assert (0 <= v / BASE < BASE) as Hq.
    { split; [apply Z.div_pos; [lia|done]|apply Z.div_lt_upper_bound; [done|lia]]. }
    destruct (IH (S j) (<[(i + j)%nat := v mod BASE]> tmp) (v / BASE))
      as (tmp' & carry' & Heq & Hok' & Hlen' & Hc' & Hinv); try done.
    + by apply digits_ok_insert.
    + lia.
    + rewrite length_insert. lia.
    + exists tmp', carry'. rewrite length_insert in Hlen'.
      do 4 (split; [done|]).
      replace (j + S k)%nat with (S j + k)%nat by lia. rewrite Hinv.
      rewrite mag_insert by lia.
      rewrite (mag_take_S d2 j) by lia.
      replace (i + S j)%nat with (S (i + j)) by lia.
      rewrite pow_BASE_S, (pow_BASE_add i j).
      pose proof (Z.div_mod v BASE ltac:(done)) as Hdm.
      assert (v mod BASE - tmp !!! (i + j)%nat + BASE * (v / BASE)
              = di * d2 !!! j + carry) as Hstep by (unfold v in *; lia).
      set (P := BASE ^ Z.of_nat i) in *. set (Q := BASE ^ Z.of_nat j) in *.
      transitivity (mag tmp + P * Q * (v mod BASE - tmp !!! (i + j)%nat + BASE * (v / BASE))
                    + P * di * (mag (take (S j + k) d2) - (mag (take j d2) + Q * d2 !!! j))).
      { ring. }
      rewrite Hstep. ring.
Qed.

(** The carry left after a row is absorbed without leaving the vector,
    because the number built so far fits in it. *)
Lemma carry_loop_spec room : ∀ pos tmp carry,
  digits_ok tmp → room = (length tmp - pos)%nat → 0 <= carry < BASE →
  mag tmp + BASE ^ Z.of_nat pos * carry < BASE ^ Z.of_nat (length tmp) →
  ∃ tmp',
    carry_loop room pos tmp carry = Ok tmp'
    ∧ digits_ok tmp' ∧ length tmp' = length tmp
    ∧ mag tmp' = mag tmp + BASE ^ Z.of_nat pos * carry.
Proof.
  induction room as [|room IH]; intros pos tmp carry Htmp Hroom Hc Hfit.
  - cbn [carry_loop]. destruct (Z.eqb_spec carry 0) as [->|Hne].
    { exists tmp. split_and!; try done. lia. }
    exfalso. pose proof (mag_bounds tmp Htmp) as Hb.
    assert (BASE ^ Z.of_nat (length tmp) <= BASE ^ Z.of_nat pos)
      by (apply Z.pow_le_mono_r; [done|lia]).
    assert (1 <= carry) by lia. nia.
  - cbn [carry_loop]. destruct (Z.eqb_spec carry 0) as [->|Hne].
    { exists tmp. split_and!; try done. lia. }
    pose proof (digits_ok_lookup tmp pos Htmp ltac:(lia)) as Ht.
    set (v := tmp !!! pos + carry).
    assert (0 <= v < BASE * BASE) as Hv by (unfold v, BASE in *; nia).
    rewrite Z.rem_mod_nonneg, Z.quot_div_nonneg by (unfold BASE; lia).
    assert (0 <= v mod BASE < BASE) as Hm by (apply Z.mod_pos_bound; done).
    assert (0 <= v / BASE < BASE) as Hq.
    { split; [apply Z.div_pos; [lia|done]|apply Z.div_lt_upper_bound; [done|lia]]. }
    pose proof (Z.div_mod v BASE ltac:(done)) as Hdm.
    assert (mag (<[pos:=v mod BASE]> tmp) + BASE ^ Z.of_nat (S pos) * (v / BASE)
            = mag tmp + BASE ^ Z.of_nat pos * carry) as Hkeep.
    { rewrite mag_insert, pow_BASE_S by lia.
      transitivity (mag tmp + BASE ^ Z.of_nat pos
                    * (v mod BASE + BASE * (v / BASE) - tmp !!! pos)); [ring|].
      replace (v mod BASE + BASE * (v / BASE)) with v by lia. unfold v. ring. }
    destruct (IH (S pos) (<[pos := v mod BASE]> tmp) (v / BASE))
      as (tmp' & Heq & Hok' & Hlen' & Hmag); try done.
    + by apply digits_ok_insert.
    + rewrite length_insert. lia.
    + rewrite length_insert, Hkeep. done.
    + exists tmp'. rewrite length_insert in Hlen'.
      split_and!; try done. by rewrite Hmag, Hkeep.
Qed.

Lemma mul_rows_spec d1 d2 k : ∀ i tmp,
  digits_ok d1 → digits_ok d2 → digits_ok tmp →
  length tmp = (length d1 + length d2)%nat → (i + k <= length d1)%nat →
  mag tmp = mag (take i d1) * mag d2 →
  ∃ tmp',
    mul_rows d1 d2 k i tmp = Ok tmp'
    ∧ digits_ok tmp' ∧ length tmp' = length tmp
    ∧ mag tmp' = mag (take (i + k) d1) * mag d2.
Proof.
  induction k as [|k IH]; intros i tmp H1 H2 Htmp Hlen Hik Hinv.
  - exists tmp. rewrite Nat.add_0_r. done.
  - cbn [mul_rows].
    pose proof (digits_ok_lookup d1 i H1 ltac:(lia)) as Hdi.
    destruct (mul_inner_spec (d1 !!! i) d2 i (length d2) 0 tmp 0)
      as (tmp1 & carry & -> & Hok1 & Hlen1 & Hc & Hrow); try done; try lia.
    rewrite Nat.add_0_l, Nat.add_0_r, firstn_all, take_0, mag_nil in Hrow.
    assert (mag tmp1 + BASE ^ Z.of_nat (i + length d2) * carry
            = mag (take (S i) d1) * mag d2) as Hval.
    { rewrite Hrow, Hinv, mag_take_S by lia. ring. }
    pose proof (mag_bounds _ (Forall_take _ (S i) _ H1)) as Hb1.
    rewrite length_take_le in Hb1 by lia.
    pose proof (mag_bounds _ H2) as Hb2.
    destruct (carry_loop_spec (length tmp1 - (i + length d2)) (i + length d2) tmp1 carry)
      as (tmp2 & -> & Hok2 & Hlen2 & Hmag2); try done.
    { rewrite Hval, Hlen1, Hlen.
      assert (BASE ^ Z.of_nat (S i) <= BASE ^ Z.of_nat (length d1))
        by (apply Z.pow_le_mono_r; [done|lia]).
      rewrite pow_BASE_add. nia. }
    simpl.
    destruct (IH (S i) tmp2) as (tmp' & Heq & Hok' & Hlen' & Hmag'); try done.
    + lia.
    + lia.
    + lia.
    + exists tmp'. replace (i + S k)%nat with (S i + k)%nat by lia.
      split_and!; try done. lia.
Qed.

Lemma trim_loop_le tmp m : (trim_loop tmp m <= m)%nat.
Proof.
  induction m as [|m IH]; [done|]. cbn [trim_loop]. case_match; lia.
Qed.

Lemma trim_loop_pos tmp m : (0 < m)%nat → (0 < trim_loop tmp m)%nat.
Proof.
  induction m as [|m IH]; [lia|]. intros _. cbn [trim_loop].
  destruct (Nat.ltb_spec 1 (S m)); simpl; [|lia].
  case_match; [apply IH|]; lia.
Qed.

Lemma trim_loop_mag tmp m :
  (m <= length tmp)%nat → mag (take (trim_loop tmp m) tmp) = mag (take m tmp).
Proof.
  induction m as [|m IH]; [done|]. intros Hm. cbn [trim_loop].
  case_match eqn:Hc; [|done].
  apply andb_true_iff in Hc as [_ H0%Z.eqb_eq].
  rewrite IH, mag_take_S, H0 by lia. lia.
Qed.

Lemma fmap_to_DigitType ds : digits_ok ds → to_DigitType <$> ds = ds.
Proof.
  induction 1 as [|d ds Hd _ IH]; [done|].
  rewrite fmap_cons, IH, to_DigitType_small by done. done.
Qed.

Lemma isZero_true x : isZero x = true ↔ digits x = [].
Proof. unfold isZero. apply bool_decide_eq_true. Qed.

Lemma isZero_false x : isZero x = false ↔ digits x ≠ [].
Proof. unfold isZero. apply bool_decide_eq_false. Qed.

Lemma operator_mul_spec a b :
  canonical a → canonical b →
  ∃ r, operator_mul a b = Ok r ∧ canonical r
    ∧ mag (digits r) = mag (digits a) * mag (digits b)
    ∧ (if isZero a || isZero b then r = Integer_default
       else sign r = xorb (sign a) (sign b)).
Proof.
  intros Ha Hb. unfold operator_mul.
  destruct (isZero a || isZero b) eqn:Hz.
  { exists Integer_default. split_and!; [done|apply canonical_default| |done].
    apply orb_true_iff in Hz as [->%isZero_true| ->%isZero_true];
      simpl; rewrite !mag_nil; lia. }
  apply orb_false_iff in Hz as [Hza%isZero_false Hzb%isZero_false].
  destruct (mul_rows_spec (digits a) (digits b) (length (digits a)) 0
              (replicate (length (digits a) + length (digits b)) 0))
    as (tmp & -> & Hok & Hlen & Hmag); try done; try apply Ha; try apply Hb.
  { apply Forall_replicate. unfold BASE. lia. }
  { by rewrite length_replicate. }
  { rewrite mag_replicate_0, take_0, mag_nil. lia. }
  simpl in *. rewrite firstn_all in Hmag. rewrite length_replicate in Hlen.
  assert (0 < length tmp)%nat as Hpos.
  { destruct (digits a); [done|]. simpl in Hlen. lia. }
  pose proof (trim_loop_pos tmp (length tmp) Hpos) as Hm.
  apply Nat.ltb_lt in Hm as Hm'. rewrite Hm'.
  rewrite fmap_to_DigitType by by apply Forall_take.
  rewrite from_vector_ok by by apply Forall_take.
  eexists. split; [done|].
  set (fd := take _ tmp).
  assert (mag fd = mag (digits a) * mag (digits b)) as Hfd.
  { unfold fd. rewrite trim_loop_mag, firstn_all by lia. done. }
  assert (digits_ok (digits (mkInteger (negb (eqb (sign a) (sign b))) fd))) as Hokfd
    by by apply Forall_take.
  pose proof (normalize_canonical _ Hokfd) as Hcan.
  split; [done|]. rewrite normalize_mag. simpl. split; [done|].
  rewrite normalize_sign.
  - simpl. by destruct (sign a), (sign b).
  - intros He. pose proof (normalize_mag (mkInteger (negb (eqb (sign a) (sign b))) fd)) as Hn.
    rewrite He, mag_nil in Hn. simpl in Hn.
    pose proof (canonical_mag_pos a Ha Hza). pose proof (canonical_mag_pos b Hb Hzb).
    nia.
Qed.

Lemma operator_mul_to_Z a b :
  canonical a → canonical b →
  ∃ r, operator_mul a b = Ok r ∧ canonical r ∧ to_Z r = to_Z a * to_Z b.
Proof.
  intros Ha Hb.
  destruct (operator_mul_spec a b Ha Hb) as (r & Hr & Hc & Hm & Hs).
  exists r. split; [done|]. split; [done|].
  destruct (isZero a || isZero b) eqn:Hz.
  - rewrite Hs, to_Z_default.
    apply orb_true_iff in Hz as [Hz%isZero_true|Hz%isZero_true];
      unfold to_Z; rewrite Hz, mag_nil; destruct (sign a), (sign b); lia.
  - unfold to_Z. rewrite Hs, Hm. destruct (sign a), (sign b); simpl; lia.
Qed.

(** ** Integer(long long) *)

Lemma ll_loop_spec fuel : ∀ v ds,
  0 <= v < BASE ^ Z.of_nat fuel → digits_ok ds →
  (0 < v ∨ list.last ds ≠ Some 0) →
  (ll_loop fuel v ds).1 = 0
  ∧ digits_ok (ll_loop fuel v ds).2
  ∧ list.last (ll_loop fuel v ds).2 ≠ Some 0
  ∧ mag (ll_loop fuel v ds).2 = mag ds + BASE ^ Z.of_nat (length ds) * v.
Proof.
  induction fuel as [|fuel IH]; intros v ds Hv Hok Hlast.
  - simpl in *. assert (v = 0) as -> by lia.
    split_and!; try done; [|lia]. destruct Hlast; [lia|done].
  - cbn [ll_loop]. destruct (Z.ltb_spec 0 v) as [Hpos|Hz].
    + assert (0 <= v mod BASE < BASE) as Hm by (apply Z.mod_pos_bound; done).
      rewrite to_DigitType_small by done.
      rewrite pow_BASE_S in Hv.
      pose proof (Z.div_mod v BASE ltac:(done)) as Hdm.
      assert (0 <= v / BASE < BASE ^ Z.of_nat fuel) as Hq.
      { split; [apply Z.div_pos; [lia|done]|apply Z.div_lt_upper_bound; [done|lia]]. }
      destruct (IH (v / BASE) (ds ++ [v mod BASE])) as (H0 & Hok' & Hl' & Hmag);
        try done.
      * by apply digits_ok_snoc.
      * rewrite last_snoc.
        destruct (decide (0 < v / BASE)) as [|Hq0]; [by left|right].
        intros [= Hm0]. assert (v / BASE = 0) by lia. lia.
      * split_and!; try done. rewrite Hmag, mag_snoc, length_app. simpl length.
        replace (length ds + 1)%nat with (S (length ds)) by lia.
        rewrite pow_BASE_S.
        transitivity (mag ds + BASE ^ Z.of_nat (length ds)
                      * (BASE * (v / BASE) + v mod BASE)); [ring|].
        by rewrite <- Hdm.
    + simpl. assert (v = 0) as -> by lia.
      split_and!; try done; [|lia]. destruct Hlast; [lia|done].
Qed.

Lemma Integer_from_ll_spec i :
  LLONG_MIN <= i <= LLONG_MAX →
  canonical (Integer_from_ll i) ∧ to_Z (Integer_from_ll i) = i.
Proof.
  intros Hi. unfold Integer_from_ll.
  destruct (Z.eqb_spec i 0) as [->|Hne].
  { split; [apply canonical_default|done]. }
  set (v := if i =? LLONG_MIN then _ else _).
  assert (v = Z.abs i) as ->.
  { unfold v. destruct (Z.eqb_spec i LLONG_MIN) as [->|_]; [|done].
    vm_compute. reflexivity. }
  destruct (ll_loop_spec ll_fuel (Z.abs i) []) as (_ & Hok & Hl & Hmag).
  { split; [lia|]. unfold LLONG_MIN, LLONG_MAX in Hi.
    assert (2 ^ 64 < BASE ^ Z.of_nat ll_fuel) by (vm_compute; reflexivity).
    lia. }
  { apply digits_ok_nil. }
  { left. lia. }
  set (r := ll_loop ll_fuel (Z.abs i) []) in *. clearbody r.
  rewrite mag_nil in Hmag. cbn [length] in Hmag. rewrite Z.pow_0_r in Hmag.
  split.
  - split_and!; cbn [digits sign]; [done..|].
    intros He. rewrite He, mag_nil in Hmag. lia.
  - unfold to_Z. cbn [digits sign]. rewrite Hmag. destruct (Z.ltb_spec i 0); lia.
Qed.

Lemma ll_loop_length fuel : ∀ v ds,
  (length (ll_loop fuel v ds).2 <= length ds + fuel)%nat.
Proof.
  induction fuel as [|fuel IH]; intros v ds; cbn [ll_loop].
  - cbn [snd]. lia.
  - destruct (0 <? v); [|cbn [snd]; lia].
    etransitivity; [apply IH|]. rewrite length_app. cbn [length]. lia.
Qed.

Lemma Integer_from_ll_int_sized i : int_sized (Integer_from_ll i).
Proof.
  unfold int_sized, Integer_from_ll. destruct (i =? 0).
  - cbn [digits length]. unfold INT_MAX. lia.
  - cbn [digits].
    pose proof (ll_loop_length ll_fuel
                  (if i =? LLONG_MIN then (LLONG_MAX + 1) mod ULLONG_WRAP
                   else Z.abs i) []) as Hl.
    cbn [length] in Hl. unfold ll_fuel in Hl at 2. unfold INT_MAX. lia.
Qed.

(** ** Equality and order *)

Lemma canonical_digits_inj a b :
  canonical a → canonical b → mag (digits a) = mag (digits b) → digits a = digits b.
Proof.
  intros Ha Hb Hm.
  destruct (Nat.lt_trichotomy (length (digits a)) (length (digits b)))
    as [Hl|[Hl|Hl]].
  - pose proof (canonical_length_lt a b Ha Hb Hl). lia.
  - pose proof (cmp_loop_spec (digits a) (digits b) (length (digits a))) as H.
    assert (take (length (digits a)) (digits b) = digits b) as Htb
      by (rewrite Hl; apply firstn_all).
    rewrite firstn_all, Htb in H.
    destruct H as [[_ ?]|[[_ ?]|[_ ?]]];
      [apply Ha|apply Hb|lia|lia|lia|done|lia].
  - pose proof (canonical_length_lt b a Hb Ha Hl). lia.
Qed.

Lemma canonical_to_Z_inj a b : canonical a → canonical b → to_Z a = to_Z b → a = b.
Proof.
  intros Ha Hb Hv.
  pose proof (mag_bounds _ (proj1 Ha)) as Hma.
  pose proof (mag_bounds _ (proj1 Hb)) as Hmb.
  assert (mag (digits a) = mag (digits b)) as Hm
    by (unfold to_Z in Hv; destruct (sign a), (sign b); lia).
  pose proof (canonical_digits_inj a b Ha Hb Hm) as Hd.
  assert (sign a = sign b) as Hs.
  { destruct (decide (digits a = [])) as [He|Hne].
    - destruct Ha as (_ & _ & Hsa), Hb as (_ & _ & Hsb).
      rewrite Hsa, Hsb by congruence. done.
    - pose proof (canonical_mag_pos a Ha Hne).
      unfold to_Z in Hv. destruct (sign a), (sign b); try done; lia. }
  destruct a, b; simpl in *; by subst.
Qed.

Lemma operator_eq_spec a b :
  canonical a → canonical b → operator_eq a b = true ↔ to_Z a = to_Z b.
Proof.
  intros Ha Hb. unfold operator_eq.
  destruct (isZero a && isZero b) eqn:Hz.
  { apply andb_true_iff in Hz as [Hza%isZero_true Hzb%isZero_true].
    split; [intros _|done]. unfold to_Z. rewrite Hza, Hzb, mag_nil.
    by destruct (sign a), (sign b). }
  split.
  - destruct (eqb (sign a) (sign b)) eqn:Hs; simpl; [|done].
    apply eqb_prop in Hs. intros Hd%bool_decide_eq_true.
    unfold to_Z. by rewrite Hs, Hd.
  - intros Hv. pose proof (canonical_to_Z_inj a b Ha Hb Hv) as ->.
    rewrite eqb_reflx. simpl. by apply bool_decide_eq_true.
Qed.

Lemma operator_lt_spec a b :
  canonical a → canonical b →
  (length (digits a) = length (digits b) → int_sized a) →
  operator_lt a b = true ↔ to_Z a < to_Z b.
Proof.
  intros Ha Hb Hsz. unfold operator_lt.
  pose proof (mag_bounds _ (proj1 Ha)) as Hma.
  pose proof (mag_bounds _ (proj1 Hb)) as Hmb.
  assert (sign a = true → 0 < mag (digits a)) as Hna.
  { intros Hs. apply canonical_mag_pos; [done|]. intros He.
    destruct Ha as (_ & _ & Hsa). rewrite Hsa in Hs; done. }
  assert (sign b = true → 0 < mag (digits b)) as Hnb.
  { intros Hs. apply canonical_mag_pos; [done|]. intros He.
    destruct Hb as (_ & _ & Hsb). rewrite Hsb in Hs; done. }
  unfold to_Z.
  destruct (sign a) eqn:Hsa, (sign b) eqn:Hsb; simpl.
  - specialize (Hna eq_refl). specialize (Hnb eq_refl).
    rewrite (proj2 (isZero_false a)); [simpl|intros He; rewrite He, mag_nil in Hna; lia].
    destruct (compareMagnitude_spec a b Ha Hb Hsz) as [[-> ?]|[[-> Hd]|[-> ?]]];
      simpl; try rewrite Hd; split; (done || lia).
  - specialize (Hna eq_refl). split; [lia|done].
  - specialize (Hnb eq_refl). split; [done|lia].
  - destruct (isZero a && isZero b) eqn:Hz.
    { apply andb_true_iff in Hz as [Hza%isZero_true Hzb%isZero_true].
      rewrite Hza, Hzb. split; [done|lia]. }
    destruct (compareMagnitude_spec a b Ha Hb Hsz) as [[-> ?]|[[-> Hd]|[-> ?]]];
      simpl; try rewrite Hd; split; (done || lia).
Qed.

(** ** The array constructor *)

Lemma strip_loop_spec d m m' :
  strip_loop d m = Ok m' →
  (m' <= m)%nat ∧ ((0 < m)%nat → (0 < m')%nat)
  ∧ (∀ i, (m' <= i < m)%nat → d !! i = Some 0).
Proof.
  revert m'. induction m as [|m IH]; intros m'; cbn [strip_loop].
  - intros [= <-]. split_and!; [done|lia|intros; lia].
  - destruct (Nat.ltb_spec 1 (S m)) as [Hm|Hm].
    + unfold arr_get. destruct (d !! m) as [c|] eqn:Hc; [|done]. simpl.
      destruct (Z.eqb_spec c 0) as [->|Hne].
      * intros (Hle & Hpos & Hz)%IH. split_and!; [lia|intros _; apply Hpos; lia|].
        intros i Hi. destruct (decide (i = m)) as [->|]; [done|]. apply Hz. lia.
      * intros [= <-]. split_and!; [done|lia|intros; lia].
    + intros [= <-]. split_and!; [done|lia|intros; lia].
Qed.

Lemma strip_loop_total d m :
  (m <= length d)%nat → ∃ m', strip_loop d m = Ok m'.
Proof.
  induction m as [|m IH]; intros Hm; cbn [strip_loop]; [by eexists|].
  destruct (Nat.ltb_spec 1 (S m)); [|by eexists].
  unfold arr_get. destruct (lookup_lt_is_Some_2 d m ltac:(lia)) as [c ->]. simpl.
  destruct (Z.eqb_spec c 0); [apply IH; lia|by eexists].
Qed.

Lemma strip_loop_no_error d m :
  (∀ e, strip_loop d m ≠ Throw e) ∧ (∀ msg st, strip_loop d m ≠ Exit msg st).
Proof.
  induction m as [|m IH]; cbn [strip_loop]; [done|].
  destruct (Nat.ltb_spec 1 (S m)); [|done].
  unfold arr_get. destruct (d !! m) as [c|]; [|done]. simpl.
  destruct (Z.eqb_spec c 0); [apply IH|done].
Qed.

Lemma copy_loop_cases cs d k : ∀ i ds,
  match copy_loop cs d k i ds with
  | Ok ds' =>
      length (take k (drop i d)) = k
      ∧ ds' = ds ++ (to_DigitType <$> take k (drop i d))
      ∧ Forall (fun c => ¬ digit_rejected cs c) (take k (drop i d))
  | Throw _ =>
      ∃ j c, (i <= j < i + k)%nat ∧ d !! j = Some c ∧ digit_rejected cs c
  | Exit _ _ => False
  | Undefined => (length d < i + k)%nat
  end.
Proof.
  induction k as [|k IH]; intros i ds; cbn [copy_loop].
  - rewrite take_0. simpl. rewrite app_nil_r. split_and!; [done..|constructor].
  - unfold arr_get. destruct (d !! i) as [c|] eqn:Hc; simpl.
    2:{ apply lookup_ge_None in Hc. lia. }
    destruct (_ || _) eqn:Hrej.
    { exists i, c. split_and!; [lia..|done|].
      apply orb_true_iff in Hrej as [?%Z.leb_le|?]; [by left|by right]. }
    apply orb_false_iff in Hrej as [Hlt%Z.leb_gt Hneg].
    specialize (IH (S i) (ds ++ [to_DigitType c])).
    rewrite (drop_S d c i Hc). cbn [take].
    destruct (copy_loop _ _ _ _ _) as [ds'|e|?|].
    + destruct IH as (Hlen & -> & Hall). split_and!.
      * simpl. by rewrite Hlen.
      * rewrite fmap_cons, <- app_assoc. done.
      * constructor; [|done]. intros [?|?]; [lia|congruence].
    + destruct IH as (j & c' & Hj & Hc' & Hr). exists j, c'. split_and!; [lia..|done|done].
    + done.
    + lia.
Qed.

Lemma copy_loop_throw_what cs d k : ∀ i ds e,
  copy_loop cs d k i ds = Throw e →
  e = invalid_argument "Invalid digit in char* constructor".
Proof.
  induction k as [|k IH]; intros i ds e; cbn [copy_loop]; [done|].
  unfold arr_get. destruct (d !! i); simpl; [|done].
  destruct (_ || _); [by intros [= <-]|apply IH].
Qed.

Lemma digit_rejected_value cs c :
  byte_ok c → digit_rejected cs c ↔ ¬ (0 <= char_value cs c < BASE).
Proof.
  unfold byte_ok, digit_rejected, char_value, char_negative, BASE.
  intros Hc. destruct cs; simpl.
  - destruct (Z.leb_spec 128 c); split; try lia; intros _; try (by right); left; lia.
  - split; [intros [?|?]; [lia|done]|intros ?; left; lia].
Qed.

(** Bytes that pass the test are base-100 digits. *)
Lemma accepted_digits_ok cs l :
  Forall byte_ok l → Forall (fun c => ¬ digit_rejected cs c) l →
  digits_ok (to_DigitType <$> l).
Proof.
  intros Hb. induction Hb as [|c l Hc _ IH]; intros Ha; [constructor|].
  inversion_clear Ha as [|?? Hnc Hal]. rewrite fmap_cons.
  assert (0 <= c < BASE) as Hr.
  { unfold byte_ok in Hc. destruct (decide (BASE <= c)) as [Hge|]; [|lia].
    exfalso. apply Hnc. by left. }
  rewrite to_DigitType_small by done. constructor; [done|]. by apply IH.
Qed.

Lemma from_array_no_input cs s n d :
  n <= 0 ∨ d = None → Integer_from_array cs s n d = Ok Integer_default.
Proof.
  unfold Integer_from_array. intros [Hn| ->].
  - apply Z.leb_le in Hn. rewrite Hn. by destruct d.
  - by destruct (n <=? 0).
Qed.

Lemma from_array_canonical cs s n d r :
  (∀ l, d = Some l → Forall byte_ok l) →
  Integer_from_array cs s n d = Ok r → canonical r.
Proof.
  intros Hb. unfold Integer_from_array.
  destruct (n <=? 0); [intros [= <-]; apply canonical_default|].
  destruct d as [d|]; [|intros [= <-]; apply canonical_default].
  specialize (Hb d eq_refl).
  destruct (strip_loop d (Z.to_nat n)) as [m| | |]; simpl; try done.
  destruct (if (m =? 1)%nat then _ else _) as [[|]| | |]; simpl; try done.
  { intros [= <-]. apply canonical_default. }
  pose proof (copy_loop_cases cs d m 0 []) as Hcp.
  destruct (copy_loop cs d m 0 []) as [ds| | |]; simpl; try done.
  destruct Hcp as (_ & -> & Hall). intros [= <-].
  apply normalize_canonical. simpl. rewrite drop_0 in *.
  apply (accepted_digits_ok cs); [by apply Forall_take|done].
Qed.

Lemma from_array_zero_test_no_throw d m x :
  (if (m =? 1)%nat then arr_get d 0 ≫= (fun c : Z => mret (c =? 0))
   else mret false) ≠ Throw x.
Proof.
  destruct (m =? 1)%nat; [|done]. unfold arr_get. by destruct (d !! 0%nat).
Qed.

(** A throw comes from a byte that survives the stripping of trailing
    zeros and is not a base-100 digit. *)
Lemma from_array_throw_only cs s n d e :
  Forall byte_ok d →
  Integer_from_array cs s n (Some d) = Throw e →
  ∃ m i c, strip_loop d (Z.to_nat n) = Ok m ∧ (i < m)%nat ∧ Z.of_nat i < n
           ∧ d !! i = Some c ∧ ¬ (0 <= char_value cs c < BASE).
Proof.
  intros Hb. unfold Integer_from_array.
  destruct (Z.leb_spec n 0) as [|Hn]; [done|].
  pose proof (strip_loop_no_error d (Z.to_nat n)) as [Hnt _].
  destruct (strip_loop d (Z.to_nat n)) as [m|e'| |] eqn:Hst; simpl; try done.
  2:{ by specialize (Hnt e'). }
  apply strip_loop_spec in Hst as (Hle & _ & _).
  pose proof (from_array_zero_test_no_throw d m) as Hz.
  destruct (if (m =? 1)%nat then _ else _) as [[|]|e'| |]; simpl; try done.
  2:{ by specialize (Hz e'). }
  pose proof (copy_loop_cases cs d m 0 []) as Hcp.
  destruct (copy_loop cs d m 0 []) as [ds|e'| |]; simpl; try done.
  destruct Hcp as (j & c & Hj & Hc & Hr). intros _.
  exists m, j, c. split_and!; [done|lia|lia|done|].
  apply digit_rejected_value; [|done].
  by apply (proj1 (Forall_lookup _ _) Hb j c).
Qed.

Lemma from_array_throws cs s n d i c :
  Forall byte_ok d → n <= Z.of_nat (length d) →
  Z.of_nat i < n → d !! i = Some c → ¬ (0 <= char_value cs c < BASE) →
  Integer_from_array cs s n (Some d)
  = Throw (invalid_argument "Invalid digit in char* constructor").
Proof.
  intros Hb Hlen Hi Hc Hbad. unfold Integer_from_array.
  assert (byte_ok c) as Hbc by by apply (proj1 (Forall_lookup _ _) Hb i c).
  apply digit_rejected_value in Hbad as Hrej; [|done].
  assert (c ≠ 0) as Hc0.
  { intros ->. destruct Hrej as [?|Hn]; [unfold BASE in *; lia|].
    unfold char_negative in Hn. by rewrite andb_false_r in Hn. }
  destruct (Z.leb_spec n 0) as [|Hn]; [lia|].
  destruct (strip_loop_total d (Z.to_nat n) ltac:(lia)) as [m Hst].
  rewrite Hst. simpl.
  apply strip_loop_spec in Hst as (Hle & _ & Hz).
  assert (i < m)%nat as Him.
  { destruct (decide (i < m)%nat); [done|].
    specialize (Hz i ltac:(lia)). congruence. }
  assert ((if (m =? 1)%nat then arr_get d 0 ≫= (fun c : Z => mret (c =? 0))
           else mret false) = Ok false) as ->.
  { destruct (Nat.eqb_spec m 1) as [->|]; [|done].
    assert (i = 0)%nat as -> by lia. unfold arr_get. rewrite Hc. simpl.
    by destruct (Z.eqb_spec c 0). }
  simpl.
  pose proof (copy_loop_cases cs d m 0 []) as Hcp.
  destruct (copy_loop cs d m 0 []) as [ds|e'| |] eqn:Hcl; simpl.
  - destruct Hcp as (_ & _ & Hall). rewrite drop_0 in Hall. exfalso.
    apply (proj1 (Forall_lookup _ _) Hall i c); [|done].
    by rewrite lookup_take_lt.
  - by rewrite (copy_loop_throw_what _ _ _ _ _ _ Hcl).
  - done.
  - lia.
Qed.

(** ** Decimal text *)

Lemma str_app_cons c (s1 s2 : string) :
  String c s1 +:+ s2 = String c (s1 +:+ s2).
Proof. reflexivity. Qed.

Lemma str_app_assoc (s1 s2 s3 : string) :
  (s1 +:+ s2) +:+ s3 = s1 +:+ (s2 +:+ s3).
Proof.
  induction s1 as [|c s1 IH]; [done|]. rewrite !str_app_cons. by f_equal.
Qed.

Lemma str_app_nil_r (s : string) : s +:+ "" = s.
Proof. induction s as [|c s IH]; [done|]. rewrite str_app_cons. by f_equal. Qed.

Lemma dec_loop_acc fuel : ∀ v acc,
  dec_loop fuel v acc = dec_loop fuel v "" +:+ acc.
Proof.
  induction fuel as [|fuel IH]; intros v acc; cbn [dec_loop]; [done|].
  destruct (v <? 10); [done|].
  rewrite (IH (v / 10) (String _ acc)), (IH (v / 10) (String _ "")).
  by rewrite str_app_assoc.
Qed.

Lemma log2_div10 v f :
  10 <= v → Z.log2 v < Z.of_nat (S f) → Z.log2 (v / 10) < Z.of_nat f.
Proof.
  intros Hv Hl. apply Z.log2_lt_pow2 in Hl; [|lia].
  rewrite Nat2Z.inj_succ, Z.pow_succ_r in Hl by lia.
  assert (0 < v / 10) by (apply Z.div_str_pos; lia).
  apply Z.log2_lt_pow2; [done|].
  apply Z.div_lt_upper_bound; lia.
Qed.

(** Any fuel above [log2 v] gives the same digits. *)
Lemma dec_loop_fuel f1 : ∀ f2 v acc,
  0 <= v → Z.log2 v < Z.of_nat f1 → Z.log2 v < Z.of_nat f2 →
  dec_loop f1 v acc = dec_loop f2 v acc.
Proof.
  induction f1 as [|f1 IH]; intros f2 v acc Hv H1 H2.
  - pose proof (Z.log2_nonneg v). lia.
  - destruct f2 as [|f2]; [pose proof (Z.log2_nonneg v); lia|].
    cbn [dec_loop]. destruct (Z.ltb_spec v 10); [done|].
    apply IH; [apply Z.div_pos; lia|by apply log2_div10..].
Qed.

Lemma dec_loop_S fuel v acc :
  dec_loop (S fuel) v acc
  = if v <? 10 then String (digit_char (v mod 10)) acc
    else dec_loop fuel (v / 10) (String (digit_char (v mod 10)) acc).
Proof. reflexivity. Qed.

Lemma show_nat_small v :
  0 <= v < 10 → show_nat v = String (digit_char v) "".
Proof.
  intros Hv. unfold show_nat. rewrite dec_loop_S.
  rewrite Z.mod_small by done.
  destruct (Z.ltb_spec v 10); [done|lia].
Qed.

Lemma show_nat_step v :
  10 <= v → show_nat v = show_nat (v / 10) +:+ String (digit_char (v mod 10)) "".
Proof.
  intros Hv. unfold show_nat at 1. rewrite dec_loop_S.
  destruct (Z.ltb_spec v 10); [lia|].
  rewrite dec_loop_acc. f_equal. unfold show_nat.
  apply dec_loop_fuel.
  - apply Z.div_pos; lia.
  - apply log2_div10; [done|]. pose proof (Z.log2_nonneg v). lia.
  - lia.
Qed.

Lemma show_int_nonneg v : 0 <= v → show_int v = show_nat v.
Proof. intros Hv. unfold show_int. destruct (Z.ltb_spec v 0); [lia|done]. Qed.

Lemma show_int_w2_digit d :
  0 <= d < BASE →
  show_int_w2 d = String (digit_char (d / 10)) (String (digit_char (d mod 10)) "").
Proof.
  intros Hd. unfold show_int_w2, BASE in *. rewrite show_int_nonneg by lia.
  destruct (Z.ltb_spec d 10) as [Hs|Hl].
  - rewrite show_nat_small by lia. simpl.
    rewrite Z.div_small, Z.mod_small by lia. done.
  - rewrite show_nat_step by lia.
    assert (0 <= d / 10 < 10) as Hq.
    { split; [apply Z.div_pos; lia|apply Z.div_lt_upper_bound; lia]. }
    rewrite show_nat_small by done. done.
Qed.

Lemma show_nat_two_more v d :
  0 < v → 0 <= d < BASE →
  show_nat (v * BASE + d) = show_nat v +:+ show_int_w2 d.
Proof.
  intros Hv Hd. rewrite show_int_w2_digit by done. unfold BASE in *.
  assert ((v * 100 + d) / 10 = v * 10 + d / 10) as Hq1.
  { replace (v * 100 + d) with (d + (v * 10) * 10) by lia.
    rewrite Z.div_add by lia. lia. }
  assert ((v * 100 + d) mod 10 = d mod 10) as Hm1.
  { replace (v * 100 + d) with (d + (v * 10) * 10) by lia.
    by rewrite Z.mod_add by lia. }
  assert (0 <= d / 10 < 10) as Hq.
  { split; [apply Z.div_pos; lia|apply Z.div_lt_upper_bound; lia]. }
  assert ((v * 10 + d / 10) / 10 = v) as Hq2.
  { replace (v * 10 + d / 10) with (d / 10 + v * 10) by lia.
    rewrite Z.div_add, Z.div_small by lia. lia. }
  assert ((v * 10 + d / 10) mod 10 = d / 10) as Hm2.
  { replace (v * 10 + d / 10) with (d / 10 + v * 10) by lia.
    rewrite Z.mod_add, Z.mod_small by lia. done. }
  rewrite show_nat_step, Hq1, Hm1 by lia.
  rewrite show_nat_step, Hq2, Hm2 by lia.
  rewrite str_app_assoc. done.
Qed.

Lemma print_loop_spec ds k : ∀ v,
  digits_ok ds → (k <= length ds)%nat → 0 < v →
  show_nat (v * BASE ^ Z.of_nat k + mag (take k ds))
  = show_nat v +:+ print_loop ds k.
Proof.
  induction k as [|k IH]; intros v Hok Hk Hv.
  - rewrite take_0, mag_nil. cbn [print_loop]. rewrite str_app_nil_r.
    f_equal. simpl. lia.
  - cbn [print_loop].
    pose proof (digits_ok_lookup ds k Hok ltac:(lia)) as Hd.
    rewrite <- str_app_assoc, <- show_nat_two_more by (done || lia).
    rewrite <- IH by (done || unfold BASE in *; lia).
    f_equal. rewrite mag_take_S, pow_BASE_S by lia. ring.
Qed.

Lemma show_int_0 : show_int 0 = "0"%string.
Proof. reflexivity. Qed.

Lemma canonical_top_digit x :
  canonical x → digits x ≠ [] →
  0 < digits x !!! (length (digits x) - 1)%nat < BASE
  ∧ mag (digits x)
    = digits x !!! (length (digits x) - 1)%nat
        * BASE ^ Z.of_nat (length (digits x) - 1)
      + mag (take (length (digits x) - 1) (digits x)).
Proof.
  intros (Hok & Hl & _) Hne.
  assert (0 < length (digits x))%nat as Hlen.
  { destruct (digits x); [done|simpl; lia]. }
  pose proof (digits_ok_lookup _ (length (digits x) - 1) Hok ltac:(lia)) as Hd.
  split.
  - split; [|lia].
    assert (digits x !!! (length (digits x) - 1)%nat ≠ 0); [|lia].
    intros H0. apply Hl. rewrite last_lookup.
    replace (Nat.pred (length (digits x))) with (length (digits x) - 1)%nat by lia.
    rewrite <- H0. apply list_lookup_lookup_total_lt. lia.
  - rewrite <- (firstn_all (digits x)) at 1.
    replace (length (digits x)) with (S (length (digits x) - 1)) at 1 by lia.
    rewrite mag_take_S by lia. ring.
Qed.

(** The text written for a canonical [Integer] is the decimal text of its
    value. *)
Lemma Integer_print_decimal x :
  canonical x → int_sized x → Integer_print x = show_int (to_Z x).
Proof.
  intros Hc Hsz. unfold Integer_print. rewrite (int_rounds_2 _ Hsz).
  destruct (isZero x) eqn:Hz.
  { apply isZero_true in Hz. unfold to_Z. rewrite Hz, mag_nil.
    by destruct (sign x). }
  apply isZero_false in Hz.
  destruct (canonical_top_digit x Hc Hz) as (Ht & Hm).
  pose proof (canonical_mag_pos x Hc Hz) as Hpos.
  rewrite show_int_nonneg by lia.
  rewrite <- print_loop_spec; [|apply Hc|lia|lia].
  rewrite <- Hm. unfold to_Z, show_int.
  destruct (sign x).
  - destruct (Z.ltb_spec (- mag (digits x)) 0); [|lia].
    by rewrite Z.opp_involutive.
  - destruct (Z.ltb_spec (mag (digits x)) 0); [lia|]. done.
Qed.

(** ** The schoolbook sum *)

Lemma row_sum_mag x d2 : ∀ pos,
  row_sum x d2 pos = x * BASE ^ Z.of_nat pos * mag d2.
Proof.
  induction d2 as [|y d2 IH]; intros pos; cbn [row_sum].
  - rewrite mag_nil. lia.
  - rewrite IH, mag_cons, pow_BASE_S. ring.
Qed.

Lemma schoolbook_mag d1 d2 : ∀ i,
  schoolbook d1 d2 i = BASE ^ Z.of_nat i * mag d1 * mag d2.
Proof.
  induction d1 as [|x d1 IH]; intros i; cbn [schoolbook].
  - rewrite mag_nil. lia.
  - rewrite IH, row_sum_mag, mag_cons, pow_BASE_S. ring.
Qed.

Lemma schoolbook_product d1 d2 : schoolbook d1 d2 0 = mag d1 * mag d2.
Proof. rewrite schoolbook_mag. simpl. lia. Qed.

(** ** The calls of subtractMagnitude *)

Lemma operator_plus_via_call a b :
  operator_plus a b =
    match plus_subtract_call a b with
    | Some (x, y) => r ← subtractMagnitude x y; mret (with_sign (sign x) r)
    | None =>
        if eqb (sign a) (sign b)
        then r ← addMagnitude a b; mret (with_sign (sign a) r)
        else Ok Integer_default
    end.
Proof.
  unfold operator_plus, plus_subtract_call.
  destruct (eqb (sign a) (sign b)); [done|].
  destruct (compareMagnitude a b =? 0); [done|].
  by destruct (0 <? compareMagnitude a b).
Qed.

Lemma plus_subtract_call_pre a b x y :
  canonical a → canonical b →
  (length (digits a) = length (digits b) → int_sized a) →
  plus_subtract_call a b = Some (x, y) →
  canonical x ∧ canonical y
  ∧ (length (digits y) <= length (digits x))%nat
  ∧ mag (digits y) < mag (digits x).
Proof.
  intros Ha Hb Hsz. unfold plus_subtract_call.
  destruct (eqb (sign a) (sign b)); [done|].
  destruct (compareMagnitude_spec a b Ha Hb Hsz)
    as [[Hc Hlt]|[[Hc He]|[Hc Hlt]]];
    rewrite Hc; simpl; [|done|].
  - intros [= <- <-]. split_and!; [done..| |done].
    apply compareMagnitude_length. rewrite compareMagnitude_antisym, Hc. lia.
  - intros [= <- <-]. split_and!; [done..| |done].
    apply compareMagnitude_length. rewrite Hc. lia.
Qed.

(** ** Exposed values *)

Lemma from_vector_canonical s v r :
  Forall byte_ok v → Integer_from_vector s v = Ok r → canonical r.
Proof.
  intros Hb. unfold Integer_from_vector. case_decide as Hex; [done|].
  intros [= <-]. apply normalize_canonical. simpl.
  apply Forall_forall. intros d Hd.
  pose proof (proj1 (Forall_forall _ _) Hb d Hd) as [? _].
  split; [done|]. destruct (decide (BASE <= d)) as [Hge|]; [|lia].
  exfalso. apply Hex. apply Exists_exists. eauto.
Qed.

Lemma exposed_canonical x : exposed x → canonical x.
Proof.
  induction 1 as [|i Hi|cs s n d r Hb Hr|s v r Hb Hr|a _ IHa
                 |a b r _ IHa _ IHb Hr|a b r _ IHa _ IHb Hr
                 |a b r _ IHa _ IHb Hr|a _ IHa].
  - apply canonical_default.
  - by apply Integer_from_ll_spec.
  - by eapply from_array_canonical.
  - by eapply from_vector_canonical.
  - by apply operator_neg_canonical.
  - destruct (operator_plus_canonical a b IHa IHb) as (r' & Hr' & Hc). congruence.
  - destruct (operator_minus_canonical a b IHa IHb) as (r' & Hr' & Hc). congruence.
  - destruct (operator_mul_to_Z a b IHa IHb) as (r' & Hr' & Hc & _). congruence.
  - by apply Integer_abs_canonical.
Qed.

(** Every canonical value can be handed to a caller: the vector
    constructor builds it. *)
Lemma canonical_exposed x : canonical x → exposed x.
Proof.
  intros Hc. apply (exposed_from_vector (sign x) (digits x)).
  - eapply Forall_impl; [apply Hc|]. unfold byte_ok, BASE. simpl. lia.
  - rewrite from_vector_ok by apply Hc.
    f_equal. destruct x. by apply normalize_id.
Qed.

(** ** Order *)

Lemma canonical_isNegative x : canonical x → isNegative x = sign x.
Proof.
  intros (_ & _ & Hs). unfold isNegative, isZero.
  case_bool_decide as Hz; [rewrite Hs by done; done|by rewrite andb_true_r].
Qed.

Lemma operator_trichotomy a b :
  canonical a → canonical b → int_sized a → int_sized b →
  (operator_lt a b = true ∧ operator_eq a b = false ∧ operator_gt a b = false)
  ∨ (operator_lt a b = false ∧ operator_eq a b = true ∧ operator_gt a b = false)
  ∨ (operator_lt a b = false ∧ operator_eq a b = false ∧ operator_gt a b = true).
Proof.
  intros Ha Hb Hsa Hsb. unfold operator_gt.
  pose proof (operator_lt_spec a b Ha Hb (fun _ => Hsa)) as Hlt.
  pose proof (operator_lt_spec b a Hb Ha (fun _ => Hsb)) as Hgt.
  pose proof (operator_eq_spec a b Ha Hb) as Heq.
  destruct (operator_lt a b), (operator_lt b a), (operator_eq a b);
    try (left; done); try (right; left; done); try (right; right; done);
    exfalso; destruct Hlt, Hgt, Heq; try lia;
    destruct (Z.lt_trichotomy (to_Z a) (to_Z b)) as [?|[?|?]];
    try (by auto with nocore); try lia; auto.
Qed.

(** ** Rational *)

Lemma canonical_one : canonical (Integer_from_ll 1) ∧ to_Z (Integer_from_ll 1) = 1.
Proof. apply Integer_from_ll_spec. unfold LLONG_MIN, LLONG_MAX. lia. Qed.

Lemma canonical_to_Z_sign x : canonical x → sign x = true ↔ to_Z x < 0.
Proof.
  intros Hc. pose proof (mag_bounds _ (proj1 Hc)) as Hm. unfold to_Z.
  destruct (sign x) eqn:Hs; split; try done; try lia.
  intros _. assert (digits x ≠ []) as Hne.
  { intros He. destruct Hc as (_ & _ & Hz). rewrite Hz in Hs; done. }
  pose proof (canonical_mag_pos x Hc Hne). lia.
Qed.

Lemma Rational_normalize_spec n d :
  canonical n → canonical d → to_Z d ≠ 0 →
  Rational_ok (Rational_normalize (mkRational n d))
  ∧ to_Z (num (Rational_normalize (mkRational n d))) * to_Z d
    = to_Z n * to_Z (den (Rational_normalize (mkRational n d))).
Proof.
  intros Hn Hd Hd0. unfold Rational_normalize. cbn [num den].
  rewrite (canonical_isNegative d Hd).
  set (r1 := if sign d then _ else _).
  assert (canonical (num r1) ∧ canonical (den r1) ∧ 0 < to_Z (den r1)
          ∧ to_Z (num r1) * to_Z d = to_Z n * to_Z (den r1))
    as (Hc1 & Hc2 & Hpos & Hx).
  { unfold r1. pose proof (canonical_to_Z_sign d Hd) as Hs.
    destruct (sign d); cbn [num den].
    - rewrite !operator_neg_to_Z.
      split_and!; [by apply operator_neg_canonical..| |ring].
      assert (to_Z d < 0) by by apply Hs. lia.
    - split_and!; [done..| |ring].
      assert (¬ to_Z d < 0) by (intros ?%Hs; done). lia. }
  clearbody r1. destruct (isZero (num r1)) eqn:Hz; cbn [num den].
  - apply isZero_true in Hz.
    pose proof (proj2 (canonical_to_Z_zero _ Hc1) Hz) as H0.
    destruct canonical_one as [Hc Hv].
    split; [split_and!; cbn [num den]; [done|done|rewrite Hv; lia|done]|].
    cbn [num den]. rewrite H0 in Hx |- *. rewrite Hv.
    assert (to_Z n = 0) by nia. lia.
  - apply isZero_false in Hz. split; [|done].
    split_and!; [done..|].
    intros H0%(canonical_to_Z_zero _ Hc1). done.
Qed.

Lemma Rational_from_Integers_spec n d :
  canonical n → canonical d → to_Z d ≠ 0 →
  ∃ r, Rational_from_Integers n d = Ok r ∧ Rational_ok r
       ∧ to_Z (num r) * to_Z d = to_Z n * to_Z (den r).
Proof.
  intros Hn Hd Hd0. unfold Rational_from_Integers.
  rewrite (proj2 (isZero_false d)).
  - eexists. split; [done|]. by apply Rational_normalize_spec.
  - intros He. apply Hd0. by apply canonical_to_Z_zero.
Qed.

Lemma Rational_ok_den r : Rational_ok r → Z.pos (Z.to_pos (to_Z (den r))) = to_Z (den r).
Proof. intros (_ & _ & Hp & _). by apply Z2Pos.id. Qed.

Lemma Rational_ok_default : Rational_ok Rational_default.
Proof.
  split_and!; [apply canonical_default|apply canonical_one|done|done].
Qed.

Lemma Rational_from_Integer_spec n :
  canonical n →
  Rational_ok (Rational_from_Integer n)
  ∧ to_Z (num (Rational_from_Integer n)) = to_Z n
  ∧ den (Rational_from_Integer n) = Integer_from_ll 1.
Proof.
  intros Hn. destruct canonical_one as [Hc Hv].
  destruct (Rational_normalize_spec n (Integer_from_ll 1) Hn Hc) as [Hok Hx];
    [lia|].
  fold (Rational_from_Integer n) in *. split; [done|].
  assert (den (Rational_from_Integer n) = Integer_from_ll 1) as Hden.
  { unfold Rational_from_Integer, Rational_normalize. cbn [num den].
    change (isNegative (Integer_from_ll 1)) with false. cbn [num den].
    by destruct (isZero n). }
  rewrite Hden, Hv in Hx. split; [lia|done].
Qed.

Lemma Rational_neg_spec a :
  Rational_ok a →
  Rational_ok (Rational_neg a)
  ∧ to_Z (num (Rational_neg a)) = - to_Z (num a)
  ∧ den (Rational_neg a) = den a.
Proof.
  intros (Hn & Hd & Hp & Hz). unfold Rational_neg.
  destruct (Rational_normalize_spec (operator_neg (num a)) (den a)) as [Hok Hx];
    [by apply operator_neg_canonical|done|lia|].
  split; [done|].
  assert (den (Rational_normalize (mkRational (operator_neg (num a)) (den a)))
          = den a) as Hden.
  { unfold Rational_normalize. cbn [num den].
    rewrite (canonical_isNegative _ Hd).
    assert (sign (den a) = false) as ->.
    { destruct (sign (den a)) eqn:Hs; [|done].
      apply (canonical_to_Z_sign _ Hd) in Hs. lia. }
    cbn [num den]. destruct (isZero (operator_neg (num a))) eqn:Hz0; [|done].
    cbn [den]. symmetry. apply Hz.
    apply isZero_true in Hz0. rewrite operator_neg_digits in Hz0.
    by apply canonical_to_Z_zero. }
  rewrite Hden in Hx |- *. rewrite operator_neg_to_Z in Hx.
  split; [nia|done].
Qed.

(** The digit count of a canonical value, from its magnitude. *)
Lemma canonical_length_le x n :
  canonical x → mag (digits x) < BASE ^ Z.of_nat n →
  (length (digits x) <= n)%nat.
Proof.
  intros (Hok & Hl & _) Hm.
  destruct (decide (digits x = [])) as [->|Hne]; [simpl; lia|].
  pose proof (mag_lower _ Hok Hne Hl) as Hlow.
  assert (BASE ^ Z.of_nat (length (digits x) - 1) < BASE ^ Z.of_nat n) as Hp by lia.
  apply Z.pow_lt_mono_r_iff in Hp; [lia|done|lia].
Qed.

Lemma to_Z_abs x : digits_ok (digits x) → Z.abs (to_Z x) = mag (digits x).
Proof.
  intros Hok. pose proof (mag_bounds _ Hok). unfold to_Z.
  destruct (sign x); lia.
Qed.

Lemma product_length a b r :
  canonical a → canonical b → canonical r → to_Z r = to_Z a * to_Z b →
  (length (digits r) <= length (digits a) + length (digits b))%nat.
Proof.
  intros Ha Hb Hr Hv. apply canonical_length_le; [done|].
  rewrite <- (to_Z_abs r), Hv, Z.abs_mul, !to_Z_abs by (apply Ha || apply Hb || apply Hr).
  pose proof (mag_bounds _ (proj1 Ha)). pose proof (mag_bounds _ (proj1 Hb)).
  rewrite pow_BASE_add. nia.
Qed.

Lemma sum_length a b r n :
  canonical a → canonical b → canonical r →
  Z.abs (to_Z r) <= Z.abs (to_Z a) + Z.abs (to_Z b) →
  (length (digits a) <= n)%nat → (length (digits b) <= n)%nat →
  (length (digits r) <= S n)%nat.
Proof.
  intros Ha Hb Hr Hv Hla Hlb. apply canonical_length_le; [done|].
  rewrite !to_Z_abs in Hv by (apply Ha || apply Hb || apply Hr).
  pose proof (mag_bounds _ (proj1 Ha)) as Hma.
  pose proof (mag_bounds _ (proj1 Hb)) as Hmb.
  assert (BASE ^ Z.of_nat (length (digits a)) <= BASE ^ Z.of_nat n)
    by (apply Z.pow_le_mono_r; [done|lia]).
  assert (BASE ^ Z.of_nat (length (digits b)) <= BASE ^ Z.of_nat n)
    by (apply Z.pow_le_mono_r; [done|lia]).
  rewrite pow_BASE_S. pose proof (pow_BASE_pos n). unfold BASE in *. lia.
Qed.

(** At every size the sum and the difference are returned and keep the
    invariant. *)
Lemma Rational_plus_ok a b :
  Rational_ok a → Rational_ok b →
  ∃ r, Rational_plus a b = Ok r ∧ Rational_ok r.
Proof.
  intros (Hna & Hda & Hpa & _) (Hnb & Hdb & Hpb & _). unfold Rational_plus.
  destruct (operator_mul_to_Z (num a) (den b)) as (x & -> & Hcx & Hvx); [done..|].
  destruct (operator_mul_to_Z (den a) (num b)) as (y & -> & Hcy & Hvy); [done..|].
  simpl.
  destruct (operator_plus_canonical x y) as (nn & -> & Hcn); [done..|].
  destruct (operator_mul_to_Z (den a) (den b)) as (nd & -> & Hcd & Hvd); [done..|].
  simpl.
  destruct (Rational_from_Integers_spec nn nd) as (r & Hr & Hok & _);
    [done|done|nia|].
  by exists r.
Qed.

Lemma Rational_minus_ok a b :
  Rational_ok a → Rational_ok b →
  ∃ r, Rational_minus a b = Ok r ∧ Rational_ok r.
Proof.
  intros (Hna & Hda & Hpa & _) (Hnb & Hdb & Hpb & _). unfold Rational_minus.
  destruct (operator_mul_to_Z (num a) (den b)) as (x & -> & Hcx & Hvx); [done..|].
  destruct (operator_mul_to_Z (den a) (num b)) as (y & -> & Hcy & Hvy); [done..|].
  simpl.
  destruct (operator_minus_canonical x y) as (nn & -> & Hcn); [done..|].
  destruct (operator_mul_to_Z (den a) (den b)) as (nd & -> & Hcd & Hvd); [done..|].
  simpl.
  destruct (Rational_from_Integers_spec nn nd) as (r & Hr & Hok & _);
    [done|done|nia|].
  by exists r.
Qed.

(** The size bound under which the sum and the difference are exact: the
    product [num a * den b], the first operand of the comparison inside
    [operator+], has at most [INT_MAX] digits. *)
Lemma Rational_plus_spec a b :
  Rational_ok a → Rational_ok b →
  Z.of_nat (length (digits (num a)) + length (digits (den b))) <= INT_MAX →
  ∃ r, Rational_plus a b = Ok r ∧ Rational_ok r
       ∧ to_Z (num r) * (to_Z (den a) * to_Z (den b))
         = (to_Z (num a) * to_Z (den b) + to_Z (den a) * to_Z (num b))
           * to_Z (den r).
Proof.
  intros (Hna & Hda & Hpa & _) (Hnb & Hdb & Hpb & _) Hsz. unfold Rational_plus.
  destruct (operator_mul_to_Z (num a) (den b)) as (x & -> & Hcx & Hvx); [done..|].
  destruct (operator_mul_to_Z (den a) (num b)) as (y & -> & Hcy & Hvy); [done..|].
  simpl.
  pose proof (product_length _ _ x Hna Hdb Hcx Hvx) as Hlx.
  destruct (operator_plus_to_Z x y) as (nn & -> & Hcn & Hvn);
    [done|done|intros _; unfold int_sized; lia|].
  destruct (operator_mul_to_Z (den a) (den b)) as (nd & -> & Hcd & Hvd); [done..|].
  simpl.
  destruct (Rational_from_Integers_spec nn nd) as (r & Hr & Hok & Hx);
    [done|done|nia|].
  exists r. split; [done|]. split; [done|].
  rewrite <- Hvx, <- Hvy, <- Hvn, <- Hvd. done.
Qed.

Lemma Rational_minus_spec a b :
  Rational_ok a → Rational_ok b →
  Z.of_nat (length (digits (num a)) + length (digits (den b))) <= INT_MAX →
  ∃ r, Rational_minus a b = Ok r ∧ Rational_ok r
       ∧ to_Z (num r) * (to_Z (den a) * to_Z (den b))
         = (to_Z (num a) * to_Z (den b) - to_Z (den a) * to_Z (num b))
           * to_Z (den r).
Proof.
  intros (Hna & Hda & Hpa & _) (Hnb & Hdb & Hpb & _) Hsz. unfold Rational_minus.
  destruct (operator_mul_to_Z (num a) (den b)) as (x & -> & Hcx & Hvx); [done..|].
  destruct (operator_mul_to_Z (den a) (num b)) as (y & -> & Hcy & Hvy); [done..|].
  simpl.
  pose proof (product_length _ _ x Hna Hdb Hcx Hvx) as Hlx.
  destruct (operator_minus_to_Z x y) as (nn & -> & Hcn & Hvn);
    [done|done|intros _; unfold int_sized; lia|].
  destruct (operator_mul_to_Z (den a) (den b)) as (nd & -> & Hcd & Hvd); [done..|].
  simpl.
  destruct (Rational_from_Integers_spec nn nd) as (r & Hr & Hok & Hx);
    [done|done|nia|].
  exists r. split; [done|]. split; [done|].
  rewrite <- Hvx, <- Hvy, <- Hvn, <- Hvd. done.
Qed.

Lemma Rational_mul_spec a b :
  Rational_ok a → Rational_ok b →
  ∃ r, Rational_mul a b = Ok r ∧ Rational_ok r
       ∧ to_Z (num r) * (to_Z (den a) * to_Z (den b))
         = (to_Z (num a) * to_Z (num b)) * to_Z (den r).
Proof.
  intros (Hna & Hda & Hpa & _) (Hnb & Hdb & Hpb & _). unfold Rational_mul.
  destruct (operator_mul_to_Z (num a) (num b)) as (nn & -> & Hcn & Hvn); [done..|].
  destruct (operator_mul_to_Z (den a) (den b)) as (nd & -> & Hcd & Hvd); [done..|].
  simpl.
  destruct (Rational_from_Integers_spec nn nd) as (r & Hr & Hok & Hx);
    [done|done|nia|].
  exists r. split; [done|]. split; [done|].
  rewrite <- Hvn, <- Hvd. done.
Qed.

Lemma Rational_div_spec a b :
  Rational_ok a → Rational_ok b → to_Z (num b) ≠ 0 →
  ∃ r, Rational_div a b = Ok r ∧ Rational_ok r
       ∧ to_Z (num r) * (to_Z (den a) * to_Z (num b))
         = (to_Z (num a) * to_Z (den b)) * to_Z (den r).
Proof.
  intros (Hna & Hda & Hpa & _) (Hnb & Hdb & Hpb & _) Hnz. unfold Rational_div.
  rewrite (proj2 (isZero_false (num b))).
  2:{ intros He. apply Hnz. by apply canonical_to_Z_zero. }
  destruct (operator_mul_to_Z (num a) (den b)) as (nn & -> & Hcn & Hvn); [done..|].
  destruct (operator_mul_to_Z (den a) (num b)) as (nd & -> & Hcd & Hvd); [done..|].
  simpl.
  destruct (Rational_from_Integers_spec nn nd) as (r & Hr & Hok & Hx);
    [done|done|nia|].
  exists r. split; [done|]. split; [done|].
  rewrite <- Hvn, <- Hvd. done.
Qed.

Lemma Rational_div_by_zero a b :
  isZero (num b) = true →
  Rational_div a b = Exit "Error: Division by zero rational number." EXIT_FAILURE.
Proof. intros Hz. unfold Rational_div. by rewrite Hz. Qed.

Lemma Rational_eq_spec a b :
  Rational_ok a → Rational_ok b →
  ∃ e, Rational_eq a b = Ok e
       ∧ (e = true ↔ to_Z (num a) * to_Z (den b) = to_Z (den a) * to_Z (num b)).
Proof.
  intros (Hna & Hda & Hpa & _) (Hnb & Hdb & Hpb & _). unfold Rational_eq.
  destruct (operator_mul_to_Z (num a) (den b)) as (x & -> & Hcx & Hvx); [done..|].
  destruct (operator_mul_to_Z (den a) (num b)) as (y & -> & Hcy & Hvy); [done..|].
  simpl. eexists. split; [done|].
  rewrite (operator_eq_spec x y) by done. by rewrite Hvx, Hvy.
Qed.

Lemma exposed_rational_ok r : exposed_rational r → Rational_ok r.
Proof.
  induction 1 as [|n d r Hn Hd Hr|n Hn|n Hn|a _ IHa
                 |a b r _ IHa _ IHb Hr|a b r _ IHa _ IHb Hr
                 |a b r _ IHa _ IHb Hr|a b r _ IHa _ IHb Hr].
  - apply Rational_ok_default.
  - apply exposed_canonical in Hn, Hd. revert Hr. unfold Rational_from_Integers.
    destruct (isZero d) eqn:Hz; [done|]. intros [= <-].
    apply Rational_normalize_spec; [done..|].
    apply isZero_false in Hz. intros H0. apply Hz. by apply canonical_to_Z_zero.
  - apply Rational_from_Integer_spec. by apply exposed_canonical.
  - apply (Rational_from_Integer_spec (Integer_from_ll n)).
    by apply Integer_from_ll_spec.
  - by apply Rational_neg_spec.
  - destruct (Rational_plus_ok a b IHa IHb) as (r' & Hr' & Hok). congruence.
  - destruct (Rational_minus_ok a b IHa IHb) as (r' & Hr' & Hok). congruence.
  - destruct (Rational_mul_spec a b IHa IHb) as (r' & Hr' & Hok & _). congruence.
  - revert Hr. unfold Rational_div. destruct (isZero (num b)) eqn:Hz; [done|].
    intros Hr. apply isZero_false in Hz.
    destruct (Rational_div_spec a b IHa IHb) as (r' & Hr' & Hok & _).
    { intros H0. apply Hz. apply canonical_to_Z_zero; [apply IHb|done]. }
    unfold Rational_div in Hr'. rewrite (proj2 (isZero_false (num b)) Hz) in Hr'.
    congruence.
Qed.

(** ** Further facts on Integer *)

Lemma signum_spec x : canonical x → signum x = Z.sgn (to_Z x).
Proof.
  intros Hc. unfold signum. destruct (isZero x) eqn:Hz.
  - apply isZero_true in Hz. by rewrite (proj2 (canonical_to_Z_zero x Hc) Hz).
  - apply isZero_false in Hz. pose proof (canonical_mag_pos x Hc Hz).
    unfold to_Z. destruct (sign x); lia.
Qed.

Lemma Integer_abs_to_Z x : canonical x → to_Z (Integer_abs x) = Z.abs (to_Z x).
Proof.
  intros Hc. pose proof (mag_bounds _ (proj1 Hc)). unfold Integer_abs.
  destruct (sign x) eqn:Hs.
  - rewrite operator_neg_to_Z. unfold to_Z. rewrite Hs. lia.
  - unfold to_Z. rewrite Hs. lia.
Qed.

Lemma operator_neg_involutive x : operator_neg (operator_neg x) = x.
Proof.
  unfold operator_neg. destruct (isZero x) eqn:Hz; [by rewrite Hz|].
  unfold isZero in *. cbn [digits sign]. rewrite Hz, negb_involutive.
  by destruct x.
Qed.

Lemma operator_le_spec a b :
  canonical a → canonical b → int_sized b →
  operator_le a b = true ↔ to_Z a <= to_Z b.
Proof.
  intros Ha Hb Hsz. unfold operator_le, operator_gt.
  rewrite negb_true_iff, <- not_true_iff_false,
    (operator_lt_spec b a Hb Ha (fun _ => Hsz)).
  lia.
Qed.

Lemma operator_ge_spec a b :
  canonical a → canonical b → int_sized a →
  operator_ge a b = true ↔ to_Z b <= to_Z a.
Proof.
  intros Ha Hb Hsz. unfold operator_ge.
  rewrite negb_true_iff, <- not_true_iff_false,
    (operator_lt_spec a b Ha Hb (fun _ => Hsz)).
  lia.
Qed.

Lemma operator_ne_spec a b :
  canonical a → canonical b → operator_ne a b = true ↔ to_Z a ≠ to_Z b.
Proof.
  intros Ha Hb. unfold operator_ne.
  rewrite negb_true_iff, <- not_true_iff_false, (operator_eq_spec a b Ha Hb). done.
Qed.

Lemma to_Z_mk s ds : to_Z (mkInteger s ds) = if s then - mag ds else mag ds.
Proof. reflexivity. Qed.

Lemma from_vector_value s v :
  digits_ok v →
  ∃ r, Integer_from_vector s v = Ok r ∧ canonical r
       ∧ to_Z r = (if s then - mag v else mag v).
Proof.
  intros Hok. rewrite from_vector_ok by done. eexists. split; [done|].
  split; [by apply normalize_canonical|]. by rewrite normalize_to_Z.
Qed.

Lemma mag_take_zeros (d : list Z) m n :
  (m <= n <= length d)%nat → (∀ i, (m <= i < n)%nat → d !! i = Some 0) →
  mag (take n d) = mag (take m d).
Proof.
  intros [Hmn Hn] Hz. induction n as [|n IH].
  - by replace m with 0%nat by lia.
  - destruct (decide (m = S n)) as [->|Hne]; [done|].
    rewrite mag_take_S by lia.
    rewrite (list_lookup_total_correct d n 0) by (apply Hz; lia).
    rewrite IH; [lia|lia|lia|]. intros i Hi. apply Hz. lia.
Qed.

Lemma fmap_to_DigitType_id cs l :
  Forall byte_ok l → Forall (fun c => ¬ digit_rejected cs c) l →
  to_DigitType <$> l = l.
Proof.
  intros Hb. induction Hb as [|c l Hc _ IH]; intros Ha; [done|].
  inversion_clear Ha as [|?? Hnc Hal]. rewrite fmap_cons, IH by done.
  f_equal. unfold to_DigitType. apply Z.mod_small. done.
Qed.

(** On accepted bytes the array constructor builds what the vector
    constructor builds from the first [n] of them. *)
Lemma from_array_as_vector cs s n d :
  Forall byte_ok d → 0 < n <= Z.of_nat (length d) →
  Forall (fun c => 0 <= char_value cs c < BASE) (take (Z.to_nat n) d) →
  Integer_from_array cs s n (Some d)
  = Integer_from_vector s (take (Z.to_nat n) d).
Proof.
  intros Hb Hn Hacc.
  assert (Forall (fun c => ¬ digit_rejected cs c) (take (Z.to_nat n) d)) as Hnr.
  { apply Forall_forall. intros c Hc Hr.
    pose proof (proj1 (Forall_forall _ _) Hacc c Hc) as Hv.
    apply digit_rejected_value in Hr; [done|].
    by apply (proj1 (Forall_forall _ _) (Forall_take _ (Z.to_nat n) _ Hb)). }
  assert (digits_ok (take (Z.to_nat n) d)) as Hok.
  { rewrite <- (fmap_to_DigitType_id cs); [|by apply Forall_take|done].
    apply (accepted_digits_ok cs); [by apply Forall_take|done]. }
  rewrite from_vector_ok by done. unfold Integer_from_array.
  destruct (Z.leb_spec n 0); [lia|].
  destruct (strip_loop_total d (Z.to_nat n) ltac:(lia)) as [m Hst].
  rewrite Hst. simpl.
  apply strip_loop_spec in Hst as (Hle & Hpos & Hz).
  specialize (Hpos ltac:(lia)).
  pose proof (mag_take_zeros d m (Z.to_nat n) ltac:(lia) Hz) as Hmag.
  assert (digits_ok (take m d)) as Hokm.
  { replace (take m d) with (take m (take (Z.to_nat n) d))
      by (rewrite take_take; f_equal; lia).
    by apply Forall_take. }
  destruct (lookup_lt_is_Some_2 d 0 ltac:(lia)) as [c0 Hc0].
  unfold arr_get. rewrite Hc0.
  assert ((if (m =? 1)%nat then Ok c0 ≫= (fun c : Z => mret (c =? 0))
           else mret false) = Ok ((m =? 1)%nat && (c0 =? 0))) as ->
    by (by destruct (m =? 1)%nat).
  cbn [mbind outcome_bind].
  destruct ((m =? 1)%nat && (c0 =? 0)) eqn:Hzt.
  - apply andb_true_iff in Hzt as [->%Nat.eqb_eq ->%Z.eqb_eq].
    symmetry. apply f_equal. apply normalize_zero; [done|].
    cbn [digits]. rewrite Hmag, (take_S_r d 0 0 Hc0), take_0. done.
  - pose proof (copy_loop_cases cs d m 0 []) as Hcp.
    destruct (copy_loop cs d m 0 []) as [ds|e'| |].
    + destruct Hcp as (_ & -> & Hall). rewrite drop_0 in *.
      rewrite (fmap_to_DigitType_id cs); [|by apply Forall_take|done].
      rewrite app_nil_l. cbn [mbind outcome_bind mret outcome_ret].
      apply f_equal.
      apply canonical_to_Z_inj; [by apply normalize_canonical..|].
      rewrite !normalize_to_Z, !to_Z_mk, Hmag by done. done.
    + destruct Hcp as (j & c & Hj & Hc & Hr). exfalso.
      apply (proj1 (Forall_lookup _ _) Hnr j c); [|done].
      rewrite lookup_take_lt by lia. done.
    + done.
    + lia.
Qed.

(** Outside its precondition [subtractMagnitude] wraps: a borrow is left
    and the digits are those of [|a| - |b| + BASE ^ length]. *)
Lemma subtract_digits_wrap a b :
  digits_ok (digits a) → digits_ok (digits b) →
  (length (digits b) <= length (digits a))%nat →
  mag (digits a) < mag (digits b) →
  (subtract_digits a b).2 = 1
  ∧ mag (subtract_digits a b).1
    = mag (digits a) - mag (digits b) + BASE ^ Z.of_nat (length (digits a)).
Proof.
  intros H1 H2 Hlen Hlt. unfold subtract_digits.
  destruct (sub_loop_spec (digits a) (digits b) (length (digits a)) 0 [] 0)
    as (res & borrow & -> & Hok & Hl & Hb & Hinv); try done.
  { apply digits_ok_nil. }
  simpl in *. rewrite !take_ge in Hinv by lia.
  pose proof (mag_bounds res Hok) as Hbd. rewrite Hl in Hbd.
  assert (borrow = 1) as -> by nia.
  split; [done|]. lia.
Qed.

(** ** Agreement with the decimal printer of the Standard Library *)

Lemma digit_cases k :
  0 <= k < 10 →
  k = 0 ∨ k = 1 ∨ k = 2 ∨ k = 3 ∨ k = 4 ∨ k = 5 ∨ k = 6 ∨ k = 7 ∨ k = 8 ∨ k = 9.
Proof. lia. Qed.

Lemma string_of_digit_cons k d :
  0 <= k < 10 →
  NilEmpty.string_of_uint (digit_cons k d)
  = String (digit_char k) (NilEmpty.string_of_uint d).
Proof.
  intros Hk. destruct (digit_cases k Hk) as [H|[H|[H|[H|[H|[H|[H|[H|[H|H]]]]]]]]];
    subst k; reflexivity.
Qed.

Lemma of_lu_digit_cons k d :
  0 <= k < 10 →
  Unsigned.of_lu (digit_cons k d) = (Z.to_N k + 10 * Unsigned.of_lu d)%N.
Proof.
  intros Hk. destruct (digit_cases k Hk) as [H|[H|[H|[H|[H|[H|[H|[H|[H|H]]]]]]]]];
    subst k; reflexivity.
Qed.

Lemma revapp_digit_cons k d acc :
  0 <= k < 10 →
  Decimal.revapp (digit_cons k d) acc = Decimal.revapp d (digit_cons k acc).
Proof.
  intros Hk. destruct (digit_cases k Hk) as [H|[H|[H|[H|[H|[H|[H|[H|[H|H]]]]]]]]];
    subst k; reflexivity.
Qed.

Lemma nzhead_digit_cons k d :
  0 < k < 10 →
  Decimal.unorm (digit_cons k d) = digit_cons k d.
Proof.
  intros Hk.
  destruct (digit_cases k ltac:(lia)) as [H|[H|[H|[H|[H|[H|[H|[H|[H|H]]]]]]]]];
    subst k; try lia; reflexivity.
Qed.

Lemma mod10_bounds v : 0 <= v mod 10 < 10.
Proof. apply Z.mod_pos_bound. lia. Qed.

Lemma string_of_dec_uint_loop fuel : ∀ v acc,
  NilEmpty.string_of_uint (dec_uint_loop fuel v acc)
  = dec_loop fuel v (NilEmpty.string_of_uint acc).
Proof.
  induction fuel as [|fuel IH]; intros v acc; [done|].
  cbn [dec_uint_loop]. rewrite dec_loop_S.
  destruct (v <? 10).
  - apply string_of_digit_cons, mod10_bounds.
  - rewrite IH. f_equal. apply string_of_digit_cons, mod10_bounds.
Qed.

Lemma dec_uint_loop_revapp fuel : ∀ v acc,
  dec_uint_loop fuel v acc = Decimal.revapp (little_digits fuel v) acc.
Proof.
  induction fuel as [|fuel IH]; intros v acc; [done|].
  cbn [dec_uint_loop little_digits].
  rewrite revapp_digit_cons by apply mod10_bounds.
  destruct (v <? 10); [done|]. apply IH.
Qed.

Lemma of_lu_little_digits fuel : ∀ v,
  0 <= v → Z.log2 v < Z.of_nat fuel →
  Unsigned.of_lu (little_digits fuel v) = Z.to_N v.
Proof.
  induction fuel as [|fuel IH]; intros v Hv Hl.
  - pose proof (Z.log2_nonneg v). lia.
  - cbn [little_digits]. rewrite of_lu_digit_cons by apply mod10_bounds.
    pose proof (mod10_bounds v) as Hm.
    pose proof (Z.div_mod v 10 ltac:(lia)) as Hdm.
    destruct (Z.ltb_spec v 10) as [Hs|Hb].
    + rewrite Z.mod_small by lia. simpl. lia.
    + rewrite IH; [|apply Z.div_pos; lia|by apply log2_div10].
      assert (0 <= v / 10) by (apply Z.div_pos; lia). lia.
Qed.

Lemma dec_uint_loop_unorm fuel : ∀ v acc,
  0 < v → Z.log2 v < Z.of_nat fuel →
  Decimal.unorm (dec_uint_loop fuel v acc) = dec_uint_loop fuel v acc.
Proof.
  induction fuel as [|fuel IH]; intros v acc Hv Hl.
  - pose proof (Z.log2_nonneg v). lia.
  - cbn [dec_uint_loop]. destruct (Z.ltb_spec v 10) as [Hs|Hb].
    + apply nzhead_digit_cons. rewrite Z.mod_small by lia. lia.
    + apply IH; [apply Z.div_str_pos; lia|by apply log2_div10].
Qed.

Lemma pos_to_uint_dec p :
  Pos.to_uint p
  = dec_uint_loop (S (Z.to_nat (Z.log2 (Z.pos p)))) (Z.pos p) Decimal.Nil.
Proof.
  set (fuel := S (Z.to_nat (Z.log2 (Z.pos p)))).
  assert (Z.log2 (Z.pos p) < Z.of_nat fuel) as Hl.
  { unfold fuel. pose proof (Z.log2_nonneg (Z.pos p)). lia. }
  change (Pos.to_uint p) with (N.to_uint (N.pos p)).
  rewrite <- (dec_uint_loop_unorm fuel (Z.pos p) Decimal.Nil) by (done || lia).
  rewrite <- DecimalPos.Unsigned.to_of. f_equal.
  rewrite dec_uint_loop_revapp.
  change (Decimal.revapp ?d Decimal.Nil) with (Decimal.rev d).
  rewrite Unsigned.of_lu_rev, of_lu_little_digits by (done || lia). done.
Qed.

Lemma show_nat_stdlib p :
  show_nat (Z.pos p) = NilZero.string_of_uint (Pos.to_uint p).
Proof.
  rewrite pos_to_uint_dec. unfold show_nat.
  set (fuel := S _).
  change (dec_loop fuel (Z.pos p) "")
    with (dec_loop fuel (Z.pos p) (NilEmpty.string_of_uint Decimal.Nil)).
  rewrite <- string_of_dec_uint_loop.
  unfold NilZero.string_of_uint.
  destruct (dec_uint_loop fuel (Z.pos p) Decimal.Nil) eqn:Hd; try done.
  exfalso.
  assert (Decimal.unorm (dec_uint_loop fuel (Z.pos p) Decimal.Nil)
          = dec_uint_loop fuel (Z.pos p) Decimal.Nil) as Hu.
  { apply dec_uint_loop_unorm; [lia|].
    unfold fuel. pose proof (Z.log2_nonneg (Z.pos p)). lia. }
  rewrite Hd in Hu. discriminate.
Qed.

(** [show_int] writes the decimal numeral of the Standard Library. *)
Lemma show_int_stdlib n : show_int n = NilZero.string_of_int (Z.to_int n).
Proof.
  destruct n as [|p|p].
  - reflexivity.
  - rewrite show_int_nonneg by lia. apply show_nat_stdlib.
  - unfold show_int. destruct (Z.ltb_spec (Z.neg p) 0); [|lia].
    change (- Z.neg p) with (Z.pos p).
    rewrite show_nat_stdlib. reflexivity.
Qed.

(** ** Text of a Rational *)

Lemma Rational_print_spec r :
  Rational_ok r → int_sized (num r) → int_sized (den r) →
  Rational_print r
  = show_int (to_Z (num r))
    +:+ (if to_Z (den r) =? 1 then ""
         else "/" +:+ show_int (to_Z (den r))).
Proof.
  intros (Hn & Hd & Hp & _) Hsn Hsd. unfold Rational_print.
  rewrite !Integer_print_decimal by done.
  destruct canonical_one as [Hc1 Hv1].
  pose proof (operator_ne_spec (den r) (Integer_from_ll 1) Hd Hc1) as Hne.
  rewrite Hv1 in Hne.
  destruct (Z.eqb_spec (to_Z (den r)) 1) as [He|Hn1].
  - destruct (operator_ne _ _); [|done]. exfalso. by apply Hne.
  - by rewrite (proj2 Hne Hn1).
Qed.

Lemma Rational_print_zero r :
  Rational_ok r → to_Z (num r) = 0 → Rational_print r = "0"%string.
Proof.
  intros (Hn & _ & _ & Hz) H0. unfold Rational_print. rewrite (Hz H0).
  apply (canonical_to_Z_zero _ Hn) in H0.
  unfold Integer_print at 1. rewrite (proj2 (isZero_true (num r)) H0).
  reflexivity.
Qed.

(** ** Rational arithmetic in Q *)

Lemma to_Q_eq_iff a b :
  Rational_ok a → Rational_ok b →
  to_Q a == to_Q b ↔ to_Z (num a) * to_Z (den b) = to_Z (den a) * to_Z (num b).
Proof.
  intros Ha Hb. unfold to_Q, Qeq. cbn [Qnum Qden].
  rewrite (Rational_ok_den a Ha), (Rational_ok_den b Hb). lia.
Qed.

Lemma to_Q_from_cross r n d :
  Rational_ok r → 0 < d → to_Z (num r) * d = n * to_Z (den r) →
  to_Q r == Qmake n (Z.to_pos d).
Proof.
  intros Hr Hd Hx. unfold to_Q, Qeq. cbn [Qnum Qden].
  rewrite (Rational_ok_den r Hr), Z2Pos.id by done. done.
Qed.

(** ** Operands with more than [INT_MAX] digits *)

Lemma to_int_wrap x : 2 ^ 31 <= x < 2 ^ 32 + 2 ^ 31 → to_int x = x - 2 ^ 32.
Proof.
  intros H. unfold to_int.
  assert ((x + 2 ^ 31) mod 2 ^ 32 = x + 2 ^ 31 - 2 ^ 32) as ->; [|lia].
  symmetry. apply (Z.mod_unique_pos _ _ 1); lia.
Qed.

Lemma to_int_period x : to_int (x + 2 ^ 32) = to_int x.
Proof.
  unfold to_int.
  replace (x + 2 ^ 32 + 2 ^ 31) with (x + 2 ^ 31 + 1 * 2 ^ 32) by lia.
  by rewrite Z_mod_plus_full.
Qed.

(** With [2^31 + 1] to [2^32] digits the counter of [compareMagnitude]
    starts negative and the loop body never runs. *)
Lemma int_rounds_none n :
  2 ^ 31 < Z.of_nat n <= 2 ^ 32 → int_rounds n 1 = 0%nat.
Proof.
  intros H. unfold int_rounds.
  rewrite (to_int_wrap (Z.of_nat n)) by lia.
  rewrite to_int_small by (unfold INT_MIN, INT_MAX; lia). lia.
Qed.

(** With [2^32 + 1] digits the counter starts at [0]: one round, on the
    lowest digit. *)
Lemma int_rounds_low_word n :
  Z.of_nat n = 2 ^ 32 + 1 → int_rounds n 1 = 1%nat.
Proof.
  intros H. unfold int_rounds. rewrite H.
  replace (2 ^ 32 + 1) with (1 + 2 ^ 32) by lia. rewrite to_int_period.
  rewrite (to_int_small 1) by (unfold INT_MIN, INT_MAX; lia).
  rewrite to_int_small by (unfold INT_MIN, INT_MAX; lia). reflexivity.
Qed.

Lemma compareMagnitude_skipped a b :
  length (digits a) = length (digits b) →
  2 ^ 31 < Z.of_nat (length (digits a)) <= 2 ^ 32 →
  compareMagnitude a b = 0.
Proof.
  intros Hlen Hsz. unfold compareMagnitude.
  rewrite <- Hlen, Nat.ltb_irrefl, (int_rounds_none _ Hsz).
  by case_decide.
Qed.

Lemma operator_plus_skipped a b :
  sign a ≠ sign b →
  length (digits a) = length (digits b) →
  2 ^ 31 < Z.of_nat (length (digits a)) <= 2 ^ 32 →
  operator_plus a b = Ok Integer_default.
Proof.
  intros Hs Hlen Hsz. unfold operator_plus.
  rewrite (compareMagnitude_skipped a b Hlen Hsz).
  by destruct (sign a), (sign b).
Qed.

Lemma operator_lt_skipped a b :
  sign a = sign b → digits a ≠ [] →
  length (digits a) = length (digits b) →
  2 ^ 31 < Z.of_nat (length (digits a)) <= 2 ^ 32 →
  operator_lt a b = false.
Proof.
  intros Hs Hne Hlen Hsz. unfold operator_lt.
  rewrite (compareMagnitude_skipped a b Hlen Hsz), <- Hs.
  apply isZero_false in Hne. rewrite Hne.
  by destruct (sign a).
Qed.

Lemma operator_eq_digits_differ a b :
  digits a ≠ [] → digits a ≠ digits b → operator_eq a b = false.
Proof.
  intros Hne Hd. unfold operator_eq.
  apply isZero_false in Hne. rewrite Hne. cbn [andb].
  destruct (negb (eqb (sign a) (sign b))); [done|].
  by apply bool_decide_eq_false_2.
Qed.

Lemma last_replicate_S {A} n (x : A) : list.last (replicate (S n) x) = Some x.
Proof.
  induction n as [|n IH]; [done|].
  change (replicate (S (S n)) x) with (x :: replicate (S n) x).
  by rewrite last_cons, IH.
Qed.

Lemma mag_replicate n d : mag (replicate n d) = d * mag (replicate n 1).
Proof.
  induction n as [|n IH]; cbn [replicate].
  - rewrite mag_nil. lia.
  - rewrite !mag_cons, IH. lia.
Qed.

Lemma mag_replicate_1_pos n : (0 < n)%nat → 0 < mag (replicate n 1).
Proof.
  destruct n as [|n]; [lia|]. intros _. cbn [replicate]. rewrite mag_cons.
  assert (0 <= mag (replicate n 1)).
  { apply mag_nonneg, Forall_replicate. lia. }
  unfold BASE. lia.
Qed.

Lemma repdigit_canonical s n d :
  (0 < n)%nat → 0 < d < BASE → canonical (repdigit s n d).
Proof.
  intros Hn Hd. destruct n as [|n]; [lia|].
  unfold canonical, repdigit. cbn [digits sign]. split_and!.
  - apply Forall_replicate. lia.
  - rewrite last_replicate_S. intros [= ?]. lia.
  - done.
Qed.

Lemma repdigit_mag_lt s s' n d e :
  (0 < n)%nat → d < e →
  mag (digits (repdigit s n d)) < mag (digits (repdigit s' n e)).
Proof.
  intros Hn Hd. unfold repdigit. cbn [digits].
  rewrite (mag_replicate n d), (mag_replicate n e).
  pose proof (mag_replicate_1_pos n Hn). nia.
Qed.

Lemma repdigit_digits_differ s s' n d e :
  (0 < n)%nat → d ≠ e → digits (repdigit s n d) ≠ digits (repdigit s' n e).
Proof.
  intros Hn Hd. destruct n as [|n]; [lia|].
  unfold repdigit. cbn [digits replicate]. intros [= ? _]. done.
Qed.

(** [2^31 + 1] equal digits in both operands: the comparison loop is
    skipped and [compareMagnitude] answers "equal". *)
Lemma repdigit_sum_skipped n :
  2 ^ 31 < Z.of_nat n <= 2 ^ 32 →
  canonical (repdigit false n 1) ∧ canonical (repdigit true n 2)
  ∧ mag (digits (repdigit false n 1)) < mag (digits (repdigit true n 2))
  ∧ operator_plus (repdigit false n 1) (repdigit true n 2)
    = Ok Integer_default.
Proof.
  intros Hn. assert (0 < n)%nat as Hpos by lia. split_and!.
  - apply repdigit_canonical; [done|unfold BASE; lia].
  - apply repdigit_canonical; [done|unfold BASE; lia].
  - apply repdigit_mag_lt; [done|lia].
  - apply operator_plus_skipped.
    + done.
    + unfold repdigit. cbn [digits]. by rewrite !length_replicate.
    + unfold repdigit. cbn [digits]. by rewrite length_replicate.
Qed.

Lemma repdigit_order_skipped n :
  2 ^ 31 < Z.of_nat n <= 2 ^ 32 →
  canonical (repdigit false n 1) ∧ canonical (repdigit false n 2)
  ∧ mag (digits (repdigit false n 1)) < mag (digits (repdigit false n 2))
  ∧ operator_lt (repdigit false n 1) (repdigit false n 2) = false
  ∧ operator_eq (repdigit false n 1) (repdigit false n 2) = false
  ∧ operator_gt (repdigit false n 1) (repdigit false n 2) = false.
Proof.
  intros Hn. assert (0 < n)%nat as Hpos by lia.
  assert (∀ d, length (digits (repdigit false n d)) = n) as Hlen.
  { intros d. unfold repdigit. cbn [digits]. apply length_replicate. }
  assert (∀ d, digits (repdigit false n d) ≠ []) as Hne.
  { intros d He. specialize (Hlen d). rewrite He in Hlen. simpl in Hlen. lia. }
  split_and!.
  - apply repdigit_canonical; [done|unfold BASE; lia].
  - apply repdigit_canonical; [done|unfold BASE; lia].
  - apply repdigit_mag_lt; [done|lia].
  - apply operator_lt_skipped; [done|done|by rewrite !Hlen|by rewrite Hlen].
  - apply operator_eq_digits_differ; [done|].
    apply repdigit_digits_differ; [done|lia].
  - unfold operator_gt.
    apply operator_lt_skipped; [done|done|by rewrite !Hlen|by rewrite Hlen].
Qed.

Lemma two_ended_length s n lo hi :
  length (digits (two_ended s n lo hi)) = S (S n).
Proof.
  unfold two_ended. cbn [digits length].
  rewrite length_app, length_replicate. simpl. lia.
Qed.

Lemma two_ended_canonical s n lo hi :
  0 <= lo < BASE → 0 < hi < BASE → canonical (two_ended s n lo hi).
Proof.
  intros Hlo Hhi. unfold canonical, two_ended. cbn [digits sign]. split_and!.
  - apply Forall_cons. split; [done|]. apply Forall_app. split.
    + apply Forall_replicate. unfold BASE. lia.
    + apply Forall_cons. split; [lia|apply Forall_nil_2].
  - rewrite app_comm_cons, last_snoc. intros [= ?]. lia.
  - done.
Qed.

Lemma two_ended_mag s n lo hi :
  mag (digits (two_ended s n lo hi)) = lo + BASE ^ Z.of_nat (S n) * hi.
Proof.
  unfold two_ended. cbn [digits].
  rewrite mag_cons, mag_snoc, mag_replicate_0, length_replicate, pow_BASE_S.
  lia.
Qed.

(** [2^32 + 1] digits: the counter holds the size modulo [2^32] and only
    the lowest digit is compared. *)
Lemma two_ended_compare_low s s' n lo hi lo' hi' :
  Z.of_nat n = 2 ^ 32 - 1 → lo < lo' →
  compareMagnitude (two_ended s n lo hi) (two_ended s' n lo' hi') = -1.
Proof.
  intros Hn Hlt. unfold compareMagnitude.
  rewrite !two_ended_length, Nat.ltb_irrefl.
  rewrite int_rounds_low_word by lia.
  case_decide as He; [done|].
  unfold two_ended, cmp_loop. cbn [digits].
  change ((lo :: replicate n 0 ++ [hi]) !!! 0%nat) with lo.
  change ((lo' :: replicate n 0 ++ [hi']) !!! 0%nat) with lo'.
  by destruct (Z.ltb_spec lo lo'); [|lia].
Qed.

Lemma two_ended_call_reversed n :
  Z.of_nat n = 2 ^ 32 - 1 →
  canonical (two_ended false n 1 2) ∧ canonical (two_ended true n 2 1)
  ∧ plus_subtract_call (two_ended false n 1 2) (two_ended true n 2 1)
    = Some (two_ended true n 2 1, two_ended false n 1 2)
  ∧ mag (digits (two_ended true n 2 1)) < mag (digits (two_ended false n 1 2))
  ∧ (subtract_digits (two_ended true n 2 1) (two_ended false n 1 2)).2 = 1
  ∧ mag (subtract_digits (two_ended true n 2 1) (two_ended false n 1 2)).1
    = mag (digits (two_ended true n 2 1)) - mag (digits (two_ended false n 1 2))
      + BASE ^ Z.of_nat (length (digits (two_ended true n 2 1))).
Proof.
  intros Hn.
  assert (canonical (two_ended false n 1 2)) as Ha
    by (apply two_ended_canonical; unfold BASE; lia).
  assert (canonical (two_ended true n 2 1)) as Hb
    by (apply two_ended_canonical; unfold BASE; lia).
  assert (mag (digits (two_ended true n 2 1))
          < mag (digits (two_ended false n 1 2))) as Hlt.
  { rewrite !two_ended_mag, pow_BASE_S. pose proof (pow_BASE_pos n) as HP.
    set (P := BASE ^ Z.of_nat n) in *. clearbody P. unfold BASE. lia. }
  assert (plus_subtract_call (two_ended false n 1 2) (two_ended true n 2 1)
          = Some (two_ended true n 2 1, two_ended false n 1 2)) as Hcall.
  { unfold plus_subtract_call.
    rewrite (two_ended_compare_low false true n 1 2 2 1 Hn) by lia.
    reflexivity. }
  destruct (subtract_digits_wrap (two_ended true n 2 1) (two_ended false n 1 2))
    as [Hbw Hm]; [apply Hb|apply Ha|by rewrite !two_ended_length|done|].
  by split_and!.
Qed.

Lemma two_pow_31_plus_1_range : 2 ^ 31 < Z.of_nat two_pow_31_plus_1 <= 2 ^ 32.
Proof.
  assert (Z.of_nat two_pow_31_plus_1 = 2 ^ 31 + 1) as ->; [|lia].
  apply Z2Nat.id. lia.
Qed.

Lemma two_pow_32_minus_1_value : Z.of_nat two_pow_32_minus_1 = 2 ^ 32 - 1.
Proof. apply Z2Nat.id. lia. Qed.

(** ** Addition at every size *)

Lemma operator_plus_zero_r a :
  canonical a → operator_plus a Integer_default = Ok a.
Proof.
  intros Ha.
  destruct (operator_plus_to_Z a Integer_default Ha canonical_default)
    as (r & -> & Hc & Hv).
  { intros Hl. unfold int_sized. rewrite Hl. simpl. unfold INT_MAX. lia. }
  f_equal. apply canonical_to_Z_inj; [done..|]. rewrite Hv, to_Z_default. lia.
Qed.

Lemma operator_plus_zero_l a :
  canonical a → operator_plus Integer_default a = Ok a.
Proof.
  intros Ha.
  destruct (operator_plus_to_Z Integer_default a canonical_default Ha)
    as (r & -> & Hc & Hv).
  { intros _. unfold int_sized. simpl. unfold INT_MAX. lia. }
  f_equal. apply canonical_to_Z_inj; [done..|]. rewrite Hv, to_Z_default. lia.
Qed.

(** The two operands of [a + (-a)] hold the same digits, which the loop
    of [compareMagnitude] finds equal however many of them it visits. *)
Lemma operator_plus_neg a :
  canonical a → operator_plus a (operator_neg a) = Ok Integer_default.
Proof.
  intros Ha. destruct (isZero a) eqn:Hz.
  - apply isZero_true in Hz.
    assert (a = Integer_default) as ->.
    { destruct Ha as (_ & _ & Hs). destruct a as [s ds]. simpl in *.
      rewrite Hz, (Hs Hz). reflexivity. }
    vm_compute. reflexivity.
  - assert (sign (operator_neg a) = negb (sign a)) as Hs
      by (unfold operator_neg; by rewrite Hz).
    unfold operator_plus.
    rewrite (compareMagnitude_same_digits a (operator_neg a))
      by (by rewrite operator_neg_digits).
    rewrite Hs. by destruct (sign a).
Qed.

(** Both orders of the operands take the same branch: with equal signs
    the sum of the magnitudes, otherwise the same call of
    [subtractMagnitude], as the two comparisons are opposite. *)
Lemma operator_plus_comm a b :
  canonical a → canonical b → operator_plus a b = operator_plus b a.
Proof.
  intros Ha Hb.
  assert (addMagnitude a b = addMagnitude b a) as Hadd.
  { destruct (addMagnitude_spec a b) as (r & -> & Hc & Hs & Hm);
      [apply Ha|apply Hb|].
    destruct (addMagnitude_spec b a) as (r' & -> & Hc' & Hs' & Hm');
      [apply Hb|apply Ha|].
    f_equal. apply canonical_to_Z_inj; [done..|].
    unfold to_Z. rewrite Hs, Hs'. lia. }
  unfold operator_plus. rewrite (compareMagnitude_antisym a b), Hadd.
  pose proof (compareMagnitude_range a b) as Hr.
  set (c := compareMagnitude a b) in *.
  assert (c = -1 ∨ c = 0 ∨ c = 1) as [-> | [-> | ->]] by lia;
    by destruct (sign a), (sign b).
Qed.

Lemma operator_mul_comm a b :
  canonical a → canonical b → operator_mul a b = operator_mul b a.
Proof.
  intros Ha Hb.
  destruct (operator_mul_to_Z a b Ha Hb) as (r & -> & Hc & Hv).
  destruct (operator_mul_to_Z b a Hb Ha) as (r' & -> & Hc' & Hv').
  f_equal. apply canonical_to_Z_inj; [done..|]. lia.
Qed.

(** * Properties of the specification *)

(** C1.  Normal form of [Rational]: the numerator and the denominator are
    to be coprime.  [Rational::normalize] has no reduction step:
    [Rational(2, 4)] keeps numerator 2 and denominator 4, whose greatest
    common divisor is 2. *)
Theorem C1_rational_2_4_not_reduced :
  Rational_from_Integers (Integer_from_ll 2) (Integer_from_ll 4)
  = Ok (mkRational (mkInteger false [2]) (mkInteger false [4]))
  ∧ Z.gcd (Z.abs (to_Z (mkInteger false [2]))) (to_Z (mkInteger false [4])) = 2.
Proof. split; vm_compute; reflexivity. Qed.

(** C2.  Scaling numerator and denominator by the same non-zero factor is
    to give an equal and identically rendered [Rational].  With
    [n = 1], [d = 2], [k = 2] the two values compare equal, yet
    [Rational(2, 4)] is written ["2/4"] and [Rational(1, 2)] is written
    ["1/2"]. *)
Theorem C2_scaled_rational_renders_unreduced :
  ∃ nk dk r1 r2,
    operator_mul (Integer_from_ll 1) (Integer_from_ll 2) = Ok nk
    ∧ operator_mul (Integer_from_ll 2) (Integer_from_ll 2) = Ok dk
    ∧ Rational_from_Integers nk dk = Ok r1
    ∧ Rational_from_Integers (Integer_from_ll 1) (Integer_from_ll 2) = Ok r2
    ∧ Rational_eq r1 r2 = Ok true
    ∧ Rational_print r1 = "2/4"%string
    ∧ Rational_print r2 = "1/2"%string.
Proof.
  exists (mkInteger false [2]), (mkInteger false [4]),
    (mkRational (mkInteger false [2]) (mkInteger false [4])),
    (mkRational (mkInteger false [1]) (mkInteger false [2])).
  split_and!; vm_compute; reflexivity.
Qed.

(** C3, as stated: [Rational(n, 0)] fails with an exception the caller can
    handle.  It does not: for [n = 1] no exception leaves the
    constructor. *)
Lemma C3_zero_denominator_throws_nothing :
  ¬ ∃ e, Rational_from_Integers (Integer_from_ll 1) (Integer_from_ll 0) = Throw e.
Proof. intros [e He]. vm_compute in He. discriminate. Qed.

(** C3, amended.  For every numerator, constructing a [Rational] with a
    zero denominator writes the error message to [std::cerr] and ends the
    process with [exit(EXIT_FAILURE)]: no value is returned and the
    denominator is not replaced by another one. *)
Theorem C3_zero_denominator_exits n d :
  isZero d = true →
  Rational_from_Integers n d
  = Exit "Error: Rational denominator cannot be zero." EXIT_FAILURE.
Proof. intros Hz. unfold Rational_from_Integers. by rewrite Hz. Qed.

Lemma C3_zero_denominator_exits_witness :
  isZero (Integer_from_ll 0) = true
  ∧ Rational_from_Integers (Integer_from_ll 5) (Integer_from_ll 0)
    = Exit "Error: Rational denominator cannot be zero." EXIT_FAILURE.
Proof.
  split; [reflexivity|].
  apply (C3_zero_denominator_exits (Integer_from_ll 5) (Integer_from_ll 0)).
  reflexivity.
Defined.

(** C4.  Every [Integer] a caller can get hold of is in canonical form: no
    most-significant zero digit, the value is zero exactly when the digit
    vector is empty, and then the sign flag is [false]. *)
Theorem C4_exposed_integer_canonical x :
  exposed x →
  list.last (digits x) ≠ Some 0
  ∧ (to_Z x = 0 ↔ digits x = [])
  ∧ (digits x = [] → sign x = false).
Proof.
  intros Hc%exposed_canonical. split_and!.
  - apply Hc.
  - by apply canonical_to_Z_zero.
  - apply Hc.
Qed.

Lemma C4_exposed_integer_canonical_witness :
  exposed (Integer_from_ll (-12345))
  ∧ list.last (digits (Integer_from_ll (-12345))) ≠ Some 0
  ∧ (to_Z (Integer_from_ll (-12345)) = 0 ↔ digits (Integer_from_ll (-12345)) = [])
  ∧ (digits (Integer_from_ll (-12345)) = [] → sign (Integer_from_ll (-12345)) = false).
Proof.
  assert (exposed (Integer_from_ll (-12345))) as H.
  { apply exposed_from_ll. unfold LLONG_MIN, LLONG_MAX. lia. }
  split; [exact H|].
  apply (C4_exposed_integer_canonical (Integer_from_ll (-12345)) H).
Defined.

(** C5.  For every [long long] value [n], the minimum included, the text
    written for [Integer(n)] is the decimal text of [n]. *)
Theorem C5_long_long_round_trip n :
  LLONG_MIN <= n <= LLONG_MAX →
  Integer_print (Integer_from_ll n) = show_int n.
Proof.
  intros Hn. destruct (Integer_from_ll_spec n Hn) as [Hc Hv].
  by rewrite (Integer_print_decimal _ Hc (Integer_from_ll_int_sized n)), Hv.
Qed.

Lemma C5_long_long_round_trip_witness :
  LLONG_MIN <= LLONG_MIN <= LLONG_MAX
  ∧ Integer_print (Integer_from_ll LLONG_MIN) = show_int LLONG_MIN.
Proof.
  assert (LLONG_MIN <= LLONG_MIN <= LLONG_MAX) as H
    by (unfold LLONG_MIN, LLONG_MAX; lia).
  split; [exact H|].
  apply (C5_long_long_round_trip LLONG_MIN H).
Defined.

(** C6.  Addition by sign and magnitude, on operands of [2^31 + 1] digits
    each: [a] is positive with every digit [1], [b] is negative with
    every digit [2].  Both are canonical, the signs differ and [|a| <
    |b|], so the sum should be negative with magnitude [|b| - |a|]; the
    counter of [compareMagnitude] starts negative, the magnitudes pass
    for equal, and [a + b] is the canonical zero. *)
Theorem C6_sum_past_int_range_is_zero :
  canonical (repdigit false two_pow_31_plus_1 1)
  ∧ canonical (repdigit true two_pow_31_plus_1 2)
  ∧ mag (digits (repdigit false two_pow_31_plus_1 1))
    < mag (digits (repdigit true two_pow_31_plus_1 2))
  ∧ operator_plus (repdigit false two_pow_31_plus_1 1)
                  (repdigit true two_pow_31_plus_1 2)
    = Ok Integer_default.
Proof. exact (repdigit_sum_skipped _ two_pow_31_plus_1_range). Qed.

(** C7.  Multiplication: with a zero operand the product is the canonical
    zero; otherwise its magnitude is the schoolbook sum of the digit
    products [digit[i] * digit[j]] at position [i + j], in canonical form,
    and its sign is the exclusive or of the signs.  [Integer(7) *
    Integer(-6)] is written ["-42"]. *)
Theorem C7_multiplication_schoolbook a b :
  canonical a → canonical b →
  (∃ r, operator_mul a b = Ok r ∧ canonical r
     ∧ (isZero a || isZero b = true → r = Integer_default)
     ∧ (isZero a || isZero b = false →
        mag (digits r) = schoolbook (digits a) (digits b) 0
        ∧ sign r = xorb (sign a) (sign b)))
  ∧ Integer_print <$> operator_mul (Integer_from_ll 7) (Integer_from_ll (-6))
    = Ok "-42"%string.
Proof.
  intros Ha Hb. split; [|vm_compute; reflexivity].
  destruct (operator_mul_spec a b Ha Hb) as (r & Hr & Hc & Hm & Hs).
  exists r. split; [done|]. split; [done|].
  destruct (isZero a || isZero b); split; try done.
  intros _. by rewrite schoolbook_product.
Qed.

Lemma C7_multiplication_schoolbook_witness :
  canonical (mkInteger false [7]) ∧ canonical (mkInteger true [6])
  ∧ (∃ r, operator_mul (mkInteger false [7]) (mkInteger true [6]) = Ok r
       ∧ canonical r
       ∧ (isZero (mkInteger false [7]) || isZero (mkInteger true [6]) = true →
          r = Integer_default)
       ∧ (isZero (mkInteger false [7]) || isZero (mkInteger true [6]) = false →
          mag (digits r) = schoolbook [7] [6] 0
          ∧ sign r = xorb false true))
  ∧ Integer_print <$> operator_mul (Integer_from_ll 7) (Integer_from_ll (-6))
    = Ok "-42"%string.
Proof.
  assert (canonical (mkInteger false [7])) as Ha by canonical_by_eval.
  assert (canonical (mkInteger true [6])) as Hb by canonical_by_eval.
  split; [exact Ha|]. split; [exact Hb|].
  apply (C7_multiplication_schoolbook _ _ Ha Hb).
Defined.

(** C8.  Order, on two positive operands of [2^31 + 1] digits each, one
    with every digit [1], one with every digit [2]: both are canonical
    and the first is the smaller, yet none of [a < b], [a == b] and
    [a > b] holds, since [compareMagnitude] skips its loop and answers
    "equal" while [operator==] compares the digit vectors. *)
Theorem C8_no_order_past_int_range :
  canonical (repdigit false two_pow_31_plus_1 1)
  ∧ canonical (repdigit false two_pow_31_plus_1 2)
  ∧ mag (digits (repdigit false two_pow_31_plus_1 1))
    < mag (digits (repdigit false two_pow_31_plus_1 2))
  ∧ operator_lt (repdigit false two_pow_31_plus_1 1)
                (repdigit false two_pow_31_plus_1 2) = false
  ∧ operator_eq (repdigit false two_pow_31_plus_1 1)
                (repdigit false two_pow_31_plus_1 2) = false
  ∧ operator_gt (repdigit false two_pow_31_plus_1 1)
                (repdigit false two_pow_31_plus_1 2) = false.
Proof. exact (repdigit_order_skipped _ two_pow_31_plus_1_range). Qed.

(** C9.  The array constructor: with [n <= 0] or a null pointer it returns
    the canonical zero and reports nothing; an exception leaves it only
    when one of the bytes left after the trailing zeros are stripped is
    outside [0, 100). *)
Theorem C9_array_constructor cs s n d :
  (n <= 0 ∨ d = None → Integer_from_array cs s n d = Ok Integer_default)
  ∧ (∀ l e, d = Some l → Forall byte_ok l →
       Integer_from_array cs s n d = Throw e →
       ∃ m i c, strip_loop l (Z.to_nat n) = Ok m ∧ (i < m)%nat
                ∧ Z.of_nat i < n ∧ l !! i = Some c
                ∧ ¬ (0 <= char_value cs c < BASE)).
Proof.
  split; [apply from_array_no_input|].
  intros l e -> Hb He. by apply (from_array_throw_only cs s n l e).
Qed.

Lemma C9_array_constructor_witness :
  (-1 <= 0 ∨ Some [5] = None)
  ∧ Integer_from_array true true (-1) (Some [5]) = Ok Integer_default.
Proof.
  assert (-1 <= 0 ∨ Some [5] = @None (list Z)) as H by (left; lia).
  split; [exact H|].
  apply (proj1 (C9_array_constructor true true (-1) (Some [5])) H).
Defined.

(** C10.  The calls of [subtractMagnitude], on operands of [2^32 + 1]
    digits each: [a] is positive with lowest digit [1] and highest digit
    [2], [b] is negative with lowest digit [2] and highest digit [1],
    zero between.  The counter of [compareMagnitude] holds the size
    modulo [2^32], so only the lowest digits are compared and [|a|]
    passes for the smaller: [a + b] calls [subtractMagnitude(b, a)] with
    [|b| < |a|], a borrow of [1] is left after the last digit and the
    digits are those of [|b| - |a|] wrapped by [BASE ^ size]. *)
Theorem C10_subtractMagnitude_called_smaller_first :
  canonical (two_ended false two_pow_32_minus_1 1 2)
  ∧ canonical (two_ended true two_pow_32_minus_1 2 1)
  ∧ plus_subtract_call (two_ended false two_pow_32_minus_1 1 2)
                       (two_ended true two_pow_32_minus_1 2 1)
    = Some (two_ended true two_pow_32_minus_1 2 1,
            two_ended false two_pow_32_minus_1 1 2)
  ∧ mag (digits (two_ended true two_pow_32_minus_1 2 1))
    < mag (digits (two_ended false two_pow_32_minus_1 1 2))
  ∧ (subtract_digits (two_ended true two_pow_32_minus_1 2 1)
                     (two_ended false two_pow_32_minus_1 1 2)).2 = 1
  ∧ mag (subtract_digits (two_ended true two_pow_32_minus_1 2 1)
                         (two_ended false two_pow_32_minus_1 1 2)).1
    = mag (digits (two_ended true two_pow_32_minus_1 2 1))
      - mag (digits (two_ended false two_pow_32_minus_1 1 2))
      + BASE ^ Z.of_nat (length (digits (two_ended true two_pow_32_minus_1 2 1))).
Proof. exact (two_ended_call_reversed _ two_pow_32_minus_1_value). Qed.

(** * Further properties of the code *)

(** X1.  [Integer::normalize] on base-100 digits: the result is in
    canonical form, stands for the same number, and normalizing again
    changes nothing. *)
Theorem X1_normalize_canonical_same_value x :
  digits_ok (digits x) →
  canonical (Integer_normalize x)
  ∧ to_Z (Integer_normalize x) = to_Z x
  ∧ Integer_normalize (Integer_normalize x) = Integer_normalize x.
Proof.
  intros Hok. pose proof (normalize_canonical x Hok) as Hc.
  split_and!; [done|by apply normalize_to_Z|by apply normalize_id].
Qed.

Lemma X1_normalize_canonical_same_value_witness :
  digits_ok (digits (mkInteger true [0; 7; 0; 0]))
  ∧ canonical (Integer_normalize (mkInteger true [0; 7; 0; 0]))
  ∧ to_Z (Integer_normalize (mkInteger true [0; 7; 0; 0]))
    = to_Z (mkInteger true [0; 7; 0; 0])
  ∧ Integer_normalize (Integer_normalize (mkInteger true [0; 7; 0; 0]))
    = Integer_normalize (mkInteger true [0; 7; 0; 0]).
Proof.
  assert (digits_ok (digits (mkInteger true [0; 7; 0; 0]))) as H
    by (repeat constructor; unfold BASE; lia).
  split; [exact H|].
  apply (X1_normalize_canonical_same_value (mkInteger true [0; 7; 0; 0]) H).
Defined.

(** X2.  [compareMagnitude] on canonical values, the first of at most
    [INT_MAX] digits, returns -1, 0 or 1 as [|a|] is below, equal to or
    above [|b|]. *)
Theorem X2_compareMagnitude_orders_magnitudes a b :
  canonical a → canonical b → int_sized a →
  (compareMagnitude a b = -1 ∧ mag (digits a) < mag (digits b))
  ∨ (compareMagnitude a b = 0 ∧ mag (digits a) = mag (digits b))
  ∨ (compareMagnitude a b = 1 ∧ mag (digits b) < mag (digits a)).
Proof.
  intros Ha Hb Hsz.
  destruct (compareMagnitude_spec a b Ha Hb (fun _ => Hsz)) as [H|[[H He]|H]];
    [by left| |by right; right].
  right; left. by rewrite He.
Qed.

Lemma X2_compareMagnitude_orders_magnitudes_witness :
  canonical (mkInteger true [99; 1]) ∧ canonical (mkInteger false [0; 2])
  ∧ int_sized (mkInteger true [99; 1])
  ∧ compareMagnitude (mkInteger true [99; 1]) (mkInteger false [0; 2]) = -1.
Proof.
  assert (canonical (mkInteger true [99; 1])) as Ha by canonical_by_eval.
  assert (canonical (mkInteger false [0; 2])) as Hb by canonical_by_eval.
  assert (int_sized (mkInteger true [99; 1])) as Hsz by int_sized_by_eval.
  split; [exact Ha|]. split; [exact Hb|]. split; [exact Hsz|].
  destruct (X2_compareMagnitude_orders_magnitudes _ _ Ha Hb Hsz)
    as [[H _]|[[_ H]|[_ H]]];
    [exact H|vm_compute in H; first [lia | discriminate]..].
Defined.

(** X3.  [addMagnitude] on base-100 digit vectors never throws; its result
    is canonical, non-negative and has the sum of the magnitudes. *)
Theorem X3_addMagnitude_sum a b :
  digits_ok (digits a) → digits_ok (digits b) →
  ∃ r, addMagnitude a b = Ok r ∧ canonical r ∧ sign r = false
       ∧ mag (digits r) = mag (digits a) + mag (digits b).
Proof. apply addMagnitude_spec. Qed.

Lemma X3_addMagnitude_sum_witness :
  digits_ok [99; 99] ∧ digits_ok [1]
  ∧ ∃ r, addMagnitude (mkInteger true [99; 99]) (mkInteger false [1]) = Ok r
         ∧ canonical r ∧ sign r = false
         ∧ mag (digits r) = mag [99; 99] + mag [1].
Proof.
  assert (digits_ok [99; 99]) as Ha by (repeat constructor; unfold BASE; lia).
  assert (digits_ok [1]) as Hb by (repeat constructor; unfold BASE; lia).
  split; [exact Ha|]. split; [exact Hb|].
  apply (X3_addMagnitude_sum (mkInteger true [99; 99]) (mkInteger false [1]) Ha Hb).
Defined.

(** X4.  [subtractMagnitude] outside its precondition: when [|a| < |b|]
    (and [b] has no more digits than [a]) nothing is reported; a borrow is
    left after the last digit and the result has the wrapped magnitude
    [|a| - |b| + 100 ^ a.digits.size()]. *)
Theorem X4_subtractMagnitude_wraps a b :
  digits_ok (digits a) → digits_ok (digits b) →
  (length (digits b) <= length (digits a))%nat →
  mag (digits a) < mag (digits b) →
  (subtract_digits a b).2 = 1
  ∧ ∃ r, subtractMagnitude a b = Ok r
         ∧ mag (digits r)
           = mag (digits a) - mag (digits b)
             + BASE ^ Z.of_nat (length (digits a)).
Proof.
  intros H1 H2 Hlen Hlt.
  destruct (subtract_digits_wrap a b H1 H2 Hlen Hlt) as [Hb Hm].
  split; [done|]. unfold subtractMagnitude, subtract_digits in *.
  destruct (sub_loop_spec (digits a) (digits b) (length (digits a)) 0 [] 0)
    as (res & borrow & Heq & Hok & _); try done.
  { apply digits_ok_nil. }
  rewrite Heq in Hm |- *. cbn [fst snd] in *.
  rewrite from_vector_ok by done. eexists. split; [done|].
  rewrite !normalize_mag. done.
Qed.

Lemma X4_subtractMagnitude_wraps_witness :
  digits_ok [3] ∧ digits_ok [5] ∧ (length [5] <= length [3])%nat
  ∧ mag [3] < mag [5]
  ∧ (subtract_digits (mkInteger false [3]) (mkInteger false [5])).2 = 1
  ∧ ∃ r, subtractMagnitude (mkInteger false [3]) (mkInteger false [5]) = Ok r
         ∧ mag (digits r) = mag [3] - mag [5] + BASE ^ Z.of_nat (length [3]).
Proof.
  assert (digits_ok [3]) as Ha by (repeat constructor; unfold BASE; lia).
  assert (digits_ok [5]) as Hb by (repeat constructor; unfold BASE; lia).
  assert (length [5] <= length [3])%nat as Hl by (simpl; lia).
  assert (mag [3] < mag [5]) as Hlt by (vm_compute; reflexivity).
  split; [exact Ha|]. split; [exact Hb|]. split; [exact Hl|]. split; [exact Hlt|].
  apply (X4_subtractMagnitude_wraps (mkInteger false [3]) (mkInteger false [5])
           Ha Hb Hl Hlt).
Defined.

(** X5.  Unary minus negates the value, keeps canonical form (minus zero
    is zero) and undoes itself. *)
Theorem X5_unary_minus x :
  canonical x →
  canonical (operator_neg x)
  ∧ to_Z (operator_neg x) = - to_Z x
  ∧ operator_neg (operator_neg x) = x
  ∧ operator_neg Integer_default = Integer_default.
Proof.
  intros Hc. split_and!.
  - by apply operator_neg_canonical.
  - apply operator_neg_to_Z.
  - apply operator_neg_involutive.
  - reflexivity.
Qed.

Lemma X5_unary_minus_witness :
  canonical (mkInteger true [45; 23; 1])
  ∧ to_Z (operator_neg (mkInteger true [45; 23; 1])) = 12345.
Proof.
  assert (canonical (mkInteger true [45; 23; 1])) as H by canonical_by_eval.
  split; [exact H|].
  destruct (X5_unary_minus _ H) as (_ & -> & _). vm_compute. reflexivity.
Defined.

(** X6.  [operator+] on canonical values, the first of at most [INT_MAX]
    digits, never fails and returns the canonical value of the integer
    sum. *)
Theorem X6_addition_exact a b :
  canonical a → canonical b → int_sized a →
  ∃ r, operator_plus a b = Ok r ∧ canonical r ∧ to_Z r = to_Z a + to_Z b.
Proof.
  intros Ha Hb Hsz. apply operator_plus_to_Z; [done|done|]. by intros _.
Qed.

Lemma X6_addition_exact_witness :
  canonical (mkInteger true [45; 23; 1]) ∧ canonical (mkInteger false [99; 66; 33])
  ∧ int_sized (mkInteger true [45; 23; 1])
  ∧ ∃ r, operator_plus (mkInteger true [45; 23; 1]) (mkInteger false [99; 66; 33])
         = Ok r ∧ canonical r
         ∧ to_Z r = to_Z (mkInteger true [45; 23; 1])
                    + to_Z (mkInteger false [99; 66; 33]).
Proof.
  assert (canonical (mkInteger true [45; 23; 1])) as Ha by canonical_by_eval.
  assert (canonical (mkInteger false [99; 66; 33])) as Hb by canonical_by_eval.
  assert (int_sized (mkInteger true [45; 23; 1])) as Hsz by int_sized_by_eval.
  split; [exact Ha|]. split; [exact Hb|]. split; [exact Hsz|].
  apply (X6_addition_exact _ _ Ha Hb Hsz).
Defined.

(** X7.  Zero is neutral for [operator+] and [a + (-a)] is zero. *)
Theorem X7_additive_identity_inverse a :
  canonical a →
  operator_plus a Integer_default = Ok a
  ∧ operator_plus Integer_default a = Ok a
  ∧ operator_plus a (operator_neg a) = Ok Integer_default.
Proof.
  intros Ha. split_and!.
  - by apply operator_plus_zero_r.
  - by apply operator_plus_zero_l.
  - by apply operator_plus_neg.
Qed.

Lemma X7_additive_identity_inverse_witness :
  canonical (mkInteger true [45; 23; 1])
  ∧ operator_plus (mkInteger true [45; 23; 1])
      (operator_neg (mkInteger true [45; 23; 1])) = Ok Integer_default.
Proof.
  assert (canonical (mkInteger true [45; 23; 1])) as H by canonical_by_eval.
  split; [exact H|].
  apply (X7_additive_identity_inverse _ H).
Defined.

(** X8.  [operator+] and [operator*] are commutative. *)
Theorem X8_commutativity a b :
  canonical a → canonical b →
  operator_plus a b = operator_plus b a
  ∧ operator_mul a b = operator_mul b a.
Proof.
  intros Ha Hb. split.
  - by apply operator_plus_comm.
  - by apply operator_mul_comm.
Qed.

Lemma X8_commutativity_witness :
  canonical (mkInteger true [45; 23; 1]) ∧ canonical (mkInteger false [99; 66; 33])
  ∧ operator_mul (mkInteger true [45; 23; 1]) (mkInteger false [99; 66; 33])
    = operator_mul (mkInteger false [99; 66; 33]) (mkInteger true [45; 23; 1]).
Proof.
  assert (canonical (mkInteger true [45; 23; 1])) as Ha by canonical_by_eval.
  assert (canonical (mkInteger false [99; 66; 33])) as Hb by canonical_by_eval.
  split; [exact Ha|]. split; [exact Hb|].
  apply (X8_commutativity _ _ Ha Hb).
Defined.

(** X9.  [operator*] is associative; [operator+] is associative when [a]
    and [b] have fewer than [INT_MAX] digits; [operator*] distributes over
    [operator+] when [b], and [a] and [b] together, have at most [INT_MAX]
    digits. *)
Theorem X9_associativity_distributivity a b c :
  canonical a → canonical b → canonical c →
  (Z.of_nat (length (digits a)) < INT_MAX →
   Z.of_nat (length (digits b)) < INT_MAX →
   (ab ← operator_plus a b; operator_plus ab c)
   = (bc ← operator_plus b c; operator_plus a bc))
  ∧ (ab ← operator_mul a b; operator_mul ab c)
    = (bc ← operator_mul b c; operator_mul a bc)
  ∧ (int_sized b →
     Z.of_nat (length (digits a) + length (digits b)) <= INT_MAX →
     (bc ← operator_plus b c; operator_mul a bc)
     = (ab ← operator_mul a b; ac ← operator_mul a c; operator_plus ab ac)).
Proof.
  intros Ha Hb Hc. split_and!.
  - intros Hsa Hsb.
    destruct (operator_plus_to_Z a b Ha Hb) as (ab & -> & Hcab & Hvab).
    { intros _. unfold int_sized. lia. }
    destruct (operator_plus_to_Z b c Hb Hc) as (bc & -> & Hcbc & Hvbc).
    { intros _. unfold int_sized. lia. }
    simpl.
    pose proof (sum_length a b ab
                  (Nat.max (length (digits a)) (length (digits b)))
                  Ha Hb Hcab) as Hlen.
    destruct (operator_plus_to_Z ab c Hcab Hc) as (l & -> & Hcl & Hvl).
    { intros _. unfold int_sized. lia. }
    destruct (operator_plus_to_Z a bc Ha Hcbc) as (r & -> & Hcr & Hvr).
    { intros _. unfold int_sized. lia. }
    f_equal. apply canonical_to_Z_inj; [done..|]. lia.
  - destruct (operator_mul_to_Z a b Ha Hb) as (ab & -> & Hcab & Hvab).
    destruct (operator_mul_to_Z b c Hb Hc) as (bc & -> & Hcbc & Hvbc).
    simpl.
    destruct (operator_mul_to_Z ab c Hcab Hc) as (l & -> & Hcl & Hvl).
    destruct (operator_mul_to_Z a bc Ha Hcbc) as (r & -> & Hcr & Hvr).
    f_equal. apply canonical_to_Z_inj; [done..|]. rewrite Hvl, Hvr, Hvab, Hvbc. ring.
  - intros Hsb Hsab.
    destruct (operator_plus_to_Z b c Hb Hc) as (bc & -> & Hcbc & Hvbc).
    { by intros _. }
    destruct (operator_mul_to_Z a b Ha Hb) as (ab & -> & Hcab & Hvab).
    destruct (operator_mul_to_Z a c Ha Hc) as (ac & -> & Hcac & Hvac).
    simpl.
    pose proof (product_length a b ab Ha Hb Hcab Hvab) as Hlen.
    destruct (operator_mul_to_Z a bc Ha Hcbc) as (l & -> & Hcl & Hvl).
    destruct (operator_plus_to_Z ab ac Hcab Hcac) as (r & -> & Hcr & Hvr).
    { intros _. unfold int_sized. lia. }
    f_equal. apply canonical_to_Z_inj; [done..|]. rewrite Hvl, Hvr, Hvab, Hvac, Hvbc. ring.
Qed.

Lemma X9_associativity_distributivity_witness :
  canonical (mkInteger true [45; 23; 1]) ∧ canonical (mkInteger false [99; 66; 33])
  ∧ canonical (mkInteger false [7])
  ∧ int_sized (mkInteger false [99; 66; 33])
  ∧ Z.of_nat (length [45; 23; 1] + length [99; 66; 33]) <= INT_MAX
  ∧ (bc ← operator_plus (mkInteger false [99; 66; 33]) (mkInteger false [7]);
     operator_mul (mkInteger true [45; 23; 1]) bc)
    = (ab ← operator_mul (mkInteger true [45; 23; 1]) (mkInteger false [99; 66; 33]);
       ac ← operator_mul (mkInteger true [45; 23; 1]) (mkInteger false [7]);
       operator_plus ab ac).
Proof.
  assert (canonical (mkInteger true [45; 23; 1])) as Ha by canonical_by_eval.
  assert (canonical (mkInteger false [99; 66; 33])) as Hb by canonical_by_eval.
  assert (canonical (mkInteger false [7])) as Hc by canonical_by_eval.
  assert (int_sized (mkInteger false [99; 66; 33])) as Hsb by int_sized_by_eval.
  assert (Z.of_nat (length [45; 23; 1] + length [99; 66; 33]) <= INT_MAX)
    as Hsab by (unfold INT_MAX; simpl; lia).
  split; [exact Ha|]. split; [exact Hb|]. split; [exact Hc|].
  split; [exact Hsb|]. split; [exact Hsab|].
  apply (X9_associativity_distributivity _ _ _ Ha Hb Hc); [exact Hsb|exact Hsab].
Defined.

(** X10.  [operator-] on canonical values, the first of at most [INT_MAX]
    digits, never fails and returns the canonical value of the integer
    difference; [a - a] is zero. *)
Theorem X10_subtraction_exact a b :
  canonical a → canonical b → int_sized a →
  (∃ r, operator_minus a b = Ok r ∧ canonical r ∧ to_Z r = to_Z a - to_Z b)
  ∧ operator_minus a a = Ok Integer_default.
Proof.
  intros Ha Hb Hsz. split.
  - apply operator_minus_to_Z; [done|done|]. by intros _.
  - by apply operator_plus_neg.
Qed.

Lemma X10_subtraction_exact_witness :
  canonical (mkInteger true [45; 23; 1]) ∧ canonical (mkInteger false [99; 66; 33])
  ∧ int_sized (mkInteger true [45; 23; 1])
  ∧ operator_minus (mkInteger true [45; 23; 1]) (mkInteger true [45; 23; 1])
    = Ok Integer_default.
Proof.
  assert (canonical (mkInteger true [45; 23; 1])) as Ha by canonical_by_eval.
  assert (canonical (mkInteger false [99; 66; 33])) as Hb by canonical_by_eval.
  assert (int_sized (mkInteger true [45; 23; 1])) as Hsz by int_sized_by_eval.
  split; [exact Ha|]. split; [exact Hb|]. split; [exact Hsz|].
  apply (X10_subtraction_exact _ _ Ha Hb Hsz).
Defined.

(** X11.  [operator*] on canonical values never throws and never indexes
    its accumulator out of bounds; it returns the canonical value of the
    integer product. *)
Theorem X11_multiplication_exact a b :
  canonical a → canonical b →
  ∃ r, operator_mul a b = Ok r ∧ canonical r ∧ to_Z r = to_Z a * to_Z b.
Proof. apply operator_mul_to_Z. Qed.

Lemma X11_multiplication_exact_witness :
  canonical (mkInteger true [45; 23; 1]) ∧ canonical (mkInteger false [99; 66; 33])
  ∧ ∃ r, operator_mul (mkInteger true [45; 23; 1]) (mkInteger false [99; 66; 33])
         = Ok r ∧ canonical r
         ∧ to_Z r = to_Z (mkInteger true [45; 23; 1])
                    * to_Z (mkInteger false [99; 66; 33]).
Proof.
  assert (canonical (mkInteger true [45; 23; 1])) as Ha by canonical_by_eval.
  assert (canonical (mkInteger false [99; 66; 33])) as Hb by canonical_by_eval.
  split; [exact Ha|]. split; [exact Hb|].
  apply (X11_multiplication_exact _ _ Ha Hb).
Defined.

(** X12.  [operator==] on canonical values holds exactly for equal values,
    which are then identical in sign and digits; [operator!=] is its
    negation. *)
Theorem X12_equality_is_value_equality a b :
  canonical a → canonical b →
  (operator_eq a b = true ↔ to_Z a = to_Z b)
  ∧ (operator_eq a b = true ↔ a = b)
  ∧ operator_ne a b = negb (operator_eq a b).
Proof.
  intros Ha Hb. split_and!; [by apply operator_eq_spec| |done].
  rewrite (operator_eq_spec a b Ha Hb). split; [|by intros ->].
  by apply canonical_to_Z_inj.
Qed.

Lemma X12_equality_is_value_equality_witness :
  canonical (mkInteger true [45; 23; 1]) ∧ canonical (mkInteger false [45; 23; 1])
  ∧ operator_eq (mkInteger true [45; 23; 1]) (mkInteger false [45; 23; 1]) = false.
Proof.
  assert (canonical (mkInteger true [45; 23; 1])) as Ha by canonical_by_eval.
  assert (canonical (mkInteger false [45; 23; 1])) as Hb by canonical_by_eval.
  split; [exact Ha|]. split; [exact Hb|].
  destruct (X12_equality_is_value_equality _ _ Ha Hb) as (_ & _ & H).
  apply negb_true_iff. rewrite <- H. vm_compute. reflexivity.
Defined.

(** X13.  The four order operators on canonical values of at most
    [INT_MAX] digits are the order of the integers. *)
Theorem X13_order_operators a b :
  canonical a → canonical b → int_sized a → int_sized b →
  (operator_lt a b = true ↔ to_Z a < to_Z b)
  ∧ (operator_gt a b = true ↔ to_Z b < to_Z a)
  ∧ (operator_le a b = true ↔ to_Z a <= to_Z b)
  ∧ (operator_ge a b = true ↔ to_Z b <= to_Z a).
Proof.
  intros Ha Hb Hsa Hsb. split_and!.
  - apply operator_lt_spec; [done|done|]. by intros _.
  - apply operator_lt_spec; [done|done|]. by intros _.
  - by apply operator_le_spec.
  - by apply operator_ge_spec.
Qed.

Lemma X13_order_operators_witness :
  canonical (mkInteger true [45; 23; 1]) ∧ canonical (mkInteger false [7])
  ∧ int_sized (mkInteger true [45; 23; 1]) ∧ int_sized (mkInteger false [7])
  ∧ operator_le (mkInteger true [45; 23; 1]) (mkInteger false [7]) = true.
Proof.
  assert (canonical (mkInteger true [45; 23; 1])) as Ha by canonical_by_eval.
  assert (canonical (mkInteger false [7])) as Hb by canonical_by_eval.
  assert (int_sized (mkInteger true [45; 23; 1])) as Hsa by int_sized_by_eval.
  assert (int_sized (mkInteger false [7])) as Hsb by int_sized_by_eval.
  split; [exact Ha|]. split; [exact Hb|]. split; [exact Hsa|]. split; [exact Hsb|].
  destruct (X13_order_operators _ _ Ha Hb Hsa Hsb) as (_ & _ & H & _).
  apply H. vm_compute. discriminate.
Defined.

(** X14.  On canonical values [signum] is the sign of the value,
    [isNegative] holds for the values below zero and [isZero] for zero. *)
Theorem X14_sign_queries x :
  canonical x →
  signum x = Z.sgn (to_Z x)
  ∧ (isNegative x = true ↔ to_Z x < 0)
  ∧ (isZero x = true ↔ to_Z x = 0).
Proof.
  intros Hc. split_and!.
  - by apply signum_spec.
  - rewrite canonical_isNegative by done. by apply canonical_to_Z_sign.
  - rewrite isZero_true. symmetry. by apply canonical_to_Z_zero.
Qed.

Lemma X14_sign_queries_witness :
  canonical (mkInteger true [45; 23; 1])
  ∧ signum (mkInteger true [45; 23; 1]) = Z.sgn (to_Z (mkInteger true [45; 23; 1])).
Proof.
  assert (canonical (mkInteger true [45; 23; 1])) as H by canonical_by_eval.
  split; [exact H|].
  apply (X14_sign_queries _ H).
Defined.

(** X15.  [abs] of a canonical value is canonical and is the absolute
    value. *)
Theorem X15_abs x :
  canonical x →
  canonical (Integer_abs x) ∧ to_Z (Integer_abs x) = Z.abs (to_Z x).
Proof.
  intros Hc. split; [by apply Integer_abs_canonical|by apply Integer_abs_to_Z].
Qed.

Lemma X15_abs_witness :
  canonical (mkInteger true [45; 23; 1])
  ∧ canonical (Integer_abs (mkInteger true [45; 23; 1]))
  ∧ to_Z (Integer_abs (mkInteger true [45; 23; 1]))
    = Z.abs (to_Z (mkInteger true [45; 23; 1])).
Proof.
  assert (canonical (mkInteger true [45; 23; 1])) as H by canonical_by_eval.
  split; [exact H|].
  apply (X15_abs _ H).
Defined.

(** X16.  The vector constructor throws exactly when a digit is 100 or
    more; on base-100 digits it returns the canonical value of that
    magnitude, negative when the sign flag is set. *)
Theorem X16_vector_constructor s v :
  ((∃ e, Integer_from_vector s v = Throw e) ↔ Exists (fun d => BASE <= d) v)
  ∧ (digits_ok v →
     ∃ r, Integer_from_vector s v = Ok r ∧ canonical r
          ∧ to_Z r = (if s then - mag v else mag v)).
Proof.
  split; [apply from_vector_throw|apply from_vector_value].
Qed.

Lemma X16_vector_constructor_witness :
  digits_ok [0; 7; 0]
  ∧ ∃ r, Integer_from_vector true [0; 7; 0] = Ok r ∧ canonical r
         ∧ to_Z r = - mag [0; 7; 0].
Proof.
  assert (digits_ok [0; 7; 0]) as H by (repeat constructor; unfold BASE; lia).
  split; [exact H|].
  apply (proj2 (X16_vector_constructor true [0; 7; 0]) H).
Defined.

(** X17.  The array constructor, given at least [n] bytes, throws
    [invalid_argument] whenever one of the first [n] bytes is outside
    [0, 100), whichever way plain [char] is signed. *)
Theorem X17_array_constructor_rejects cs s n d i c :
  Forall byte_ok d → n <= Z.of_nat (length d) →
  Z.of_nat i < n → d !! i = Some c → ¬ (0 <= char_value cs c < BASE) →
  Integer_from_array cs s n (Some d)
  = Throw (invalid_argument "Invalid digit in char* constructor").
Proof. apply from_array_throws. Qed.

Lemma X17_array_constructor_rejects_witness :
  Forall byte_ok [99; 200; 33; 0; 0] ∧ 5 <= Z.of_nat (length [99; 200; 33; 0; 0])
  ∧ Z.of_nat 1 < 5 ∧ [99; 200; 33; 0; 0] !! 1%nat = Some 200
  ∧ ¬ (0 <= char_value true 200 < BASE)
  ∧ Integer_from_array true false 5 (Some [99; 200; 33; 0; 0])
    = Throw (invalid_argument "Invalid digit in char* constructor").
Proof.
  assert (Forall byte_ok [99; 200; 33; 0; 0]) as H1
    by (repeat constructor; unfold byte_ok; lia).
  assert (5 <= Z.of_nat (length [99; 200; 33; 0; 0])) as H2 by (simpl; lia).
  assert (Z.of_nat 1 < 5) as H3 by lia.
  assert ([99; 200; 33; 0; 0] !! 1%nat = Some 200) as H4 by reflexivity.
  assert (¬ (0 <= char_value true 200 < BASE)) as H5
    by (vm_compute; intros [H _]; apply H; reflexivity).
  split; [exact H1|]. split; [exact H2|]. split; [exact H3|].
  split; [exact H4|]. split; [exact H5|].
  apply (X17_array_constructor_rejects true false 5 _ 1%nat 200 H1 H2 H3 H4 H5).
Defined.

(** X18.  On [n > 0] bytes that are all base-100 digits the array
    constructor returns what the vector constructor returns for the first
    [n] of them. *)
Theorem X18_array_constructor_as_vector cs s n d :
  Forall byte_ok d → 0 < n <= Z.of_nat (length d) →
  Forall (fun c => 0 <= char_value cs c < BASE) (take (Z.to_nat n) d) →
  Integer_from_array cs s n (Some d)
  = Integer_from_vector s (take (Z.to_nat n) d).
Proof. apply from_array_as_vector. Qed.

Lemma X18_array_constructor_as_vector_witness :
  Forall byte_ok [99; 66; 33; 0; 0]
  ∧ 0 < 5 <= Z.of_nat (length [99; 66; 33; 0; 0])
  ∧ Forall (fun c => 0 <= char_value true c < BASE)
      (take (Z.to_nat 5) [99; 66; 33; 0; 0])
  ∧ Integer_from_array true false 5 (Some [99; 66; 33; 0; 0])
    = Integer_from_vector false (take (Z.to_nat 5) [99; 66; 33; 0; 0]).
Proof.
  assert (Forall byte_ok [99; 66; 33; 0; 0]) as H1
    by (repeat constructor; unfold byte_ok; lia).
  assert (0 < 5 <= Z.of_nat (length [99; 66; 33; 0; 0])) as H2 by (simpl; lia).
  assert (Forall (fun c => 0 <= char_value true c < BASE)
            (take (Z.to_nat 5) [99; 66; 33; 0; 0])) as H3
    by (repeat constructor; vm_compute; discriminate).
  split; [exact H1|]. split; [exact H2|]. split; [exact H3|].
  apply (X18_array_constructor_as_vector true false 5 _ H1 H2 H3).
Defined.

(** X19.  [Integer(long long)] is canonical and has the value of its
    argument over the whole range, the minimum included. *)
Theorem X19_from_long_long_value i :
  LLONG_MIN <= i <= LLONG_MAX →
  canonical (Integer_from_ll i) ∧ to_Z (Integer_from_ll i) = i.
Proof. apply Integer_from_ll_spec. Qed.

Lemma X19_from_long_long_value_witness :
  LLONG_MIN <= LLONG_MIN <= LLONG_MAX
  ∧ canonical (Integer_from_ll LLONG_MIN)
  ∧ to_Z (Integer_from_ll LLONG_MIN) = LLONG_MIN.
Proof.
  assert (LLONG_MIN <= LLONG_MIN <= LLONG_MAX) as H
    by (unfold LLONG_MIN, LLONG_MAX; lia).
  split; [exact H|].
  apply (X19_from_long_long_value LLONG_MIN H).
Defined.

(** X20.  The text written for a canonical [Integer] of at most [INT_MAX]
    digits is the decimal numeral of its value, as the Standard Library
    prints it. *)
Theorem X20_print_is_decimal_numeral x :
  canonical x → int_sized x →
  Integer_print x = NilZero.string_of_int (Z.to_int (to_Z x)).
Proof.
  intros Hc Hsz. rewrite (Integer_print_decimal x Hc Hsz). apply show_int_stdlib.
Qed.

Lemma X20_print_is_decimal_numeral_witness :
  canonical (mkInteger true [5; 0; 12; 1])
  ∧ int_sized (mkInteger true [5; 0; 12; 1])
  ∧ Integer_print (mkInteger true [5; 0; 12; 1])
    = NilZero.string_of_int (Z.to_int (to_Z (mkInteger true [5; 0; 12; 1]))).
Proof.
  assert (canonical (mkInteger true [5; 0; 12; 1])) as H by canonical_by_eval.
  assert (int_sized (mkInteger true [5; 0; 12; 1])) as Hsz by int_sized_by_eval.
  split; [exact H|]. split; [exact Hsz|].
  apply (X20_print_is_decimal_numeral _ H Hsz).
Defined.

(** X21.  What [Rational::normalize] does keep: every [Rational] a caller
    can get hold of has canonical parts and a positive denominator, and
    zero is kept as [0/1]. *)
Theorem X21_rational_invariant r :
  exposed_rational r →
  canonical (num r) ∧ canonical (den r) ∧ 0 < to_Z (den r)
  ∧ (to_Z (num r) = 0 → den r = Integer_from_ll 1).
Proof. apply exposed_rational_ok. Qed.

Lemma X21_rational_invariant_witness :
  exposed_rational (Rational_from_ll (-3))
  ∧ canonical (num (Rational_from_ll (-3)))
  ∧ canonical (den (Rational_from_ll (-3)))
  ∧ 0 < to_Z (den (Rational_from_ll (-3)))
  ∧ (to_Z (num (Rational_from_ll (-3))) = 0
     → den (Rational_from_ll (-3)) = Integer_from_ll 1).
Proof.
  assert (exposed_rational (Rational_from_ll (-3))) as H.
  { apply exposed_rational_from_ll. unfold LLONG_MIN, LLONG_MAX. lia. }
  split; [exact H|].
  apply (X21_rational_invariant _ H).
Defined.

(** X22.  [Rational(n, d)] with [d] not zero returns a value that stands
    for the fraction [n / d]: times [d] it is [n]. *)
Theorem X22_rational_constructor_value n d :
  canonical n → canonical d → to_Z d ≠ 0 →
  ∃ r, Rational_from_Integers n d = Ok r ∧ Rational_ok r
       ∧ to_Q r * inject_Z (to_Z d) == inject_Z (to_Z n).
Proof.
  intros Hn Hd Hd0.
  destruct (Rational_from_Integers_spec n d Hn Hd Hd0) as (r & Hr & Hok & Hx).
  exists r. split; [done|]. split; [done|].
  unfold to_Q, Qeq, Qmult, inject_Z. cbn [Qnum Qden].
  rewrite Pos.mul_1_r, (Rational_ok_den r Hok). lia.
Qed.

Lemma X22_rational_constructor_value_witness :
  canonical (mkInteger false [2]) ∧ canonical (mkInteger true [5])
  ∧ to_Z (mkInteger true [5]) ≠ 0
  ∧ ∃ r, Rational_from_Integers (mkInteger false [2]) (mkInteger true [5]) = Ok r
         ∧ Rational_ok r
         ∧ to_Q r * inject_Z (to_Z (mkInteger true [5]))
           == inject_Z (to_Z (mkInteger false [2])).
Proof.
  assert (canonical (mkInteger false [2])) as Ha by canonical_by_eval.
  assert (canonical (mkInteger true [5])) as Hb by canonical_by_eval.
  assert (to_Z (mkInteger true [5]) ≠ 0) as Hz by (vm_compute; discriminate).
  split; [exact Ha|]. split; [exact Hb|]. split; [exact Hz|].
  apply (X22_rational_constructor_value _ _ Ha Hb Hz).
Defined.

(** X23.  [operator+] on [Rational]s whose cross product [num a * den b]
    has room in [INT_MAX] digits never fails and returns the sum of the
    two fractions. *)
Theorem X23_rational_addition a b :
  Rational_ok a → Rational_ok b →
  Z.of_nat (length (digits (num a)) + length (digits (den b))) <= INT_MAX →
  ∃ r, Rational_plus a b = Ok r ∧ Rational_ok r ∧ to_Q r == to_Q a + to_Q b.
Proof.
  intros Ha Hb Hsz.
  destruct (Rational_plus_spec a b Ha Hb Hsz) as (r & Hr & Hok & Hx).
  exists r. split; [done|]. split; [done|].
  unfold to_Q, Qeq, Qplus. cbn [Qnum Qden].
  rewrite Pos2Z.inj_mul, (Rational_ok_den r Hok), (Rational_ok_den a Ha),
    (Rational_ok_den b Hb). lia.
Qed.

Lemma X23_rational_addition_witness :
  Rational_ok (mkRational (mkInteger false [1]) (mkInteger false [2]))
  ∧ Rational_ok (mkRational (mkInteger false [1]) (mkInteger false [3]))
  ∧ Z.of_nat (length [1] + length [3]) <= INT_MAX
  ∧ ∃ r, Rational_plus (mkRational (mkInteger false [1]) (mkInteger false [2]))
           (mkRational (mkInteger false [1]) (mkInteger false [3])) = Ok r
         ∧ Rational_ok r
         ∧ to_Q r == to_Q (mkRational (mkInteger false [1]) (mkInteger false [2]))
                     + to_Q (mkRational (mkInteger false [1]) (mkInteger false [3])).
Proof.
  assert (Rational_ok (mkRational (mkInteger false [1]) (mkInteger false [2])))
    as Ha by rational_ok_by_eval.
  assert (Rational_ok (mkRational (mkInteger false [1]) (mkInteger false [3])))
    as Hb by rational_ok_by_eval.
  assert (Z.of_nat (length [1] + length [3]) <= INT_MAX)
    as Hsz by (unfold INT_MAX; simpl; lia).
  split; [exact Ha|]. split; [exact Hb|]. split; [exact Hsz|].
  apply (X23_rational_addition _ _ Ha Hb Hsz).
Defined.

(** X24.  [operator-] on [Rational]s whose cross product [num a * den b]
    has room in [INT_MAX] digits never fails and returns the difference
    of the two fractions. *)
Theorem X24_rational_subtraction a b :
  Rational_ok a → Rational_ok b →
  Z.of_nat (length (digits (num a)) + length (digits (den b))) <= INT_MAX →
  ∃ r, Rational_minus a b = Ok r ∧ Rational_ok r ∧ to_Q r == to_Q a - to_Q b.
Proof.
  intros Ha Hb Hsz.
  destruct (Rational_minus_spec a b Ha Hb Hsz) as (r & Hr & Hok & Hx).
  exists r. split; [done|]. split; [done|].
  unfold to_Q, Qeq, Qminus, Qplus, Qopp. cbn [Qnum Qden].
  rewrite Pos2Z.inj_mul, (Rational_ok_den r Hok), (Rational_ok_den a Ha),
    (Rational_ok_den b Hb). lia.
Qed.

Lemma X24_rational_subtraction_witness :
  Rational_ok (mkRational (mkInteger false [1]) (mkInteger false [2]))
  ∧ Rational_ok (mkRational (mkInteger false [3]) (mkInteger false [4]))
  ∧ Z.of_nat (length [1] + length [4]) <= INT_MAX
  ∧ ∃ r, Rational_minus (mkRational (mkInteger false [1]) (mkInteger false [2]))
           (mkRational (mkInteger false [3]) (mkInteger false [4])) = Ok r
         ∧ Rational_ok r
         ∧ to_Q r == to_Q (mkRational (mkInteger false [1]) (mkInteger false [2]))
                     - to_Q (mkRational (mkInteger false [3]) (mkInteger false [4])).
Proof.
  assert (Rational_ok (mkRational (mkInteger false [1]) (mkInteger false [2])))
    as Ha by rational_ok_by_eval.
  assert (Rational_ok (mkRational (mkInteger false [3]) (mkInteger false [4])))
    as Hb by rational_ok_by_eval.
  assert (Z.of_nat (length [1] + length [4]) <= INT_MAX)
    as Hsz by (unfold INT_MAX; simpl; lia).
  split; [exact Ha|]. split; [exact Hb|]. split; [exact Hsz|].
  apply (X24_rational_subtraction _ _ Ha Hb Hsz).
Defined.

(** X25.  [operator*] on [Rational]s never fails and returns the product
    of the two fractions. *)
Theorem X25_rational_multiplication a b :
  Rational_ok a → Rational_ok b →
  ∃ r, Rational_mul a b = Ok r ∧ Rational_ok r ∧ to_Q r == to_Q a * to_Q b.
Proof.
  intros Ha Hb.
  destruct (Rational_mul_spec a b Ha Hb) as (r & Hr & Hok & Hx).
  exists r. split; [done|]. split; [done|].
  unfold to_Q, Qeq, Qmult. cbn [Qnum Qden].
  rewrite Pos2Z.inj_mul, (Rational_ok_den r Hok), (Rational_ok_den a Ha),
    (Rational_ok_den b Hb). lia.
Qed.

Lemma X25_rational_multiplication_witness :
  Rational_ok (mkRational (mkInteger false [1]) (mkInteger false [2]))
  ∧ Rational_ok (mkRational (mkInteger true [1]) (mkInteger false [3]))
  ∧ ∃ r, Rational_mul (mkRational (mkInteger false [1]) (mkInteger false [2]))
           (mkRational (mkInteger true [1]) (mkInteger false [3])) = Ok r
         ∧ Rational_ok r
         ∧ to_Q r == to_Q (mkRational (mkInteger false [1]) (mkInteger false [2]))
                     * to_Q (mkRational (mkInteger true [1]) (mkInteger false [3])).
Proof.
  assert (Rational_ok (mkRational (mkInteger false [1]) (mkInteger false [2])))
    as Ha by rational_ok_by_eval.
  assert (Rational_ok (mkRational (mkInteger true [1]) (mkInteger false [3])))
    as Hb by rational_ok_by_eval.
  split; [exact Ha|]. split; [exact Hb|].
  apply (X25_rational_multiplication _ _ Ha Hb).
Defined.

(** X26.  [operator/] on [Rational]s: a divisor with numerator zero ends
    the process with the division message and [EXIT_FAILURE]; otherwise
    the quotient is returned, with a positive denominator whatever the
    sign of the divisor: times the divisor it is the dividend. *)
Theorem X26_rational_division a b :
  Rational_ok a → Rational_ok b →
  (to_Z (num b) = 0 →
   Rational_div a b
   = Exit "Error: Division by zero rational number." EXIT_FAILURE)
  ∧ (to_Z (num b) ≠ 0 →
     ∃ r, Rational_div a b = Ok r ∧ Rational_ok r
          ∧ to_Q r * to_Q b == to_Q a).
Proof.
  intros Ha Hb. split.
  - intros H0. apply Rational_div_by_zero. apply isZero_true.
    apply canonical_to_Z_zero; [apply Hb|done].
  - intros Hnz.
    destruct (Rational_div_spec a b Ha Hb Hnz) as (r & Hr & Hok & Hx).
    exists r. split; [done|]. split; [done|].
    unfold to_Q, Qeq, Qmult. cbn [Qnum Qden].
    rewrite Pos2Z.inj_mul, (Rational_ok_den r Hok), (Rational_ok_den a Ha),
      (Rational_ok_den b Hb). lia.
Qed.

Lemma X26_rational_division_witness :
  Rational_ok (mkRational (mkInteger false [1]) (mkInteger false [2]))
  ∧ Rational_ok (mkRational (mkInteger true [3]) (mkInteger false [4]))
  ∧ to_Z (num (mkRational (mkInteger true [3]) (mkInteger false [4]))) ≠ 0
  ∧ ∃ r, Rational_div (mkRational (mkInteger false [1]) (mkInteger false [2]))
           (mkRational (mkInteger true [3]) (mkInteger false [4])) = Ok r
         ∧ Rational_ok r
         ∧ to_Q r * to_Q (mkRational (mkInteger true [3]) (mkInteger false [4]))
           == to_Q (mkRational (mkInteger false [1]) (mkInteger false [2])).
Proof.
  assert (Rational_ok (mkRational (mkInteger false [1]) (mkInteger false [2])))
    as Ha by rational_ok_by_eval.
  assert (Rational_ok (mkRational (mkInteger true [3]) (mkInteger false [4])))
    as Hb by rational_ok_by_eval.
  assert (to_Z (num (mkRational (mkInteger true [3]) (mkInteger false [4]))) ≠ 0)
    as Hz by (vm_compute; discriminate).
  split; [exact Ha|]. split; [exact Hb|]. split; [exact Hz|].
  apply (proj2 (X26_rational_division _ _ Ha Hb) Hz).
Defined.

(** X27.  Unary minus on a [Rational] negates the fraction and leaves the
    denominator as it is. *)
Theorem X27_rational_negation a :
  Rational_ok a →
  Rational_ok (Rational_neg a)
  ∧ den (Rational_neg a) = den a
  ∧ to_Q (Rational_neg a) == - to_Q a.
Proof.
  intros Ha. destruct (Rational_neg_spec a Ha) as (Hok & Hn & Hd).
  split; [done|]. split; [done|].
  unfold to_Q, Qeq, Qopp. cbn [Qnum Qden]. rewrite Hn, Hd. done.
Qed.

Lemma X27_rational_negation_witness :
  Rational_ok (mkRational (mkInteger false [1]) (mkInteger false [2]))
  ∧ Rational_ok (Rational_neg (mkRational (mkInteger false [1]) (mkInteger false [2])))
  ∧ den (Rational_neg (mkRational (mkInteger false [1]) (mkInteger false [2])))
    = den (mkRational (mkInteger false [1]) (mkInteger false [2]))
  ∧ to_Q (Rational_neg (mkRational (mkInteger false [1]) (mkInteger false [2])))
    == - to_Q (mkRational (mkInteger false [1]) (mkInteger false [2])).
Proof.
  assert (Rational_ok (mkRational (mkInteger false [1]) (mkInteger false [2])))
    as Ha by rational_ok_by_eval.
  split; [exact Ha|].
  apply (X27_rational_negation _ Ha).
Defined.

(** X28.  [operator==] on [Rational]s never fails and holds exactly when
    the two fractions are equal; [operator!=] is its negation. *)
Theorem X28_rational_equality a b :
  Rational_ok a → Rational_ok b →
  ∃ e, Rational_eq a b = Ok e ∧ (e = true ↔ to_Q a == to_Q b)
       ∧ Rational_ne a b = Ok (negb e).
Proof.
  intros Ha Hb. destruct (Rational_eq_spec a b Ha Hb) as (e & He & Hiff).
  exists e. split; [done|]. split.
  - rewrite Hiff. symmetry. by apply to_Q_eq_iff.
  - unfold Rational_ne. by rewrite He.
Qed.

Lemma X28_rational_equality_witness :
  Rational_ok (mkRational (mkInteger false [1]) (mkInteger false [2]))
  ∧ Rational_ok (mkRational (mkInteger false [2]) (mkInteger false [4]))
  ∧ ∃ e, Rational_eq (mkRational (mkInteger false [1]) (mkInteger false [2]))
           (mkRational (mkInteger false [2]) (mkInteger false [4])) = Ok e
         ∧ (e = true
            ↔ to_Q (mkRational (mkInteger false [1]) (mkInteger false [2]))
              == to_Q (mkRational (mkInteger false [2]) (mkInteger false [4])))
         ∧ Rational_ne (mkRational (mkInteger false [1]) (mkInteger false [2]))
             (mkRational (mkInteger false [2]) (mkInteger false [4]))
           = Ok (negb e).
Proof.
  assert (Rational_ok (mkRational (mkInteger false [1]) (mkInteger false [2])))
    as Ha by rational_ok_by_eval.
  assert (Rational_ok (mkRational (mkInteger false [2]) (mkInteger false [4])))
    as Hb by rational_ok_by_eval.
  split; [exact Ha|]. split; [exact Hb|].
  apply (X28_rational_equality _ _ Ha Hb).
Defined.

(** X29.  The text written for a [Rational] whose parts have at most
    [INT_MAX] digits: the decimal numeral of the numerator, followed by
    ["/"] and the numeral of the denominator unless the denominator is 1;
    a zero fraction of any size is written ["0"]. *)
Theorem X29_rational_text r :
  Rational_ok r →
  (int_sized (num r) → int_sized (den r) →
   Rational_print r
   = show_int (to_Z (num r))
     +:+ (if to_Z (den r) =? 1 then ""
          else "/" +:+ show_int (to_Z (den r))))
  ∧ (to_Z (num r) = 0 → Rational_print r = "0"%string).
Proof.
  intros Hok. split; [by apply Rational_print_spec|by apply Rational_print_zero].
Qed.

Lemma X29_rational_text_witness :
  Rational_ok (mkRational (mkInteger true [2]) (mkInteger false [5]))
  ∧ int_sized (mkInteger true [2]) ∧ int_sized (mkInteger false [5])
  ∧ Rational_print (mkRational (mkInteger true [2]) (mkInteger false [5]))
    = "-2/5"%string.
Proof.
  assert (Rational_ok (mkRational (mkInteger true [2]) (mkInteger false [5])))
    as Ha by rational_ok_by_eval.
  assert (int_sized (mkInteger true [2])) as Hsn by int_sized_by_eval.
  assert (int_sized (mkInteger false [5])) as Hsd by int_sized_by_eval.
  split; [exact Ha|]. split; [exact Hsn|]. split; [exact Hsd|].
  rewrite (proj1 (X29_rational_text _ Ha) Hsn Hsd). vm_compute. reflexivity.
Defined.

(** X30.  Scaling numerator and denominator by the same non-zero factor
    before construction gives a [Rational] that compares equal to the
    unscaled one. *)
Theorem X30_rational_equal_under_scaling n d k :
  canonical n → canonical d → canonical k → to_Z d ≠ 0 → to_Z k ≠ 0 →
  ∃ nk dk r1 r2,
    operator_mul n k = Ok nk ∧ operator_mul d k = Ok dk
    ∧ Rational_from_Integers nk dk = Ok r1
    ∧ Rational_from_Integers n d = Ok r2
    ∧ Rational_eq r1 r2 = Ok true.
Proof.
  intros Hn Hd Hk Hd0 Hk0.
  destruct (operator_mul_to_Z n k Hn Hk) as (nk & Hnk & Hcnk & Hvnk).
  destruct (operator_mul_to_Z d k Hd Hk) as (dk & Hdk & Hcdk & Hvdk).
  destruct (Rational_from_Integers_spec nk dk) as (r1 & Hr1 & Hok1 & Hx1);
    [done|done|nia|].
  destruct (Rational_from_Integers_spec n d Hn Hd Hd0) as (r2 & Hr2 & Hok2 & Hx2).
  exists nk, dk, r1, r2. split_and!; try done.
  destruct (Rational_eq_spec r1 r2 Hok1 Hok2) as (e & -> & Hiff).
  f_equal. apply Hiff.
  rewrite Hvnk, Hvdk in Hx1.
  assert (0 < to_Z (den r1)) by apply Hok1.
  assert (0 < to_Z (den r2)) by apply Hok2.
  apply (Z.mul_cancel_r _ _ (to_Z d * to_Z k)); [nia|].
  transitivity (to_Z (num r1) * (to_Z d * to_Z k) * to_Z (den r2)); [ring|].
  rewrite Hx1.
  transitivity (to_Z (den r1) * to_Z k * (to_Z n * to_Z (den r2))); [ring|].
  rewrite <- Hx2. ring.
Qed.

Lemma X30_rational_equal_under_scaling_witness :
  canonical (mkInteger false [1]) ∧ canonical (mkInteger false [2])
  ∧ canonical (mkInteger true [3])
  ∧ to_Z (mkInteger false [2]) ≠ 0 ∧ to_Z (mkInteger true [3]) ≠ 0
  ∧ ∃ nk dk r1 r2,
      operator_mul (mkInteger false [1]) (mkInteger true [3]) = Ok nk
      ∧ operator_mul (mkInteger false [2]) (mkInteger true [3]) = Ok dk
      ∧ Rational_from_Integers nk dk = Ok r1
      ∧ Rational_from_Integers (mkInteger false [1]) (mkInteger false [2]) = Ok r2
      ∧ Rational_eq r1 r2 = Ok true.
Proof.
  assert (canonical (mkInteger false [1])) as Hn by canonical_by_eval.
  assert (canonical (mkInteger false [2])) as Hd by canonical_by_eval.
  assert (canonical (mkInteger true [3])) as Hk by canonical_by_eval.
  assert (to_Z (mkInteger false [2]) ≠ 0) as Hd0 by (vm_compute; discriminate).
  assert (to_Z (mkInteger true [3]) ≠ 0) as Hk0 by (vm_compute; discriminate).
  split; [exact Hn|]. split; [exact Hd|]. split; [exact Hk|].
  split; [exact Hd0|]. split; [exact Hk0|].
  apply (X30_rational_equal_under_scaling _ _ _ Hn Hd Hk Hd0 Hk0).
Defined.
